(** * farm-keeper: the retrieval/index engine of [memory_service.py]

    A shallow embedding of the in-memory vector index of the memory
    service: the index builder [_load_index_from_db], the handlers
    [reload_index], [store] and [retrieve], and the SQLite table
    [rag_chunks] they work on; and of the scripts around it that write
    and read the same table: [ingest_rag_sqlite.py] ([normalize],
    [chunk_text], [main]) and [rag_query_sqlite.py].

    Modelling decisions, fixed here once:
    - A [float32] array is the list of the real numbers its items stand
      for; items that are NaN or infinite are outside the model.  What
      numpy computes on such arrays (a norm, the quotients by it, a dot
      product) is rounded, and a norm can overflow or underflow: these
      operations are the interface [Np.Float32], the theorems hold for
      every implementation of it, and where a statement needs accuracy
      it asks for it.  [Np.dot] and [Np.norm] are the exact functions,
      in which lengths and tolerances are stated.
    - Python [str] is a Rocq [string], a sequence of bytes: on ASCII
      text the two agree character for character.  [strip], [lower] and
      the lengths and slices of the ingest script are modelled on the
      ASCII range.
    - Exceptions are values of an error type; every fallible step returns
      a [result].
    - The process-wide [state] object and the database file are threaded
      explicitly as a [World].
    - [np.argpartition] and [np.argsort] are library code: the handlers
      are written against the interface [NumpySort], whose laws are the
      documented contract of the two functions.  The order among equal
      keys is left open by that contract.
    - The examples run on a reference implementation of the two
      interfaces ([NpRef]). *)

From Stdlib Require Import Reals Lra Lia ZArith String Ascii Bool List.
From Stdlib Require Import Permutation Sorted.
From Stdlib Require DecimalString.
Import ListNotations.

(** ** Failures *)

(** Python exceptions raised below the HTTP layer. *)
Inductive py_exn : Type :=
| FileNotFoundError                     (* rag.db not found *)
| EmptyStoreError                       (* RuntimeError("rag_chunks is empty") *)
| InconsistentDim (got expected : Z)    (* RuntimeError("Inconsistent dim in DB ...") *)
| ValueError                            (* numpy: buffer, shape or kth out of bounds *)
| IndexError                            (* numpy or list index out of range *)
| SqliteIntegrityError                  (* sqlite3.IntegrityError *)
| SqliteOperationalError                (* any other sqlite3.Error *)
| OverflowError                         (* an int too large for an SQLite INTEGER *)
| ModelError.                           (* whatever the embedding model raises *)

(** The [detail] of an [HTTPException]. *)
Inductive http_detail : Type :=
| ModelNotLoaded
| ServiceNotReady
| InvalidPriority (given : string)
| EmbeddingFailed
| ReloadFailed (cause : py_exn)
| RowNotFound                           (* "Store succeeded but row not found" *)
| IntegrityDetail (cause : py_exn)
| DbErrorDetail (cause : py_exn)
| StoredButReloadFailed (cause : py_exn).

(** What a handler can end with instead of a response. *)
Inductive failure : Type :=
| HTTPException (status_code : Z) (detail : http_detail)
| Unhandled (e : py_exn).

Inductive result (E A : Type) : Type :=
| Ok (a : A)
| Err (e : E).
Arguments Ok {E A} a.
Arguments Err {E A} e.

Definition bind {E A B} (m : result E A) (k : A -> result E B) : result E B :=
  match m with
  | Ok a => k a
  | Err e => Err e
  end.

Declare Scope result_scope.
Delimit Scope result_scope with result.
Notation "x <- m ;; k" := (bind m (fun x => k))
  (at level 100, m at next level, right associativity) : result_scope.
Local Open Scope result_scope.

(** An exception of the lower layers that reaches a handler uncaught. *)
Definition uncaught {A} (m : result py_exn A) : result failure A :=
  match m with
  | Ok a => Ok a
  | Err e => Err (Unhandled e)
  end.

(** ** Python built-ins *)

Module Py.

(** [str.isspace] on the ASCII range. *)
Definition isspace (c : ascii) : bool :=
  let n := nat_of_ascii c in
  ((9 <=? n) && (n <=? 13)) || ((28 <=? n) && (n <=? 32)).

(** [str.isascii]: on such a text one byte is one character, and the
    lengths, slices and character classes of a [string] are those of the
    Python [str]. *)
Definition isascii (s : string) : bool :=
  forallb (fun c => nat_of_ascii c <? 128) (list_ascii_of_string s).

Definition lower_char (c : ascii) : ascii :=
  let n := nat_of_ascii c in
  if (65 <=? n) && (n <=? 90) then ascii_of_nat (n + 32) else c.

Fixpoint lstrip_chars (l : list ascii) : list ascii :=
  match l with
  | c :: l' => if isspace c then lstrip_chars l' else l
  | [] => []
  end.

(** [s.strip()] *)
Definition strip (s : string) : string :=
  string_of_list_ascii
    (rev (lstrip_chars (rev (lstrip_chars (list_ascii_of_string s))))).

(** [s.lower()] *)
Definition lower (s : string) : string :=
  string_of_list_ascii (map lower_char (list_ascii_of_string s)).

(** Truthiness of a [str]. *)
Definition truthy (s : string) : bool :=
  negb (String.eqb s "").

(** [s or d] *)
Definition or_default (s d : string) : string :=
  if truthy s then s else d.

(** [l[i]] for a non-negative [i]. *)
Definition index {A} (l : list A) (i : nat) : result py_exn A :=
  match nth_error l i with
  | Some a => Ok a
  | None => Err IndexError
  end.

(** [l[:k]]: a negative [k] counts from the end. *)
Definition slice_to {A} (l : list A) (k : Z) : list A :=
  if (k <? 0)%Z
  then firstn (Z.to_nat (Z.of_nat (length l) + k)) l
  else firstn (Z.to_nat k) l.

End Py.

(** ** numpy *)

Module Np.

Definition vec := list R.

(** A two-dimensional array of shape [(length rows, cols)]. *)
Record matrix : Type := mkMatrix {
  mrows : list vec;
  mcols : nat
}.

Definition shape0 (m : matrix) : nat := length (mrows m).
Definition shape1 (m : matrix) : nat := mcols m.

(** The dot product of two arrays and the Euclidean norm of an array, as
    exact numbers: the measures the statements are made in. *)
Fixpoint dot (u v : vec) : R :=
  match u, v with
  | a :: u', b :: v' => (a * b + dot u' v')%R
  | _, _ => 0%R
  end.

Definition norm (v : vec) : R := sqrt (dot v v).

(** What [np.linalg.norm] returns for an array of finite items: a
    number, or [inf] when the sum of the squares overflows. *)
Inductive norm_value : Type :=
| Finite (n : R)
| Infinity.

(** The arithmetic of [float32] arrays.  What numpy computes is rounded
    at every step, the sums are taken in the order of the BLAS library,
    and a norm overflows to [inf] and underflows to [0]; none of that is
    in the programs.  The three operations they use are an interface,
    with the facts that hold of them whatever the rounding: the norm of
    an array of zeros is [0], and such an array has the dot product [0]
    with every array of its length.  An item of a matrix product is
    taken to depend on its row and on the vector alone. *)
Class Float32 : Type := {
  (** [float(np.linalg.norm(v))] *)
  norm32 : vec -> norm_value;
  (** an item of [v / c], for a positive number [c] *)
  div32 : R -> R -> R;
  (** [np.dot(u, v)], and an item of [m @ v] for the row [u] of [m] *)
  dot32 : vec -> vec -> R;
  norm32_zeros : forall v, Forall (fun x => x = 0%R) v -> norm32 v = Finite 0;
  dot32_zeros : forall u v,
    length u = length v -> Forall (fun x => x = 0%R) u -> dot32 u v = 0%R
}.

(** [v / c] *)
Definition scale_div `{Float32} (v : vec) (c : R) : vec :=
  map (fun x => div32 x c) v.

(** [v / inf] *)
Definition zeros_like (v : vec) : vec := map (fun _ => 0%R) v.

(** [-v] *)
Definition neg (v : vec) : vec := map Ropp v.

(** [np.frombuffer(blob, dtype=np.float32, count=count)]; the blob is given
    as the sequence of [float32] items it holds.  A negative [count]
    reads the whole buffer. *)
Definition frombuffer (blob : list R) (count : Z) : result py_exn vec :=
  if (count <? 0)%Z then Ok blob
  else if (Z.of_nat (length blob) <? count)%Z then Err ValueError
  else Ok (firstn (Z.to_nat count) blob).

(** [np.vstack(vs)] of one-dimensional arrays. *)
Definition vstack (vs : list vec) : result py_exn matrix :=
  match vs with
  | [] => Err ValueError
  | v :: rest =>
      if forallb (fun w => length w =? length v) rest
      then Ok (mkMatrix vs (length v))
      else Err ValueError
  end.

(** [m @ q] *)
Definition matvec `{Float32} (m : matrix) (q : vec) : result py_exn vec :=
  if mcols m =? length q
  then Ok (map (fun r => dot32 r q) (mrows m))
  else Err ValueError.

Fixpoint compress {A} (mask : list bool) (l : list A) : list A :=
  match mask, l with
  | b :: mask', a :: l' => if b then a :: compress mask' l' else compress mask' l'
  | _, _ => []
  end.

(** [m[mask]] with a boolean mask along axis 0. *)
Definition mask_rows (m : matrix) (mask : list bool) : result py_exn matrix :=
  if length mask =? length (mrows m)
  then Ok (mkMatrix (compress mask (mrows m)) (mcols m))
  else Err IndexError.

(** [mask.any()] *)
Definition any (mask : list bool) : bool := existsb (fun b => b) mask.

(** [np.flatnonzero(mask)] *)
Definition flatnonzero (mask : list bool) : list nat :=
  compress mask (seq 0 (length mask)).

(** [a[idx]] with an integer index array. *)
Fixpoint take {A} (a : list A) (idx : list nat) : result py_exn (list A) :=
  match idx with
  | [] => Ok []
  | i :: idx' =>
      x <- Py.index a i ;;
      xs <- take a idx' ;;
      Ok (x :: xs)
  end.

(** The value an index array refers to, for stating the contracts. *)
Definition at_ (v : vec) (i : nat) : R := nth i v 0%R.

(** The documented contract of [np.argsort] and [np.argpartition]:
    both return a permutation of [0 .. n-1]; [argsort] orders the keys
    ascending; [argpartition] puts the key of rank [kth] in place, with
    no larger key before it and no smaller key after it.  Nothing is
    promised about the order of equal keys. *)
Class NumpySort : Type := {
  argsort : vec -> list nat;
  argpartition : vec -> Z -> result py_exn (list nat);
  argsort_perm : forall v, Permutation (argsort v) (seq 0 (length v));
  argsort_sorted : forall v, StronglySorted Rle (map (at_ v) (argsort v));
  argpartition_ok : forall v kth,
    (0 <= kth < Z.of_nat (length v))%Z ->
    exists p, argpartition v kth = Ok p /\
      Permutation p (seq 0 (length v)) /\
      forall i j, i < length p -> j < length p ->
        (i <= Z.to_nat kth <= j) ->
        (at_ v (nth i p 0%nat) <= at_ v (nth j p 0%nat))%R
}.

End Np.

(** ** The table [rag_chunks] *)

Module Db.

(** One row; [priority] is [None] for SQL NULL. *)
Record Row : Type := mkRow {
  id : string;
  source_path : string;
  kind : string;
  chunk_index : Z;
  priority : option string;
  text : string;
  emb : list R;
  dim : Z;
  created_at : string
}.

Definition key : Type := (string * string * Z)%type.

Definition key_of (r : Row) : key := (source_path r, kind r, chunk_index r).

Definition key_eqb (a b : key) : bool :=
  let '(sa, ka, ia) := a in
  let '(sb, kb, ib) := b in
  String.eqb sa sb && String.eqb ka kb && Z.eqb ia ib.

(** The table in rowid order, and whether it has the [priority] column
    yet (a table made by [init_rag_db.py] has not). *)
Record Table : Type := mkTable {
  rows : list Row;
  has_priority : bool
}.

(** The file [farm_memory/db/rag.db]. *)
Inductive File : Type :=
| Missing
| NoTable
| Present (t : Table).

(** [DB_PATH.exists()] *)
Definition exists_ (d : File) : bool :=
  match d with Missing => false | _ => true end.

(** [sqlite3.connect] creates the file when it is not there. *)
Definition _db_connect (d : File) : File :=
  match d with Missing => NoTable | _ => d end.

Fixpoint unique_keys (l : list Row) : bool :=
  match l with
  | [] => true
  | r :: l' =>
      negb (existsb (fun r' => key_eqb (key_of r) (key_of r')) l')
      && unique_keys l'
  end.

Definition set_priority (p : option string) (r : Row) : Row :=
  mkRow (id r) (source_path r) (kind r) (chunk_index r) p
        (text r) (emb r) (dim r) (created_at r).

(** [_ensure_schema]: the unique index on the natural key can be created
    (or is there already) exactly when no two rows share a key; then the
    [priority] column is added, with default ['normal'], if absent. *)
Definition _ensure_schema (d : File) : result py_exn Table :=
  match d with
  | Present t =>
      if unique_keys (rows t) then
        if has_priority t then Ok t
        else Ok (mkTable (map (set_priority (Some "normal"%string)) (rows t)) true)
      else Err SqliteIntegrityError
  | _ => Err SqliteOperationalError
  end.

(** The [DO UPDATE SET] clause: everything but [id] and the key. *)
Definition do_update (excluded old : Row) : Row :=
  mkRow (id old) (source_path old) (kind old) (chunk_index old)
        (priority excluded) (text excluded) (emb excluded) (dim excluded)
        (created_at excluded).

(** Whether a Python [int] fits the 64 bits of an SQLite INTEGER. *)
Definition int64 (z : Z) : bool := ((- 2 ^ 63 <=? z) && (z <? 2 ^ 63))%Z.

(** [INSERT ... ON CONFLICT(source_path, kind, chunk_index) DO UPDATE]:
    binding a [chunk_index] outside 64 bits raises [OverflowError] before
    the statement runs ([dim], the length of an array, always fits); the
    conflict target is resolved first; a clash on the primary key [id]
    alone is an integrity error. *)
Definition upsert (t : Table) (new : Row) : result py_exn Table :=
  if negb (int64 (chunk_index new)) then Err OverflowError
  else if existsb (fun r => key_eqb (key_of r) (key_of new)) (rows t) then
    Ok (mkTable
          (map (fun r => if key_eqb (key_of r) (key_of new)
                         then do_update new r else r) (rows t))
          (has_priority t))
  else if existsb (fun r => String.eqb (id r) (id new)) (rows t) then
    Err SqliteIntegrityError
  else Ok (mkTable (rows t ++ [new]) (has_priority t)).

(** [SELECT id, dim ... WHERE source_path=? AND kind=? AND chunk_index=?]
    followed by [fetchone]. *)
Definition select_id_dim (t : Table) (k : key) : option (string * Z) :=
  match find (fun r => key_eqb (key_of r) k) (rows t) with
  | Some r => Some (id r, dim r)
  | None => None
  end.

End Db.

(** ** The service *)

Module Service.
Import Np.

Definition PRIORITIES : list string := ["normal"%string; "high"%string].

Definition in_priorities (s : string) : bool :=
  existsb (String.eqb s) PRIORITIES.

(** *** API models *)

Record Query : Type := mkQuery {
  query : string;
  topk : Z;
  q_kind : option string
}.

Record RetrievedChunk : Type := mkRetrievedChunk {
  score : R;
  rc_source_path : string;
  rc_kind : string;
  rc_chunk_index : Z;
  rc_priority : string;
  rc_text : string
}.

Record StoreRequest : Type := mkStoreRequest {
  sr_source_path : string;
  sr_kind : string;
  sr_chunk_index : Z;
  sr_text : string;
  sr_priority : string
}.

Record StoreResponse : Type := mkStoreResponse {
  ok : bool;
  resp_id : string;
  resp_dim : Z
}.

(** *** In-memory index *)

Record RagIndex : Type := mkRagIndex {
  ix_source_path : list string;
  ix_kind : list string;
  ix_chunk_index : list Z;
  ix_priority : list string;
  ix_text : list string;
  emb_matrix : matrix
}.

(** The embedding model: [encode([text], normalize_embeddings=True)[0]],
    [None] when it raises. *)
Definition Encoder : Type := string -> option vec.

Record AppState : Type := mkAppState {
  model : option Encoder;
  index : option RagIndex;
  loaded_at : option R
}.

Definition ready (s : AppState) : bool :=
  match model s, index s with
  | Some _, Some _ => true
  | _, _ => false
  end.

(** The [state] object and the database file. *)
Record World : Type := mkWorld {
  app : AppState;
  db : Db.File
}.

(** *** Loading *)

(** The six lists the loop of [_load_index_from_db] appends to. *)
Record Columns : Type := mkColumns {
  c_source_path : list string;
  c_kind : list string;
  c_chunk_index : list Z;
  c_priority : list string;
  c_text : list string;
  c_embs : list vec
}.

Definition no_columns : Columns := mkColumns [] [] [] [] [] [].

(** [norm = float(np.linalg.norm(v))], then [if norm > 0: v = v / norm] *)
Definition renormalize `{Float32} (v : vec) : vec :=
  match norm32 v with
  | Finite n => if Rlt_dec 0 n then scale_div v n else v
  | Infinity => zeros_like v
  end.

(** [pr_s if pr_s in PRIORITIES else "normal"] *)
Definition load_priority (pr : option string) : string :=
  let pr_s := match pr with Some s => s | None => "normal"%string end in
  if in_priorities pr_s then pr_s else "normal"%string.

Definition append_row (acc : Columns) (r : Db.Row) (v : vec) : Columns :=
  mkColumns (c_source_path acc ++ [Db.source_path r])
            (c_kind acc ++ [Db.kind r])
            (c_chunk_index acc ++ [Db.chunk_index r])
            (c_priority acc ++ [load_priority (Db.priority r)])
            (c_text acc ++ [Db.text r])
            (c_embs acc ++ [v]).

(** The body of [for sp, k, idx, pr, t, emb_blob, dim in rows]. *)
Fixpoint load_loop `{Float32} (dim0 : Z) (rows : list Db.Row) (acc : Columns)
  : result py_exn Columns :=
  match rows with
  | [] => Ok acc
  | r :: rest =>
      if negb (Db.dim r =? dim0)%Z then Err (InconsistentDim (Db.dim r) dim0)
      else
        v <- frombuffer (Db.emb r) (Db.dim r) ;;
        load_loop dim0 rest (append_row acc r (renormalize v))
  end.

(** [_load_index_from_db] after the rows are fetched. *)
Definition build_index `{Float32} (rows : list Db.Row) : result py_exn RagIndex :=
  match rows with
  | [] => Err EmptyStoreError
  | r0 :: _ =>
      cols <- load_loop (Db.dim r0) rows no_columns ;;
      m <- vstack (c_embs cols) ;;
      Ok (mkRagIndex (c_source_path cols) (c_kind cols) (c_chunk_index cols)
                     (c_priority cols) (c_text cols) m)
  end.

(** [_load_index_from_db]: the schema migration it runs is committed even
    when the build fails afterwards. *)
Definition _load_index_from_db `{Float32} (d : Db.File) : Db.File * result py_exn RagIndex :=
  if negb (Db.exists_ d) then (d, Err FileNotFoundError)
  else
    match Db._ensure_schema (Db._db_connect d) with
    | Err e => (d, Err e)
    | Ok t => (Db.Present t, build_index (Db.rows t))
    end.

(** *** Lifecycle *)

(** [_startup], given the model that [SentenceTransformer(MODEL_NAME)]
    loads and the clock. *)
Definition _startup `{Float32} (m : Encoder) (now : R) (w : World) : World * result failure unit :=
  let schema :=
    if Db.exists_ (db w) then
      match Db._ensure_schema (Db._db_connect (db w)) with
      | Ok t => Ok (Db.Present t)
      | Err e => Err e
      end
    else Ok (db w) in
  match schema with
  | Err e => (w, Err (Unhandled e))
  | Ok d1 =>
      let s1 := mkAppState (Some m) (index (app w)) (loaded_at (app w)) in
      match m "warmup"%string with
      | None => (mkWorld s1 d1, Err (Unhandled ModelError))
      | Some _ =>
          match _load_index_from_db d1 with
          | (d2, Err e) => (mkWorld s1 d2, Err (Unhandled e))
          | (d2, Ok ix) =>
              (mkWorld (mkAppState (Some m) (Some ix) (Some now)) d2, Ok tt)
          end
      end
  end.

(** *** Endpoints *)

Record Health : Type := mkHealth {
  h_ready : bool;
  h_model_loaded : bool;
  h_index_loaded : bool;
  h_loaded_at : option R;
  h_chunks : nat;
  h_dim : nat
}.

Definition health (w : World) : Health :=
  let s := app w in
  mkHealth (ready s)
           (match model s with Some _ => true | None => false end)
           (match index s with Some _ => true | None => false end)
           (loaded_at s)
           (match index s with Some ix => shape0 (emb_matrix ix) | None => 0 end)
           (match index s with Some ix => shape1 (emb_matrix ix) | None => 0 end).

Definition reload_index `{Float32} (now : R) (w : World) : World * result failure nat :=
  match model (app w) with
  | None => (w, Err (HTTPException 503 ModelNotLoaded))
  | Some m =>
      match _load_index_from_db (db w) with
      | (d, Ok ix) =>
          (mkWorld (mkAppState (Some m) (Some ix) (Some now)) d,
           Ok (shape0 (emb_matrix ix)))
      | (d, Err e) =>
          (mkWorld (app w) d, Err (HTTPException 500 (ReloadFailed e)))
      end
  end.

(** What [store] takes from its environment: [uuid.uuid4().hex],
    [datetime.now(timezone.utc).isoformat()] and [time.time()]. *)
Record StoreEnv : Type := mkStoreEnv {
  new_id : string;
  env_created_at : string;
  env_now : R
}.

(** The [try] block of [store] around the database work: the schema
    migration is not undone by a rollback; the row is written only when
    the upsert commits; an exception that is no [sqlite3.Error] is not
    caught. *)
Definition persist (d : Db.File) (new : Db.Row)
  : Db.File * result failure (string * Z) :=
  let d0 := Db._db_connect d in
  match Db._ensure_schema d0 with
  | Err SqliteIntegrityError =>
      (d0, Err (HTTPException 409 (IntegrityDetail SqliteIntegrityError)))
  | Err e => (d0, Err (HTTPException 500 (DbErrorDetail e)))
  | Ok t1 =>
      match Db.upsert t1 new with
      | Err SqliteIntegrityError =>
          (Db.Present t1, Err (HTTPException 409 (IntegrityDetail SqliteIntegrityError)))
      | Err SqliteOperationalError =>
          (Db.Present t1, Err (HTTPException 500 (DbErrorDetail SqliteOperationalError)))
      | Err e => (Db.Present t1, Err (Unhandled e))
      | Ok t2 =>
          match Db.select_id_dim t2 (Db.key_of new) with
          | None => (Db.Present t2, Err (HTTPException 500 RowNotFound))
          | Some (stored_id, stored_dim) => (Db.Present t2, Ok (stored_id, stored_dim))
          end
      end
  end.

(** [(req.priority or "normal").strip().lower()] *)
Definition normalized_priority (req : StoreRequest) : string :=
  Py.lower (Py.strip (Py.or_default (sr_priority req) "normal")).

(** The parameters of the [INSERT], for the embedding [v] of [req.text]. *)
Definition new_row (env : StoreEnv) (req : StoreRequest) (v : vec) : Db.Row :=
  Db.mkRow (new_id env) (sr_source_path req) (sr_kind req) (sr_chunk_index req)
           (Some (normalized_priority req)) (sr_text req)
           v (Z.of_nat (length v)) (env_created_at env).

Definition store `{Float32} (env : StoreEnv) (req : StoreRequest) (w : World)
  : World * result failure StoreResponse :=
  if negb (ready (app w)) then (w, Err (HTTPException 503 ServiceNotReady))
  else
    match model (app w) with
    | None => (w, Err (HTTPException 503 ServiceNotReady))
    | Some m =>
        if negb (in_priorities (normalized_priority req))
        then (w, Err (HTTPException 422 (InvalidPriority (sr_priority req))))
        else
          match m (sr_text req) with
          | None => (w, Err (HTTPException 500 EmbeddingFailed))
          | Some v =>
              match persist (db w) (new_row env req v) with
              | (d1, Err f) => (mkWorld (app w) d1, Err f)
              | (d1, Ok (stored_id, stored_dim)) =>
                  match _load_index_from_db d1 with
                  | (d2, Err e) =>
                      (mkWorld (app w) d2,
                       Err (HTTPException 500 (StoredButReloadFailed e)))
                  | (d2, Ok ix) =>
                      (mkWorld (mkAppState (Some m) (Some ix) (Some (env_now env))) d2,
                       Ok (mkStoreResponse true stored_id stored_dim))
                  end
              end
          end
    end.

(** *** Retrieval *)

Section Retrieve.
Context `{NumpySort} `{Float32}.

(** The loop that builds [out]: one [RetrievedChunk] per entry of
    [idx_global], its score read at the entry's rank. *)
Fixpoint assemble (ix : RagIndex) (scores_sorted : vec)
         (rank : nat) (idx_global : list nat)
  : result py_exn (list RetrievedChunk) :=
  match idx_global with
  | [] => Ok []
  | i :: rest =>
      s <- Py.index scores_sorted rank ;;
      sp <- Py.index (ix_source_path ix) i ;;
      k <- Py.index (ix_kind ix) i ;;
      ci <- Py.index (ix_chunk_index ix) i ;;
      pr <- Py.index (ix_priority ix) i ;;
      t <- Py.index (ix_text ix) i ;;
      out <- assemble ix scores_sorted (S rank) rest ;;
      Ok (mkRetrievedChunk s sp k ci pr t :: out)
  end.

(** [argpartition(-scores, kth=topk-1)[:topk]] reordered by
    [argsort(-scores[idx])]. *)
Definition top_indices (scores : vec) (topk_req : Z) : result py_exn (list nat) :=
  let topk := Z.min topk_req (Z.of_nat (length scores)) in
  p <- argpartition (neg scores) (topk - 1) ;;
  let idx := Py.slice_to p topk in
  sub <- take scores idx ;;
  take idx (argsort (neg sub)).

(** The body of [retrieve] once the query is embedded. *)
Definition search (ix : RagIndex) (qv : vec) (topk_req : Z)
           (kind_filter : option string)
  : result py_exn (list RetrievedChunk) :=
  let filtered :=
    match kind_filter with
    | Some k => if Py.truthy k then Some k else None
    | None => None
    end in
  match filtered with
  | Some k =>
      let mask := map (fun k' => String.eqb k' k) (ix_kind ix) in
      if negb (any mask) then Ok []
      else
        embs <- mask_rows (emb_matrix ix) mask ;;
        scores_local <- matvec embs qv ;;
        idx_local <- top_indices scores_local topk_req ;;
        let idx_global_all := flatnonzero mask in
        idx_global <- take idx_global_all idx_local ;;
        scores_sorted <- take scores_local idx_local ;;
        assemble ix scores_sorted 0 idx_global
  | None =>
      scores <- matvec (emb_matrix ix) qv ;;
      idx_global <- top_indices scores topk_req ;;
      scores_sorted <- take scores idx_global ;;
      assemble ix scores_sorted 0 idx_global
  end.

Definition retrieve (q : Query) (w : World)
  : World * result failure (list RetrievedChunk) :=
  if negb (ready (app w)) then (w, Err (HTTPException 503 ServiceNotReady))
  else
    match model (app w), index (app w) with
    | Some m, Some ix =>
        match m (query q) with
        | None => (w, Err (HTTPException 500 EmbeddingFailed))
        | Some qv => (w, uncaught (search ix qv (topk q) (q_kind q)))
        end
    | _, _ => (w, Err (HTTPException 503 ServiceNotReady))
    end.

End Retrieve.

End Service.

(** ** A reference implementation of the numpy interfaces

    The routines numpy's generic code path runs on short inputs: the
    insertion sort that ends [argsort]'s quicksort, and the selection loop
    [dumb_select] that [argpartition]'s introselect uses for a small [kth].
    They serve as one implementation of [Np.NumpySort] to run the handlers
    on concrete inputs.  A numpy built with vectorized sorting orders
    some equal keys otherwise; what is proved of every implementation of
    the interface holds of it too. *)

Module NpRef.
Import Np.

(** Insert index [i] behind every index whose key is not larger. *)
Fixpoint insert_index (v : vec) (i : nat) (l : list nat) : list nat :=
  match l with
  | [] => [i]
  | y :: l' =>
      if Rlt_dec (at_ v i) (at_ v y) then i :: y :: l'
      else y :: insert_index v i l'
  end.

Definition argsort (v : vec) : list nat :=
  fold_left (fun acc i => insert_index v i acc) (seq 0 (length v)) [].

(** One scan of [dumb_select] over the indices behind the current
    position, [minval] being the running minimum: [None] when nothing in
    [rest] is smaller, otherwise the index of the first minimum and [rest]
    with [x] swapped into its place. *)
Fixpoint scan_min (v : vec) (x : nat) (minval : R) (rest : list nat)
  : option (list nat * nat) :=
  match rest with
  | [] => None
  | y :: ys =>
      if Rlt_dec (at_ v y) minval then
        match scan_min v x (at_ v y) ys with
        | Some (ys', m) => Some (y :: ys', m)
        | None => Some (x :: ys, y)
        end
      else
        match scan_min v x minval ys with
        | Some (ys', m) => Some (y :: ys', m)
        | None => None
        end
  end.

(** [steps] rounds of the outer loop ([for i in 0 .. kth]). *)
Fixpoint dumb_select (v : vec) (steps : nat) (tosort : list nat) : list nat :=
  match steps, tosort with
  | S n, x :: rest =>
      match scan_min v x (at_ v x) rest with
      | None => x :: dumb_select v n rest
      | Some (rest', m) => m :: dumb_select v n rest'
      end
  | _, _ => tosort
  end.

(** A negative [kth] counts from the end; out of bounds is a [ValueError]. *)
Definition argpartition (v : vec) (kth : Z) : result py_exn (list nat) :=
  let n := Z.of_nat (length v) in
  let k := if (kth <? 0)%Z then (kth + n)%Z else kth in
  if ((k <? 0) || (n <=? k))%Z then Err ValueError
  else Ok (dumb_select v (S (Z.to_nat k)) (seq 0 (length v))).

(** A reference arithmetic, to run the examples on numbers that
    [float32] holds and computes exactly: every operation is exact, but
    for the norm of an array whose squares leave the range of
    [float32], where their sum underflows to [0] (below [2^-150]) or
    overflows to [inf] (from [2^128] on). *)
Definition norm32 (v : vec) : norm_value :=
  if Rlt_dec (dot v v) (/ 2 ^ 150) then Finite 0
  else if Rlt_dec (dot v v) (2 ^ 128) then Finite (norm v)
  else Infinity.

End NpRef.

(** ** Vocabulary of the statements *)

Module Snapshot.
Import Np Service.

(** The array [np.frombuffer] returns for a row it can read. *)
Definition decoded (r : Db.Row) : vec :=
  if (Db.dim r <? 0)%Z then Db.emb r
  else firstn (Z.to_nat (Db.dim r)) (Db.emb r).

(** [np.frombuffer] succeeds on the row: the blob holds [dim] items. *)
Definition decodable (r : Db.Row) : bool :=
  ((Db.dim r <? 0) || (Db.dim r <=? Z.of_nat (length (Db.emb r))))%Z.

(** The matrix row the loader makes of a table row. *)
Definition row_vector `{Float32} (r : Db.Row) : vec := renormalize (decoded r).

(** The columns after appending the images of [rows] to [acc]. *)
Definition extend `{Float32} (acc : Columns) (rows : list Db.Row) : Columns :=
  fold_left (fun a r => append_row a r (row_vector r)) rows acc.

(** A row the loop accepts: the expected [dim], and a readable blob. *)
Definition loadable (dim0 : Z) (r : Db.Row) : Prop :=
  Db.dim r = dim0 /\ decodable r = true.

(** The rows [_ensure_schema] leaves in a table it accepts. *)
Definition migrated (t : Db.Table) : list Db.Row :=
  if Db.has_priority t then Db.rows t
  else map (Db.set_priority (Some "normal"%string)) (Db.rows t).

(** The rewrite of a table by [DO UPDATE]: rows of the key take the new
    values and keep their [id]. *)
Definition updated (new : Db.Row) (rows : list Db.Row) : list Db.Row :=
  map (fun r => if Db.key_eqb (Db.key_of r) (Db.key_of new)
                then Db.do_update new r else r) rows.

(** Row [r] holds what the upsert of [new] writes under [new]'s key. *)
Definition carries (new r : Db.Row) : Prop :=
  Db.priority r = Db.priority new /\ Db.text r = Db.text new /\
  Db.emb r = Db.emb new /\ Db.dim r = Db.dim new /\
  Db.created_at r = Db.created_at new /\ Db.key_of r = Db.key_of new.

(** The record a snapshot holds for a table row. *)
Record Entry : Type := mkEntry {
  e_source_path : string;
  e_kind : string;
  e_chunk_index : Z;
  e_priority : string;
  e_text : string;
  e_vector : vec
}.

Definition entry_of `{Float32} (r : Db.Row) : Entry :=
  mkEntry (Db.source_path r) (Db.kind r) (Db.chunk_index r)
          (load_priority (Db.priority r)) (Db.text r) (row_vector r).

(** Row [i] of a snapshot, read across its six columns. *)
Definition entry_at (ix : RagIndex) (i : nat) : option Entry :=
  match nth_error (ix_source_path ix) i, nth_error (ix_kind ix) i,
        nth_error (ix_chunk_index ix) i, nth_error (ix_priority ix) i,
        nth_error (ix_text ix) i, nth_error (mrows (emb_matrix ix)) i with
  | Some sp, Some k, Some ci, Some pr, Some t, Some v =>
      Some (mkEntry sp k ci pr t v)
  | _, _, _, _, _, _ => None
  end.

(** The five columns and the matrix agree on the number of rows, and the
    matrix is rectangular. *)
Definition aligned (ix : RagIndex) : Prop :=
  let n := shape0 (emb_matrix ix) in
  length (ix_source_path ix) = n /\ length (ix_kind ix) = n /\
  length (ix_chunk_index ix) = n /\ length (ix_priority ix) = n /\
  length (ix_text ix) = n /\
  Forall (fun v => length v = shape1 (emb_matrix ix)) (mrows (emb_matrix ix)).

(** The snapshot [ix] is the image of the table rows [rows]. *)
Definition snapshot_of `{Float32} (rows : list Db.Row) (ix : RagIndex) : Prop :=
  ix_source_path ix = map Db.source_path rows /\
  ix_kind ix = map Db.kind rows /\
  ix_chunk_index ix = map Db.chunk_index rows /\
  ix_priority ix = map (fun r => load_priority (Db.priority r)) rows /\
  ix_text ix = map Db.text rows /\
  mrows (emb_matrix ix) = map row_vector rows.

(** A snapshot the service can hold: [state.index] is only ever assigned
    the result of [_load_index_from_db]. *)
Definition built `{Float32} (ix : RagIndex) : Prop :=
  exists d, snd (_load_index_from_db d) = Ok ix.

(** The rows a retrieve request ranks: all of them, or those of the kind
    asked for; an empty kind string counts as no filter. *)
Definition is_candidate (kind_filter : option string) (kind : string) : bool :=
  match kind_filter with
  | Some k => if Py.truthy k then String.eqb kind k else true
  | None => true
  end.

Definition candidate_count (ix : RagIndex) (kind_filter : option string) : nat :=
  length (filter (is_candidate kind_filter) (ix_kind ix)).

(** The candidates as the specification counts them: with a kind filter
    set, the rows whose kind matches it; with none, every row. *)
Definition matching_count (ix : RagIndex) (kind_filter : option string) : nat :=
  match kind_filter with
  | Some k => length (filter (fun kind => String.eqb kind k) (ix_kind ix))
  | None => length (ix_kind ix)
  end.

(** The snapshot rows a retrieve request ranks, by row index. *)
Definition candidates (ix : RagIndex) (kind_filter : option string) : list nat :=
  flatnonzero (map (is_candidate kind_filter) (ix_kind ix)).

(** The score of every snapshot row against [qv]. *)
Definition all_scores `{Float32} (ix : RagIndex) (qv : vec) : vec :=
  map (fun r => dot32 r qv) (mrows (emb_matrix ix)).

(** The chunk reported for row [i], given the scores of all rows. *)
Definition chunk_at (ix : RagIndex) (scores : vec) (i : nat) : RetrievedChunk :=
  mkRetrievedChunk (at_ scores i)
                   (nth i (ix_source_path ix) ""%string)
                   (nth i (ix_kind ix) ""%string)
                   (nth i (ix_chunk_index ix) 0%Z)
                   (nth i (ix_priority ix) ""%string)
                   (nth i (ix_text ix) ""%string).

(** The chunk retrieve reports for a snapshot entry under query vector [qv]. *)
Definition chunk_of `{Float32} (qv : vec) (e : Entry) : RetrievedChunk :=
  mkRetrievedChunk (dot32 (e_vector e) qv) (e_source_path e) (e_kind e)
                   (e_chunk_index e) (e_priority e) (e_text e).

(** The computed norm of [v] is positive, finite and accurate to [eps],
    and the quotients of the items of [v] by it are accurate to [u]. *)
Definition normalizes `{Float32} (eps u : R) (v : vec) : Prop :=
  exists n, norm32 v = Finite n /\ (0 < n)%R /\
    (Rabs (n - norm v) <= eps * norm v)%R /\
    forall x, In x v -> (Rabs (div32 x n - x / n) <= u * Rabs (x / n))%R.

(** The dot product of [a] and [b] is computed to accuracy [gamma]. *)
Definition dot_accurate `{Float32} (gamma : R) (a b : vec) : Prop :=
  (Rabs (dot32 a b - dot a b) <= gamma * dot (map Rabs a) (map Rabs b))%R.

(** The tolerance on the score of a chunk against its own text: the
    embedding has unit length up to [tau], its norm is computed to
    [eps], the quotients by the norm to [u] and the dot product to
    [gamma].  With all four at 0 both bounds are 1. *)
Definition score_lo (tau eps u gamma : R) : R :=
  ((1 - tau) * (1 - u - gamma * (1 + u)) / (1 + eps))%R.

Definition score_hi (tau eps u gamma : R) : R :=
  ((1 + tau) * (1 + u) * (1 + gamma) / (1 - eps))%R.

(** Ties are broken by original row index: a candidate with the score of
    a returned row and a smaller index is returned too, and before it. *)
Definition ties_by_row_index (scores : vec) (cands idxs : list nat) : Prop :=
  forall i j, In i idxs -> In j cands -> j < i -> at_ scores j = at_ scores i ->
    exists a b, a < b /\ nth_error idxs a = Some j /\ nth_error idxs b = Some i.

(** Scores never increase along the sequence. *)
Definition descending (l : list R) : Prop := StronglySorted Rge l.

End Snapshot.

(** ** Vocabulary for the effects of a request *)

Module Effects.
Import Service.

(** A store that wrote to the table: it answered with a response, or with
    the stale-cache error. *)
Definition wrote {A} (r : result failure A) : Prop :=
  match r with
  | Ok _ => True
  | Err (HTTPException _ (StoredButReloadFailed _)) => True
  | Err _ => False
  end.

(** The rows of a table whose natural key is not [k], in table order. *)
Definition other_keys (k : Db.key) (rows : list Db.Row) : list Db.Row :=
  filter (fun r => negb (Db.key_eqb (Db.key_of r) k)) rows.

(** The rows of natural key [k]. *)
Definition of_key (k : Db.key) (rows : list Db.Row) : list Db.Row :=
  filter (fun r => Db.key_eqb (Db.key_of r) k) rows.

(** Whether the table has a row of natural key [k]. *)
Definition has_key (k : Db.key) (rows : list Db.Row) : bool :=
  existsb (fun r => Db.key_eqb (Db.key_of r) k) rows.

(** Whether the table has a row of id [i]. *)
Definition has_id (i : string) (rows : list Db.Row) : bool :=
  existsb (fun r => String.eqb (Db.id r) i) rows.

(** What the two constraints of the table say about a file: no natural
    key and no id occurs twice. *)
Definition well_keyed (d : Db.File) : Prop :=
  forall t, d = Db.Present t ->
    Db.unique_keys (Db.rows t) = true /\ NoDup (map Db.id (Db.rows t)).

(** The file holds the same rows, up to the [priority] column the
    migration adds. *)
Definition same_rows (d d' : Db.File) : Prop :=
  d' = d \/ (d = Db.Missing /\ d' = Db.NoTable) \/
  exists t, d = Db.Present t /\ d' = Db.Present (Db.mkTable (Snapshot.migrated t) true).

(** What identifies the rows of the table, in rowid order: the primary
    key and the natural key of each. *)
Definition row_names (d : Db.File) : list (string * Db.key) :=
  match d with
  | Db.Present t => map (fun r => (Db.id r, Db.key_of r)) (Db.rows t)
  | _ => []
  end.

(** One handler's effect on the file: the rows as they were, or one
    upsert on the migrated table. *)
Definition one_upsert (d d' : Db.File) : Prop :=
  exists t1 new t2, Db._ensure_schema (Db._db_connect d) = Ok t1 /\
                    Db.upsert t1 new = Ok t2 /\ d' = Db.Present t2.

End Effects.

(** ** Request sequences *)

Module Lifecycle.
Import Service.

(** What can reach the service: its start, and the three POST endpoints. *)
Inductive Request : Type :=
| Startup (m : Encoder) (now : R)
| Reload (now : R)
| Store (env : StoreEnv) (req : StoreRequest)
| Retrieve (q : Query).

Section Run.
Context `{Np.NumpySort} `{Np.Float32}.

(** The world after one request, whatever was answered. *)
Definition handle (rq : Request) (w : World) : World :=
  match rq with
  | Startup m now => fst (_startup m now w)
  | Reload now => fst (reload_index now w)
  | Store env req => fst (store env req w)
  | Retrieve q => fst (retrieve q w)
  end.

Definition run (rqs : list Request) (w : World) : World :=
  fold_left (fun w rq => handle rq w) rqs w.

End Run.

(** The table holds two rows that disagree on [dim]. *)
Definition mixed_dims (d : Db.File) : Prop :=
  exists t r1 r2, d = Db.Present t /\ In r1 (Db.rows t) /\ In r2 (Db.rows t) /\
                  Db.dim r1 <> Db.dim r2.

End Lifecycle.

(** ** A small store to run the handlers on *)

Module Example.
Import Service.

(** A stub embedding model: two texts, two orthogonal unit vectors. *)
Definition encoder : Encoder :=
  fun s => if String.eqb s "the cow gave birth today"
           then Some [1%R; 0%R] else Some [0%R; 1%R].

Definition row_a : Db.Row :=
  Db.mkRow "a1" "a.md" "journal" 0 (Some "normal"%string)
           "hay was delivered" [0%R; 1%R] 2 "2026-01-01T00:00:00".

Definition row_b : Db.Row :=
  Db.mkRow "b1" "b.md" "journal" 0 (Some "urgent"%string)
           "hay was delivered" [0%R; 1%R] 2 "2026-01-01T00:00:00".

Definition row_c : Db.Row :=
  Db.mkRow "c1" "c.md" "knowledge" 0 None
           "the cow gave birth today" [1%R; 0%R] 2 "2026-01-01T00:00:00".

Definition table : Db.Table := Db.mkTable [row_a; row_b; row_c] true.

(** The snapshot of [table]. *)
Definition snapshot : RagIndex :=
  mkRagIndex ["a.md"; "b.md"; "c.md"]%string
             ["journal"; "journal"; "knowledge"]%string
             [0; 0; 0]%Z
             ["normal"; "normal"; "normal"]%string
             ["hay was delivered"; "hay was delivered";
              "the cow gave birth today"]%string
             (Np.mkMatrix [[0%R; 1%R]; [0%R; 1%R]; [1%R; 0%R]] 2).

(** The service up and running on [table]. *)
Definition world : World :=
  mkWorld (mkAppState (Some encoder) (Some snapshot) (Some 0%R))
          (Db.Present table).

(** A row whose blob is one item short of its [dim], followed by a row of
    another [dim]. *)
Definition short_row : Db.Row :=
  Db.mkRow "s1" "s.md" "journal" 0 (Some "normal"%string)
           "short" [1%R] 2 "2026-01-01T00:00:00".

Definition wide_row : Db.Row :=
  Db.mkRow "w1" "w.md" "journal" 0 (Some "normal"%string)
           "wide" [1%R; 0%R; 0%R] 3 "2026-01-01T00:00:00".

Definition short_table : Db.Table := Db.mkTable [short_row; wide_row] true.

(** A table of another model's embeddings, three items wide. *)
Definition wide_table : Db.Table := Db.mkTable [wide_row] true.

(** The service still holding [snapshot] after the file was replaced by
    [wide_table] behind its back. *)
Definition stale_world : World :=
  mkWorld (mkAppState (Some encoder) (Some snapshot) (Some 0%R))
          (Db.Present wide_table).







Definition env : StoreEnv := mkStoreEnv "x1" "2026-01-02T00:00:00" 1%R.

Definition request : StoreRequest :=
  mkStoreRequest "x.md" "journal" 0 "hay was delivered" " High ".

(** The row [store env request] writes, and the table, snapshot and
    world after it. *)
Definition row_x : Db.Row :=
  Db.mkRow "x1" "x.md" "journal" 0 (Some "high"%string)
           "hay was delivered" [0%R; 1%R] 2 "2026-01-02T00:00:00".

Definition table_x : Db.Table := Db.mkTable [row_a; row_b; row_c; row_x] true.

Definition snapshot_x : RagIndex :=
  mkRagIndex ["a.md"; "b.md"; "c.md"; "x.md"]%string
             ["journal"; "journal"; "knowledge"; "journal"]%string
             [0; 0; 0; 0]%Z
             ["normal"; "normal"; "normal"; "high"]%string
             ["hay was delivered"; "hay was delivered";
              "the cow gave birth today"; "hay was delivered"]%string
             (Np.mkMatrix [[0%R; 1%R]; [0%R; 1%R]; [1%R; 0%R]; [0%R; 1%R]] 2).

Definition world_x : World :=
  mkWorld (mkAppState (Some encoder) (Some snapshot_x) (Some 1%R))
          (Db.Present table_x).

(** A second write to the key of [request]. *)
Definition env2 : StoreEnv := mkStoreEnv "x2" "2026-01-03T00:00:00" 2%R.

Definition request2 : StoreRequest :=
  mkStoreRequest "x.md" "journal" 0 "the cow gave birth today" "normal".

(** A store whose fresh id is the id of a row already in the table. *)
Definition clash_env : StoreEnv := mkStoreEnv "a1" "2026-01-02T00:00:00" 1%R.

(** Another embedding model, three items wide, and the service running
    it on the snapshot of [table]. *)
Definition other_model : Encoder := fun _ => Some [1%R; 0%R; 0%R].

Definition world_other_model : World :=
  mkWorld (mkAppState (Some other_model) (Some snapshot) (Some 0%R))
          (Db.Present table).

(** A table whose first two rows hold one and the same embedding: against
    the query "the cow gave birth today" its rows score -1, -1, 0 and 1. *)
Definition row_p : Db.Row :=
  Db.mkRow "p1" "p.md" "journal" 0 (Some "normal"%string)
           "the bull was sold" [(-1)%R; 0%R] 2 "2026-01-01T00:00:00".

Definition row_q : Db.Row :=
  Db.mkRow "q1" "q.md" "knowledge" 0 (Some "normal"%string)
           "the bull was sold" [(-1)%R; 0%R] 2 "2026-01-01T00:00:00".

Definition row_h : Db.Row :=
  Db.mkRow "h1" "h.md" "knowledge" 0 (Some "normal"%string)
           "hay was delivered" [0%R; 1%R] 2 "2026-01-01T00:00:00".

Definition tie_table : Db.Table := Db.mkTable [row_p; row_q; row_h; row_c] true.

Definition tie_snapshot : RagIndex :=
  mkRagIndex ["p.md"; "q.md"; "h.md"; "c.md"]%string
             ["journal"; "knowledge"; "knowledge"; "knowledge"]%string
             [0; 0; 0; 0]%Z
             ["normal"; "normal"; "normal"; "normal"]%string
             ["the bull was sold"; "the bull was sold";
              "hay was delivered"; "the cow gave birth today"]%string
             (Np.mkMatrix [[(-1)%R; 0%R]; [(-1)%R; 0%R]; [0%R; 1%R]; [1%R; 0%R]] 2).

Definition tie_world : World :=
  mkWorld (mkAppState (Some encoder) (Some tie_snapshot) (Some 0%R))
          (Db.Present tie_table).

End Example.

(** ** The ingest script: chunking

    [chunk_text] of [ingest_rag_sqlite.py] (and, word for word, of
    [ingest_rag.py]).  A Python [str] is a sequence of code points;
    the text is a list over any type of characters.  [size] and
    [overlap] are natural numbers, which covers the defaults 900 and
    150, the only values the scripts call it with.  The [while] loop
    takes fuel: [None] is a run that has not returned yet. *)

Module Ingest.

Section Chunks.
Context {A : Type}.

(** [t[i:j]] for [0 <= i] and [0 <= j]. *)
Definition slice (t : list A) (i j : nat) : list A :=
  firstn (j - i) (skipn i t).

(** The loop of [chunk_text], entered at its test [while i<n] with the
    chunks [out] collected so far. *)
Fixpoint chunk_loop (fuel : nat) (t : list A) (size overlap i : nat)
         (out : list (list A)) : option (list (list A)) :=
  match fuel with
  | O => None
  | S fuel' =>
      let n := length t in
      if i <? n then
        let j := Nat.min (i + size) n in
        let out' := out ++ [slice t i j] in
        if j =? n then Some out'
        else chunk_loop fuel' t size overlap (Nat.max 0 (j - overlap)) out'
      else Some out
  end.

Definition chunk_text (fuel : nat) (t : list A) (size overlap : nat)
  : option (list (list A)) :=
  match t with
  | [] => Some []
  | _ => chunk_loop fuel t size overlap 0 []
  end.

(** What the chunks of a text look like: none is empty or longer than
    [size], and all but the last have exactly [size] items. *)
Definition well_sized (size : nat) (chunks : list (list A)) : Prop :=
  Forall (fun c => c <> [] /\ length c <= size) chunks /\
  forall k, S k < length chunks -> length (nth k chunks []) = size.

(** Each chunk starts with the last [overlap] items of the one before. *)
Fixpoint overlapping (overlap : nat) (chunks : list (list A)) : Prop :=
  match chunks with
  | c :: ((c' :: _) as rest) =>
      skipn (length c - overlap) c = firstn overlap c' /\ overlapping overlap rest
  | _ => True
  end.

(** The text the chunks were cut from: the first chunk, then every later
    chunk without its first [overlap] items. *)
Definition reassemble (overlap : nat) (chunks : list (list A)) : list A :=
  match chunks with
  | [] => []
  | c :: rest => c ++ concat (map (skipn overlap) rest)
  end.

End Chunks.

(** *** [normalize]

    The three substitutions are written as one pass each over the
    characters; [strip] is [Py.strip]. *)

Definition CR : ascii := ascii_of_nat 13.
Definition LF : ascii := ascii_of_nat 10.
Definition SP : ascii := ascii_of_nat 32.
Definition TAB : ascii := ascii_of_nat 9.

(** [t.replace("\r\n", "\n")] *)
Fixpoint replace_crlf (l : list ascii) : list ascii :=
  match l with
  | c1 :: l' =>
      match l' with
      | c2 :: l'' =>
          if Ascii.eqb c1 CR && Ascii.eqb c2 LF then LF :: replace_crlf l''
          else c1 :: replace_crlf l'
      | [] => [c1]
      end
  | [] => []
  end.

(** A character of the class [[ \t]]. *)
Definition is_blank (c : ascii) : bool := Ascii.eqb c SP || Ascii.eqb c TAB.

(** [re.sub(r"[ \t]+", " ", t)]: every maximal run of blanks becomes one
    space; [in_run] says that the character before was a blank. *)
Fixpoint collapse_blanks (in_run : bool) (l : list ascii) : list ascii :=
  match l with
  | [] => []
  | c :: l' =>
      if is_blank c
      then if in_run then collapse_blanks true l' else SP :: collapse_blanks true l'
      else c :: collapse_blanks false l'
  end.

(** [re.sub(r"\n{3,}", "\n\n", t)]: of every maximal run of newlines the
    first two stay; [seen] counts the newlines of the run so far. *)
Fixpoint collapse_newlines (seen : nat) (l : list ascii) : list ascii :=
  match l with
  | [] => []
  | c :: l' =>
      if Ascii.eqb c LF
      then if seen <? 2 then LF :: collapse_newlines (S seen) l'
           else collapse_newlines (S seen) l'
      else c :: collapse_newlines 0 l'
  end.

Definition normalize (t : string) : string :=
  Py.strip
    (string_of_list_ascii
       (collapse_newlines 0
          (collapse_blanks false (replace_crlf (list_ascii_of_string t))))).

(** No run of characters of the class [p] reaches length [k]; [cur] is
    the length of the run the list starts in. *)
Fixpoint runs_below (p : ascii -> bool) (k cur : nat) (l : list ascii) : bool :=
  match l with
  | [] => true
  | c :: l' =>
      if p c then (S cur <? k) && runs_below p k (S cur) l'
      else runs_below p k 0 l'
  end.

Definition is_sp (c : ascii) : bool := Ascii.eqb c SP.
Definition is_lf (c : ascii) : bool := Ascii.eqb c LF.

(** *** The table: [main] of [ingest_rag_sqlite.py] *)

(** A file the scan of [SCAN_DIRS] reaches: its path relative to
    [farm_memory], the kind of the directory it is under, the SHA-1 of
    its bytes, what [read_text] returns for it, and the clock when it is
    reached.  [f_text] holds the bytes of the text: [len] and the slices
    of [chunk_text] count characters, so the definitions below are the
    script's on the files whose text is ASCII ([Py.isascii]), and the
    statements about [main] are made of those. *)
Record SourceFile : Type := mkSourceFile {
  f_rel : string;
  f_kind : string;
  f_sha : string;
  f_text : string;
  f_now : string
}.

(** [chunk_text(text)], with the default [size] and [overlap]; one
    round per character is all the loop takes.  (Slices of 900 bytes,
    which are the 900 characters of the script on an ASCII text.) *)
Definition chunks_of (text : string) : list string :=
  let t := list_ascii_of_string text in
  match chunk_text (length t) t 900 150 with
  | Some chunks => map string_of_list_ascii chunks
  | None => []
  end.

(** [f"{rel}::#{idx}::{sha[:8]}"] *)
Definition doc_id (rel : string) (idx : nat) (sha : string) : string :=
  (rel ++ "::#" ++ DecimalString.NilEmpty.string_of_uint (Nat.to_uint idx)
       ++ "::" ++ substring 0 8 sha)%string.

(** The parameters of [executemany]: one row per chunk; [model] is
    [model.encode(..., normalize_embeddings=True)] on one text, [dim] the
    width of the batch.  The [INSERT] names no [priority]: the column,
    where the table has it, takes its default. *)
Definition file_rows (has_priority : bool) (model : string -> list R)
           (f : SourceFile) (chunks : list string) : list Db.Row :=
  let dim := Z.of_nat (length (model (hd ""%string chunks))) in
  map (fun '(idx, ch) =>
         Db.mkRow (doc_id (f_rel f) idx (f_sha f)) (f_rel f) (f_kind f) (Z.of_nat idx)
                  (if has_priority then Some "normal"%string else None)
                  ch (model ch) dim (f_now f))
      (combine (seq 0 (length chunks)) chunks).

(** [DELETE FROM rag_chunks WHERE source_path=?] *)
Definition delete_source (rel : string) (rows : list Db.Row) : list Db.Row :=
  filter (fun r => negb (String.eqb (Db.source_path r) rel)) rows.

(** One [INSERT]: the primary key [id] is checked, and the natural key
    too when the service has created its unique index ([indexed]). *)
Definition insert (indexed : bool) (rows : list Db.Row) (r : Db.Row)
  : result py_exn (list Db.Row) :=
  if existsb (fun r' => String.eqb (Db.id r') (Db.id r)) rows
  then Err SqliteIntegrityError
  else if indexed && existsb (fun r' => Db.key_eqb (Db.key_of r') (Db.key_of r)) rows
  then Err SqliteIntegrityError
  else Ok (rows ++ [r]).

(** [executemany] *)
Fixpoint insert_all (indexed : bool) (rows new : list Db.Row)
  : result py_exn (list Db.Row) :=
  match new with
  | [] => Ok rows
  | r :: new' =>
      rows' <- insert indexed rows r ;;
      insert_all indexed rows' new'
  end.

(** [text = normalize(read_text(p))] *)
Definition text_of (f : SourceFile) : string := normalize (f_text f).

(** The files the loop of [main] passes over: [len(text) < 20], or no
    chunk.  (The length is in bytes here; a text outside ASCII has fewer
    characters than bytes.) *)
Definition skipped (f : SourceFile) : bool :=
  (String.length (text_of f) <? 20) ||
  match chunks_of (text_of f) with [] => true | _ => false end.

(** The body of the loop of [main] for one file. *)
Definition ingest_file (indexed has_priority : bool) (model : string -> list R)
           (rows : list Db.Row) (f : SourceFile) : result py_exn (list Db.Row) :=
  if skipped f then Ok rows
  else insert_all indexed (delete_source (f_rel f) rows)
                  (file_rows has_priority model f (chunks_of (text_of f))).

Fixpoint ingest_files (indexed has_priority : bool) (model : string -> list R)
         (rows : list Db.Row) (files : list SourceFile) : result py_exn (list Db.Row) :=
  match files with
  | [] => Ok rows
  | f :: files' =>
      rows' <- ingest_file indexed has_priority model rows f ;;
      ingest_files indexed has_priority model rows' files'
  end.

(** [main]: one transaction, committed after the last file; an
    exception ends the script before the commit.  Without the table the
    first [DELETE] fails. *)
Definition main (indexed : bool) (model : string -> list R)
           (files : list SourceFile) (d : Db.File) : Db.File * result py_exn unit :=
  match Db._db_connect d with
  | Db.Present t =>
      match ingest_files indexed (Db.has_priority t) model (Db.rows t) files with
      | Ok rows' => (Db.Present (Db.mkTable rows' (Db.has_priority t)), Ok tt)
      | Err e => (Db.Present t, Err e)
      end
  | d0 =>
      if forallb skipped files then (d0, Ok tt)
      else (d0, Err SqliteOperationalError)
  end.

End Ingest.

(** ** A file to ingest *)

Module IngestExample.
Import Ingest.

(** A stub embedding model, two items wide. *)
Definition model : string -> list R := fun _ => [0%R; 1%R].

Definition note : SourceFile :=
  mkSourceFile "journal/n.md" "journal" "0123456789abcdef0123"
               "the hay was delivered on monday" "2026-01-02T00:00:00Z".

(** The row [main] writes for [note], into a table with and without the
    [priority] column. *)
Definition note_row (priority : option string) : Db.Row :=
  Db.mkRow "journal/n.md::#0::01234567" "journal/n.md" "journal" 0 priority
           "the hay was delivered on monday" [0%R; 1%R] 2 "2026-01-02T00:00:00Z".

End IngestExample.

(** ** The query script [rag_query_sqlite.py]

    [main] with its query vector and [topk] as parameters (the script
    fixes the question and [topk = 5]); the result is [scored[:topk]],
    the entries the script prints. *)

Module Cli.
Import Np.

(** One entry of [scored]. *)
Record Scored : Type := mkScored {
  s_score : R;
  s_source_path : string;
  s_kind : string;
  s_chunk_index : Z;
  s_text : string
}.

(** [np.dot] of two one-dimensional arrays. *)
Definition dot1 `{Float32} (u v : vec) : result py_exn R :=
  if length u =? length v then Ok (dot32 u v) else Err ValueError.

(** The loop over [rows]: [from_blob], then the score. *)
Fixpoint score_rows `{Float32} (qv : vec) (rows : list Db.Row) : result py_exn (list Scored) :=
  match rows with
  | [] => Ok []
  | r :: rows' =>
      v <- frombuffer (Db.emb r) (Db.dim r) ;;
      s <- dot1 qv v ;;
      rest <- score_rows qv rows' ;;
      Ok (mkScored s (Db.source_path r) (Db.kind r) (Db.chunk_index r) (Db.text r)
            :: rest)
  end.

(** [scored.sort(key=lambda x: x[0], reverse=True)]: Python's sort is
    stable, also with [reverse=True]; entries of equal score keep their
    order. *)
Fixpoint insert_desc (x : Scored) (l : list Scored) : list Scored :=
  match l with
  | [] => [x]
  | y :: l' =>
      if Rlt_dec (s_score x) (s_score y) then y :: insert_desc x l' else x :: l
  end.

Definition sort_desc (l : list Scored) : list Scored :=
  fold_right insert_desc [] l.

(** The entry of [scored] for a table row: the score is taken against
    the stored embedding as it is. *)
Definition scored_of `{Float32} (qv : vec) (r : Db.Row) : Scored :=
  mkScored (dot32 qv (Snapshot.decoded r)) (Db.source_path r) (Db.kind r)
           (Db.chunk_index r) (Db.text r).

(** A row the loop gets through: its blob holds [dim] items, as many as
    the query vector has. *)
Definition scorable (qv : vec) (r : Db.Row) : bool :=
  Snapshot.decodable r && (length qv =? length (Snapshot.decoded r)).

(** The entries of score [s], in the order of the list. *)
Definition of_score (s : R) (l : list Scored) : list Scored :=
  filter (fun e => if Req_dec_T (s_score e) s then true else false) l.

(** [sqlite3.connect] creates the file; the [SELECT] needs the table. *)
Definition main `{Float32} (qv : vec) (topk : Z) (d : Db.File)
  : Db.File * result py_exn (list Scored) :=
  match Db._db_connect d with
  | Db.Present t =>
      (Db.Present t,
       scored <- score_rows qv (Db.rows t) ;;
       Ok (Py.slice_to (sort_desc scored) topk))
  | d0 => (d0, Err SqliteOperationalError)
  end.

End Cli.

(** * Properties *)

(** ** Lists, indices and Python built-ins *)

Lemma bind_ok {E A B} (m : result E A) (k : A -> result E B) (b : B) :
  bind m k = Ok b -> exists a, m = Ok a /\ k a = Ok b.
Proof.
  destruct m as [a|e]; simpl; intros Hb; [exists a; auto | discriminate].
Qed.

Lemma index_ok {A} (l : list A) (i : nat) (d : A) :
  i < length l -> Py.index l i = Ok (nth i l d).
Proof.
  intros Hi. unfold Py.index.
  destruct (nth_error l i) eqn:E.
  - f_equal. symmetry. now apply nth_error_nth.
  - apply nth_error_None in E. lia.
Qed.

Lemma index_inv {A} (l : list A) (i : nat) (a : A) :
  Py.index l i = Ok a -> nth_error l i = Some a.
Proof.
  unfold Py.index. destruct (nth_error l i); intros Hx; inversion Hx; auto.
Qed.

Lemma take_ok {A} (a : list A) (d : A) (idx : list nat) :
  Forall (fun i => i < length a) idx ->
  Np.take a idx = Ok (map (fun i => nth i a d) idx).
Proof.
  induction 1 as [|i idx Hi _ IH]; simpl; auto.
  rewrite (index_ok a i d Hi). simpl. rewrite IH. reflexivity.
Qed.

Lemma take_inv {A} (a : list A) (d : A) (idx : list nat) (out : list A) :
  Np.take a idx = Ok out ->
  Forall (fun i => i < length a) idx /\ out = map (fun i => nth i a d) idx.
Proof.
  revert out. induction idx as [|i idx IH]; simpl; intros out Ho.
  - inversion Ho. auto.
  - apply bind_ok in Ho. destruct Ho as (x & Hx & Ho).
    apply bind_ok in Ho. destruct Ho as (xs & Hxs & Ho).
    inversion Ho; subst. destruct (IH _ Hxs) as [Hall ->].
    apply index_inv in Hx.
    split.
    + constructor; auto. apply nth_error_Some. congruence.
    + f_equal. symmetry. now apply nth_error_nth.
Qed.

Lemma map_nth_seq {A} (l : list A) (d : A) :
  map (fun i => nth i l d) (seq 0 (length l)) = l.
Proof.
  induction l as [|a l IH]; simpl; auto.
  f_equal. rewrite <- seq_shift, map_map. exact IH.
Qed.

Lemma apply_permutation {A} (l : list A) (d : A) (order : list nat) :
  Permutation order (seq 0 (length l)) ->
  Permutation (map (fun i => nth i l d) order) l.
Proof.
  intros Hp. apply (Permutation_map (fun i => nth i l d)) in Hp.
  now rewrite map_nth_seq in Hp.
Qed.

Lemma perm_seq_bound (p : list nat) (n : nat) :
  Permutation p (seq 0 n) -> Forall (fun i => i < n) p.
Proof.
  intros Hp. apply Forall_forall. intros i Hi.
  apply (Permutation_in _ Hp) in Hi. apply in_seq in Hi. lia.
Qed.

Lemma at_neg (v : Np.vec) (i : nat) : Np.at_ (Np.neg v) i = (- Np.at_ v i)%R.
Proof.
  unfold Np.at_, Np.neg. rewrite <- Ropp_0 at 1. apply map_nth.
Qed.

Lemma length_neg (v : Np.vec) : length (Np.neg v) = length v.
Proof. apply length_map. Qed.

Lemma nth_map_in_range {A B} (f : A -> B) (l : list A) (i : nat) (d : A) (e : B) :
  i < length l -> nth i (map f l) e = f (nth i l d).
Proof.
  intros Hi. rewrite (nth_indep _ e (f d)) by now rewrite length_map.
  apply map_nth.
Qed.

Lemma StronglySorted_opp (l : list R) :
  StronglySorted Rle (map Ropp l) -> StronglySorted Rge l.
Proof.
  induction l as [|a l IH]; simpl; intros Hs; [constructor|].
  apply StronglySorted_inv in Hs. destruct Hs as [Hs Ha].
  constructor; auto.
  rewrite Forall_map in Ha. eapply Forall_impl; [|exact Ha].
  simpl. intros b Hb. lra.
Qed.

Lemma firstn_in_skipn_split {A} (k : nat) (l : list A) (x : A) :
  In x l -> In x (firstn k l) \/ In x (skipn k l).
Proof.
  intros Hx. rewrite <- (firstn_skipn k l) in Hx. now apply in_app_or in Hx.
Qed.

(** ** Selection of the top [k] *)

Lemma in_firstn {A} (k : nat) (l : list A) (x : A) : In x (firstn k l) -> In x l.
Proof.
  intros Hx. rewrite <- (firstn_skipn k l). apply in_or_app. now left.
Qed.

Section TopIndices.
Context `{Np.NumpySort} `{Np.Float32}.
Import Np Service.

(** What [top_indices] returns on a non-empty score array and a positive
    request: the indices of [min(k, n)] best scores, best first. *)
Lemma top_indices_spec (scores : vec) (topk_req : Z) :
  (1 <= topk_req)%Z -> scores <> [] ->
  exists res,
    top_indices scores topk_req = Ok res /\
    length res = Z.to_nat (Z.min topk_req (Z.of_nat (length scores))) /\
    NoDup res /\
    Forall (fun i => i < length scores) res /\
    StronglySorted Rge (map (at_ scores) res) /\
    (forall i j, In i res -> j < length scores -> ~ In j res ->
                 (at_ scores j <= at_ scores i)%R).
Proof.
  intros Hk Hne.
  assert (Hn : 0 < length scores) by (destruct scores; simpl; [congruence | lia]).
  unfold top_indices.
  set (topk := Z.min topk_req (Z.of_nat (length scores))).
  assert (Htopk : (1 <= topk <= Z.of_nat (length scores))%Z) by (unfold topk; lia).
  destruct (argpartition_ok (neg scores) (topk - 1)%Z) as (p & Hp & Hperm & Hpart).
  { rewrite length_neg. lia. }
  rewrite length_neg in Hperm.
  rewrite Hp. simpl.
  assert (Hlenp : length p = length scores).
  { rewrite (Permutation_length Hperm). apply length_seq. }
  set (k := Z.to_nat topk).
  assert (Hslice : Py.slice_to p topk = firstn k p).
  { unfold Py.slice_to. destruct (Z.ltb_spec topk 0); [lia | reflexivity]. }
  rewrite Hslice.
  assert (Hk' : 1 <= k <= length p) by (unfold k; lia).
  assert (Hbound : Forall (fun i => i < length scores) (firstn k p)).
  { apply Forall_forall. intros i Hi. apply in_firstn in Hi.
    pose proof (perm_seq_bound _ _ Hperm) as Hb.
    rewrite Forall_forall in Hb. auto. }
  rewrite (take_ok scores 0%R _ Hbound). simpl.
  set (idx := firstn k p).
  set (sub := map (fun i => nth i scores 0%R) idx).
  assert (Hlenidx : length idx = k) by (unfold idx; apply firstn_length_le; lia).
  assert (Hlensub : length sub = k) by (unfold sub; now rewrite length_map).
  pose proof (argsort_perm (neg sub)) as Hoperm.
  pose proof (argsort_sorted (neg sub)) as Hosorted.
  rewrite length_neg, Hlensub in Hoperm.
  set (order := argsort (neg sub)) in *.
  assert (Hobound : Forall (fun o => o < length idx) order).
  { rewrite Hlenidx. now apply perm_seq_bound. }
  rewrite (take_ok idx 0 _ Hobound).
  eexists. split; [reflexivity|].
  assert (Hres : Permutation (map (fun o => nth o idx 0) order) idx).
  { apply apply_permutation. now rewrite Hlenidx. }
  assert (Hndp : NoDup p).
  { apply (Permutation_NoDup (Permutation_sym Hperm)), seq_NoDup. }
  assert (Hndidx : NoDup idx).
  { unfold idx. rewrite <- (firstn_skipn k p) in Hndp.
    now apply NoDup_app_remove_r in Hndp. }
  repeat split.
  - rewrite length_map, (Permutation_length Hoperm), length_seq. reflexivity.
  - apply (Permutation_NoDup (Permutation_sym Hres) Hndidx).
  - apply Forall_forall. intros i Hi.
    apply (Permutation_in _ Hres) in Hi. rewrite Forall_forall in Hbound. auto.
  - apply StronglySorted_opp.
    rewrite !map_map.
    erewrite map_ext_in; [exact Hosorted|].
    intros o Ho. rewrite at_neg. f_equal.
    rewrite Forall_forall in Hobound. specialize (Hobound _ Ho).
    unfold at_, sub.
    now rewrite (nth_map_in_range (fun i => nth i scores 0%R) idx o 0 0%R).
  - intros i j Hi Hj Hnj.
    apply (Permutation_in _ Hres) in Hi.
    assert (Hjp : In j p).
    { apply (Permutation_in _ (Permutation_sym Hperm)), in_seq. lia. }
    destruct (firstn_in_skipn_split k p j Hjp) as [Hjf|Hjs].
    { exfalso. apply Hnj. apply (Permutation_in _ (Permutation_sym Hres)). exact Hjf. }
    destruct (In_nth _ _ 0 Hi) as (a & Ha & Hai).
    destruct (In_nth _ _ 0 Hjs) as (b & Hb & Hbj).
    rewrite Hlenidx in Ha. rewrite length_skipn in Hb.
    unfold idx in Hai. rewrite nth_firstn in Hai.
    destruct (Nat.ltb_spec a k); [|lia].
    rewrite nth_skipn in Hbj.
    specialize (Hpart a (k + b)).
    rewrite Hai, Hbj, !at_neg in Hpart.
    assert ((- at_ scores i <= - at_ scores j)%R); [|lra].
    apply Hpart; try lia.
Qed.

End TopIndices.

(** ** The index builder *)

Section Builder.
Context `{Np.Float32}.
Import Np Service Snapshot.

Lemma frombuffer_decoded (r : Db.Row) :
  frombuffer (Db.emb r) (Db.dim r) =
  if decodable r then Ok (decoded r) else Err ValueError.
Proof.
  unfold frombuffer, decodable, decoded.
  destruct (Z.ltb_spec (Db.dim r) 0); simpl; auto.
  destruct (Z.ltb_spec (Z.of_nat (length (Db.emb r))) (Db.dim r));
    destruct (Z.leb_spec (Db.dim r) (Z.of_nat (length (Db.emb r)))); auto; lia.
Qed.

Lemma extend_columns (rows : list Db.Row) (acc : Columns) :
  c_source_path (extend acc rows) = c_source_path acc ++ map Db.source_path rows /\
  c_kind (extend acc rows) = c_kind acc ++ map Db.kind rows /\
  c_chunk_index (extend acc rows) = c_chunk_index acc ++ map Db.chunk_index rows /\
  c_priority (extend acc rows) =
    c_priority acc ++ map (fun r => load_priority (Db.priority r)) rows /\
  c_text (extend acc rows) = c_text acc ++ map Db.text rows /\
  c_embs (extend acc rows) = c_embs acc ++ map row_vector rows.
Proof.
  revert acc. induction rows as [|r rows IH]; intros acc; simpl.
  - now rewrite !app_nil_r.
  - destruct (IH (append_row acc r (row_vector r))) as (H1 & H2 & H3 & H4 & H5 & H6).
    unfold extend in *. rewrite H1, H2, H3, H4, H5, H6. simpl.
    now rewrite <- !app_assoc.
Qed.

Lemma load_loop_ok (dim0 : Z) (rows : list Db.Row) (acc : Columns) :
  Forall (loadable dim0) rows ->
  load_loop dim0 rows acc = Ok (extend acc rows).
Proof.
  intros Hall. revert acc.
  induction Hall as [|r rows [Hd Hdec] _ IH]; intros acc; simpl; auto.
  rewrite Hd, Z.eqb_refl. simpl.
  rewrite <- Hd at 1. rewrite frombuffer_decoded, Hdec. simpl.
  apply IH.
Qed.

Lemma load_loop_inv (dim0 : Z) (rows : list Db.Row) (acc cols : Columns) :
  load_loop dim0 rows acc = Ok cols ->
  Forall (loadable dim0) rows /\ cols = extend acc rows.
Proof.
  revert acc. induction rows as [|r rows IH]; intros acc; simpl; intros Hl.
  - inversion Hl. auto.
  - destruct (Z.eqb_spec (Db.dim r) dim0) as [Hd|Hd]; simpl in Hl; [|discriminate].
    rewrite frombuffer_decoded in Hl.
    destruct (decodable r) eqn:Hdec; simpl in Hl; [|discriminate].
    destruct (IH _ Hl) as [Hall ->].
    split; auto. constructor; auto. now split.
Qed.

(** The loop stops at the first row it does not accept: with the
    dimension error when that row's [dim] is off, with numpy's error when
    its blob is too short. *)
Lemma load_loop_stops (dim0 : Z) (pre post : list Db.Row) (r : Db.Row) (acc : Columns) :
  Forall (loadable dim0) pre -> ~ loadable dim0 r ->
  load_loop dim0 (pre ++ r :: post) acc =
  Err (if (Db.dim r =? dim0)%Z then ValueError else InconsistentDim (Db.dim r) dim0).
Proof.
  intros Hpre Hr. revert acc.
  induction Hpre as [|r' pre [Hd Hdec] _ IH]; intros acc; simpl.
  - destruct (Z.eqb_spec (Db.dim r) dim0) as [Hd|Hd]; simpl; auto.
    rewrite frombuffer_decoded.
    destruct (decodable r) eqn:Hdec; simpl; auto.
    exfalso. apply Hr. now split.
  - rewrite Hd, Z.eqb_refl. simpl.
    rewrite <- Hd at 1. rewrite frombuffer_decoded, Hdec. simpl.
    apply IH.
Qed.

Lemma loadable_dec (dim0 : Z) (r : Db.Row) : {loadable dim0 r} + {~ loadable dim0 r}.
Proof.
  unfold loadable.
  destruct (Z.eq_dec (Db.dim r) dim0); destruct (decodable r);
    (left; now split) || (right; intros [? ?]; congruence).
Qed.

(** Every list of rows is accepted whole, or splits at its first
    unacceptable row. *)
Lemma first_unloadable (dim0 : Z) (rows : list Db.Row) :
  Forall (loadable dim0) rows \/
  exists pre r post, rows = pre ++ r :: post /\
                     Forall (loadable dim0) pre /\ ~ loadable dim0 r.
Proof.
  induction rows as [|r rows IH]; [left; constructor|].
  destruct (loadable_dec dim0 r) as [Hr|Hr].
  - destruct IH as [Hall|(pre & r' & post & -> & Hpre & Hr')].
    + left. now constructor.
    + right. exists (r :: pre), r', post. repeat split; auto.
  - right. exists [], r, rows. repeat split; auto.
Qed.

End Builder.

Section BuildIndex.
Context `{Np.Float32}.
Import Np Service Snapshot.

Lemma length_renormalize (v : vec) : length (renormalize v) = length v.
Proof.
  unfold renormalize, scale_div, zeros_like.
  destruct (norm32 v) as [n|]; [|apply length_map].
  destruct (Rlt_dec 0 n); [apply length_map | reflexivity].
Qed.

Lemma length_row_vector (dim0 : Z) (r : Db.Row) :
  loadable dim0 r -> (0 <= dim0)%Z -> length (row_vector r) = Z.to_nat dim0.
Proof.
  intros [Hd Hdec] Hpos. unfold row_vector. rewrite length_renormalize.
  unfold decoded, decodable in *. subst dim0.
  destruct (Z.ltb_spec (Db.dim r) 0); [lia|]. simpl in Hdec.
  apply Z.leb_le in Hdec. apply firstn_length_le. lia.
Qed.

Lemma vstack_inv (vs : list vec) (m : matrix) :
  vstack vs = Ok m ->
  mrows m = vs /\ Forall (fun v => length v = mcols m) vs /\
  exists v rest, vs = v :: rest /\ mcols m = length v.
Proof.
  unfold vstack. destruct vs as [|v rest]; [discriminate|].
  destruct (forallb (fun w => length w =? length v) rest) eqn:Hall; [|discriminate].
  intros Hm. inversion Hm; subst; simpl.
  repeat split; eauto.
  constructor; auto.
  rewrite forallb_forall in Hall. apply Forall_forall.
  intros w Hw. apply Nat.eqb_eq. auto.
Qed.

Lemma vstack_ok (v : vec) (rest : list vec) :
  Forall (fun w => length w = length v) rest ->
  vstack (v :: rest) = Ok (mkMatrix (v :: rest) (length v)).
Proof.
  intros Hall. unfold vstack.
  replace (forallb (fun w => length w =? length v) rest) with true; auto.
  symmetry. apply forallb_forall. intros w Hw.
  rewrite Forall_forall in Hall. apply Nat.eqb_eq. auto.
Qed.

(** What a successful build says about the rows it read and the snapshot
    it returns. *)
Lemma build_index_inv (rows : list Db.Row) (ix : RagIndex) :
  build_index rows = Ok ix ->
  (exists r0 rest, rows = r0 :: rest /\
                   Forall (loadable (Db.dim r0)) rows /\
                   shape1 (emb_matrix ix) = length (row_vector r0)) /\
  snapshot_of rows ix /\ aligned ix.
Proof.
  unfold build_index. destruct rows as [|r0 rest]; [discriminate|].
  intros Hb.
  apply bind_ok in Hb. destruct Hb as (cols & Hloop & Hb).
  apply bind_ok in Hb. destruct Hb as (m & Hstack & Hb).
  inversion Hb; subst ix; clear Hb.
  apply load_loop_inv in Hloop. destruct Hloop as [Hall Hcols].
  destruct (extend_columns (r0 :: rest) no_columns) as (H1 & H2 & H3 & H4 & H5 & H6).
  rewrite <- Hcols in *. clear Hcols.
  simpl app in *.
  rewrite H6 in Hstack.
  apply vstack_inv in Hstack.
  destruct Hstack as (Hrows & Hrect & v & vs & Hv & Hcols).
  simpl in Hv. inversion Hv; subst v vs. clear Hv.
  split; [|split].
  - exists r0, rest. repeat split; auto.
  - unfold snapshot_of. simpl. rewrite H1, H2, H3, H4, H5, Hrows. repeat split.
  - unfold aligned, shape0, shape1. simpl.
    rewrite H1, H2, H3, H4, H5, Hrows. simpl. rewrite !length_map.
    repeat split; auto.
Qed.

(** A non-empty table whose rows all carry the same non-negative [dim]
    and readable blobs always builds. *)
Lemma build_index_ok (r0 : Db.Row) (rest : list Db.Row) :
  (0 <= Db.dim r0)%Z -> Forall (loadable (Db.dim r0)) (r0 :: rest) ->
  exists ix, build_index (r0 :: rest) = Ok ix.
Proof.
  intros Hpos Hall. unfold build_index.
  rewrite (load_loop_ok _ _ _ Hall).
  destruct (extend_columns (r0 :: rest) no_columns) as (_ & _ & _ & _ & _ & H6).
  remember (extend no_columns (r0 :: rest)) as cols.
  simpl in H6. cbn [bind]. rewrite H6.
  rewrite vstack_ok; cbn [bind]; eauto.
  apply Forall_forall. intros w Hw. apply in_map_iff in Hw.
  destruct Hw as (r & <- & Hr).
  inversion Hall as [|? ? H0 Hrest]; subst.
  rewrite Forall_forall in Hrest.
  rewrite (length_row_vector _ _ (Hrest _ Hr) Hpos).
  now rewrite (length_row_vector _ _ H0 Hpos).
Qed.

(** Two rows that disagree on [dim]: the build fails. *)
Lemma build_index_mixed (rows : list Db.Row) (r1 r2 : Db.Row) :
  In r1 rows -> In r2 rows -> Db.dim r1 <> Db.dim r2 ->
  exists e, build_index rows = Err e.
Proof.
  intros H1 H2 Hne. unfold build_index.
  destruct rows as [|r0 rest]; [destruct H1|].
  destruct (first_unloadable (Db.dim r0) (r0 :: rest))
    as [Hall|(pre & r & post & Heq & Hpre & Hr)].
  - exfalso. rewrite Forall_forall in Hall.
    destruct (Hall _ H1) as [E1 _]. destruct (Hall _ H2) as [E2 _]. congruence.
  - rewrite Heq, (load_loop_stops _ _ post _ no_columns Hpre Hr). simpl. eauto.
Qed.

End BuildIndex.

(** ** Masks and index arrays *)

Section Masks.
Context `{Np.Float32}.
Import Np Service Snapshot.

Lemma compress_incl {A} (mask : list bool) (l : list A) (x : A) :
  In x (compress mask l) -> In x l.
Proof.
  revert l. induction mask as [|b mask IH]; intros l Hin; simpl in Hin; [destruct Hin|].
  destruct l as [|a l]; [destruct Hin|].
  destruct b; [destruct Hin as [->|Hin]|]; simpl; auto.
Qed.

Lemma compress_map_seq {A} (mask : list bool) (l : list A) (d : A) (s : nat) :
  length mask = length l ->
  compress mask l = map (fun i => nth (i - s) l d) (compress mask (seq s (length mask))).
Proof.
  revert l s. induction mask as [|b mask IH]; intros l s Hlen; [reflexivity|].
  destruct l as [|a l]; [discriminate|]. simpl in Hlen.
  assert (Hl : length mask = length l) by lia.
  assert (Hshift : map (fun i => nth (i - s) (a :: l) d) (compress mask (seq (S s) (length mask)))
                   = map (fun i => nth (i - S s) l d) (compress mask (seq (S s) (length mask)))).
  { apply map_ext_in. intros i Hi.
    apply compress_incl, in_seq in Hi.
    replace (i - s) with (S (i - S s)) by lia. reflexivity. }
  cbn [length seq compress].
  destruct b; cbn [map].
  - rewrite Hshift, Nat.sub_diag. cbn [nth]. f_equal. now apply IH.
  - rewrite Hshift. now apply IH.
Qed.

(** Masking the rows is the same as reading them at the indices where the
    mask holds. *)
Lemma compress_flatnonzero {A} (mask : list bool) (l : list A) (d : A) :
  length mask = length l ->
  compress mask l = map (fun i => nth i l d) (flatnonzero mask).
Proof.
  intros Hlen. unfold flatnonzero. rewrite (compress_map_seq mask l d 0 Hlen).
  apply map_ext. intros i. now rewrite Nat.sub_0_r.
Qed.

Lemma compress_seq_spec (mask : list bool) (s i : nat) :
  In i (compress mask (seq s (length mask))) <->
  s <= i < s + length mask /\ nth (i - s) mask false = true.
Proof.
  revert s. induction mask as [|b mask IH]; intros s; simpl.
  - split; [tauto | lia].
  - destruct b; simpl; rewrite ?IH.
    + split.
      * intros [<-|[Hr Hn]].
        -- rewrite Nat.sub_diag. split; [lia | reflexivity].
        -- split; [lia|]. replace (i - s) with (S (i - S s)) by lia. exact Hn.
      * intros [Hr Hn]. destruct (Nat.eq_dec s i) as [->|Hne]; [now left|right].
        split; [lia|]. replace (i - s) with (S (i - S s)) in Hn by lia. exact Hn.
    + split.
      * intros [Hr Hn]. split; [lia|].
        replace (i - s) with (S (i - S s)) by lia. exact Hn.
      * intros [Hr Hn]. destruct (Nat.eq_dec s i) as [->|Hne].
        -- rewrite Nat.sub_diag in Hn. discriminate.
        -- split; [lia|]. replace (i - s) with (S (i - S s)) in Hn by lia. exact Hn.
Qed.

Lemma flatnonzero_spec (mask : list bool) (i : nat) :
  In i (flatnonzero mask) <-> i < length mask /\ nth i mask false = true.
Proof.
  unfold flatnonzero. rewrite compress_seq_spec, Nat.sub_0_r. simpl. intuition lia.
Qed.

Lemma compress_NoDup {A} (mask : list bool) (l : list A) :
  NoDup l -> NoDup (compress mask l).
Proof.
  intros Hnd. revert mask. induction Hnd as [|a l Ha _ IH]; intros mask.
  - destruct mask; constructor.
  - destruct mask as [|b mask]; simpl; [constructor|].
    destruct b; auto. constructor; auto.
    intros Hin. apply Ha. eapply compress_incl; eauto.
Qed.

Lemma flatnonzero_NoDup (mask : list bool) : NoDup (flatnonzero mask).
Proof. apply compress_NoDup, seq_NoDup. Qed.

Lemma length_compress {A B} (mask : list bool) (l : list A) (l' : list B) :
  length l = length l' -> length (compress mask l) = length (compress mask l').
Proof.
  revert l l'. induction mask as [|b mask IH]; intros l l' Hlen; simpl; auto.
  destruct l, l'; simpl in *; try discriminate; auto.
  destruct b; simpl; auto.
Qed.

Lemma length_compress_filter {A} (f : A -> bool) (l : list A) (s : nat) :
  length (compress (map f l) (seq s (length (map f l)))) = length (filter f l).
Proof.
  revert s. induction l as [|a l IH]; intros s; simpl; auto.
  destruct (f a); simpl; rewrite IH; reflexivity.
Qed.

Lemma flatnonzero_all (n : nat) (mask : list bool) :
  length mask = n -> Forall (fun b => b = true) mask -> flatnonzero mask = seq 0 n.
Proof.
  unfold flatnonzero. intros <- Hall. generalize 0.
  induction Hall as [|b mask -> _ IH]; intros s; simpl; auto.
  now rewrite IH.
Qed.

Lemma any_true (mask : list bool) :
  any mask = true <-> exists i, In i (flatnonzero mask).
Proof.
  unfold any. rewrite existsb_exists. split.
  - intros (b & Hb & ->). destruct (In_nth _ _ false Hb) as (i & Hi & Hn).
    exists i. apply flatnonzero_spec. auto.
  - intros (i & Hi). apply flatnonzero_spec in Hi. destruct Hi as [Hi Hn].
    exists true. split; auto. rewrite <- Hn. now apply nth_In.
Qed.

End Masks.

(** ** The search *)

Section Search.
Context `{Np.NumpySort} `{Np.Float32}.
Import Np Service Snapshot.

Lemma assemble_ok (ix : RagIndex) (scores : vec) (idxs : list nat) (pre : vec) :
  aligned ix ->
  Forall (fun i => i < shape0 (emb_matrix ix)) idxs ->
  assemble ix (pre ++ map (at_ scores) idxs) (length pre) idxs =
  Ok (map (chunk_at ix scores) idxs).
Proof.
  intros (Hsp & Hk & Hci & Hpr & Ht & _) Hall. revert pre.
  induction Hall as [|i idxs Hi _ IH]; intros pre; [reflexivity|].
  cbn [assemble map].
  unfold Py.index at 1.
  rewrite nth_error_app2, Nat.sub_diag by lia. cbn [nth_error bind].
  rewrite (index_ok (ix_source_path ix) i ""%string) by lia.
  rewrite (index_ok (ix_kind ix) i ""%string) by lia.
  rewrite (index_ok (ix_chunk_index ix) i 0%Z) by lia.
  rewrite (index_ok (ix_priority ix) i ""%string) by lia.
  rewrite (index_ok (ix_text ix) i ""%string) by lia.
  cbn [bind].
  specialize (IH (pre ++ [at_ scores i])).
  rewrite <- app_assoc, length_app in IH. simpl in IH.
  rewrite Nat.add_1_r in IH. rewrite IH. reflexivity.
Qed.

(** The kind filter [retrieve] applies: [Some k] for a non-empty [q.kind]. *)
Lemma candidates_unfiltered (ix : RagIndex) (kf : option string) :
  (match kf with Some k => Py.truthy k = false | None => True end) ->
  candidates ix kf = seq 0 (length (ix_kind ix)).
Proof.
  intros Hkf. unfold candidates. apply flatnonzero_all.
  - apply length_map.
  - apply Forall_forall. intros b Hb. apply in_map_iff in Hb.
    destruct Hb as (k & <- & _). unfold is_candidate.
    destruct kf as [k'|]; auto. now rewrite Hkf.
Qed.

Lemma candidate_count_length (ix : RagIndex) (kf : option string) :
  candidate_count ix kf = length (candidates ix kf).
Proof.
  unfold candidate_count, candidates, flatnonzero.
  symmetry. apply length_compress_filter.
Qed.

(** What [search] returns on an aligned, non-empty snapshot for a query
    vector of the snapshot's dimension and a positive [topk]: the chunks
    of [min(topk, #candidates)] distinct candidate rows, best score first,
    none of the candidates left out scoring higher than one returned. *)
Lemma search_spec (ix : RagIndex) (qv : vec) (topk_req : Z) (kf : option string) :
  aligned ix -> mrows (emb_matrix ix) <> [] ->
  shape1 (emb_matrix ix) = length qv -> (1 <= topk_req)%Z ->
  exists idxs,
    search ix qv topk_req kf = Ok (map (chunk_at ix (all_scores ix qv)) idxs) /\
    length idxs = Nat.min (Z.to_nat topk_req) (candidate_count ix kf) /\
    NoDup idxs /\ incl idxs (candidates ix kf) /\
    descending (map (at_ (all_scores ix qv)) idxs) /\
    (forall i j, In i idxs -> In j (candidates ix kf) -> ~ In j idxs ->
                 (at_ (all_scores ix qv) j <= at_ (all_scores ix qv) i)%R).
Proof.
  intros Hal Hne Hdim Hk.
  pose proof Hal as (Hsp & Hkind & Hci & Hpr & Ht & Hrect).
  unfold shape0, shape1 in *.
  set (scores := all_scores ix qv).
  assert (Hlens : length scores = length (mrows (emb_matrix ix))).
  { unfold scores, all_scores. apply length_map. }
  unfold search.
  destruct (match kf with Some k => if Py.truthy k then Some k else None | None => None end)
    as [k|] eqn:Hfilter.
  - (* a kind filter is in force *)
    assert (Hkf : kf = Some k /\ Py.truthy k = true).
    { destruct kf as [k'|]; [|discriminate].
      destruct (Py.truthy k') eqn:Ht'; inversion Hfilter; subst; auto. }
    destruct Hkf as [-> Htruthy].
    set (mask := map (fun k' => String.eqb k' k) (ix_kind ix)).
    assert (Hcand : candidates ix (Some k) = flatnonzero mask).
    { unfold candidates, mask. f_equal. apply map_ext. intros k'.
      unfold is_candidate. now rewrite Htruthy. }
    assert (Hlenmask : length mask = length (mrows (emb_matrix ix))).
    { unfold mask. rewrite length_map. exact Hkind. }
    rewrite candidate_count_length, Hcand.
    destruct (any mask) eqn:Hany; cbn [negb].
    + (* some row has the kind *)
      unfold mask_rows. rewrite Hlenmask, Nat.eqb_refl. cbn [bind].
      unfold matvec. cbn [mcols mrows]. rewrite Hdim, Nat.eqb_refl. cbn [bind].
      set (cand := flatnonzero mask).
      set (sl := map (fun r => dot32 r qv) (compress mask (mrows (emb_matrix ix)))).
      assert (Hsl : sl = map (at_ scores) cand).
      { unfold sl. rewrite (@compress_flatnonzero vec mask _ [] Hlenmask), map_map.
        apply map_ext_in. intros g Hg. apply flatnonzero_spec in Hg.
        unfold at_, scores, all_scores. symmetry.
        apply (nth_map_in_range (fun r => dot32 r qv)). lia. }
      assert (Hlensl : length sl = length cand) by (rewrite Hsl; apply length_map).
      assert (Hslne : sl <> []).
      { apply any_true in Hany. destruct Hany as (i & Hi). fold cand in Hi.
        intros E. rewrite E in Hlensl. destruct cand; [destruct Hi | discriminate]. }
      destruct (top_indices_spec sl topk_req Hk Hslne)
        as (loc & Hloc & Hlen & Hnd & Hbound & Hsorted & Hmax).
      rewrite Hloc. cbn [bind].
      rewrite Hlensl in Hbound.
      rewrite (take_ok cand 0 _ Hbound). cbn [bind].
      rewrite <- Hlensl in Hbound.
      rewrite (take_ok sl 0%R _ Hbound). cbn [bind].
      rewrite Hlensl in Hbound.
      set (g := fun l => nth l cand 0).
      assert (Hss : map (fun i => nth i sl 0%R) loc = map (at_ scores) (map g loc)).
      { rewrite map_map. apply map_ext_in. intros l Hl.
        rewrite Forall_forall in Hbound. specialize (Hbound _ Hl).
        rewrite Hsl. apply (nth_map_in_range (at_ scores)). exact Hbound. }
      rewrite Hss.
      assert (Hgin : forall l, In l loc -> In (g l) cand).
      { intros l Hl. rewrite Forall_forall in Hbound. apply nth_In. auto. }
      exists (map g loc). split; [|repeat split].
      * apply (assemble_ok ix scores (map g loc) []); auto.
        apply Forall_forall. intros i Hi. apply in_map_iff in Hi.
        destruct Hi as (l & <- & Hl). apply Hgin, flatnonzero_spec in Hl.
        unfold shape0. lia.
      * rewrite length_map, Hlen, Hlensl. lia.
      * apply NoDup_map_NoDup_ForallPairs; auto.
        intros a b Ha Hb Hab. rewrite Forall_forall in Hbound.
        apply (NoDup_nth cand 0); auto. apply flatnonzero_NoDup.
      * intros i Hi. apply in_map_iff in Hi. destruct Hi as (l & <- & Hl). auto.
      * unfold descending. rewrite <- Hss. exact Hsorted.
      * intros i j Hi Hj Hnj. apply in_map_iff in Hi. destruct Hi as (a & <- & Ha).
        destruct (In_nth _ _ 0 Hj) as (b & Hb & Hgb). fold (g b) in Hgb. subst j.
        assert (Hnb : ~ In b loc) by (intros Hb'; apply Hnj, in_map; exact Hb').
        rewrite <- Hlensl in Hb. specialize (Hmax a b Ha Hb Hnb).
        rewrite Forall_forall in Hbound. specialize (Hbound _ Ha).
        unfold at_ in Hmax. rewrite Hsl in Hmax.
        rewrite (nth_map_in_range (at_ scores) cand b 0 0%R) in Hmax by lia.
        rewrite (nth_map_in_range (at_ scores) cand a 0 0%R) in Hmax by lia.
        exact Hmax.
    + (* no row has the kind: [return []] *)
      assert (Hempty : flatnonzero mask = []).
      { destruct (flatnonzero mask) as [|i l] eqn:E; auto.
        assert (any mask = true); [|congruence].
        apply any_true. exists i. rewrite E. now left. }
      rewrite Hempty. exists []. simpl. rewrite Nat.min_0_r.
      split; [reflexivity|]. split; [reflexivity|]. split; [constructor|].
      split; [intros x Hx; destruct Hx|]. split; [constructor|].
      intros x y Hx. destruct Hx.
  - (* no kind filter *)
    assert (Hkf : match kf with Some k => Py.truthy k = false | None => True end).
    { destruct kf as [k'|]; auto. destruct (Py.truthy k'); [discriminate | auto]. }
    rewrite candidate_count_length, (candidates_unfiltered ix kf Hkf), length_seq.
    unfold matvec. rewrite Hdim, Nat.eqb_refl. cbn [bind].
    fold (all_scores ix qv). fold scores.
    assert (Hsne : scores <> []).
    { intros E. rewrite E in Hlens. destruct (mrows (emb_matrix ix)); [auto | discriminate]. }
    destruct (top_indices_spec scores topk_req Hk Hsne)
      as (res & Hres & Hlen & Hnd & Hbound & Hsorted & Hmax).
    rewrite Hres. cbn [bind].
    rewrite (take_ok scores 0%R _ Hbound). cbn [bind].
    exists res. split; [|repeat split]; auto.
    + apply (assemble_ok ix scores res []); auto.
      unfold shape0. now rewrite <- Hlens.
    + rewrite Hlen, Hlens, Hkind. lia.
    + intros i Hi. rewrite Forall_forall in Hbound. apply in_seq.
      specialize (Hbound _ Hi). lia.
    + intros i j Hi Hj Hnj. apply Hmax; auto. apply in_seq in Hj. lia.
Qed.

End Search.

(** ** Schema migration and loading *)

Section Loading.
Context `{Np.Float32}.
Import Np Service Snapshot.

Lemma key_of_set_priority (p : option string) (r : Db.Row) :
  Db.key_of (Db.set_priority p r) = Db.key_of r.
Proof. reflexivity. Qed.

Lemma key_clash_set_priority (p : option string) (k : Db.key) (rows : list Db.Row) :
  existsb (fun r' => Db.key_eqb k (Db.key_of r')) (map (Db.set_priority p) rows) =
  existsb (fun r' => Db.key_eqb k (Db.key_of r')) rows.
Proof.
  induction rows as [|r rows IH]; simpl; auto.
  rewrite IH. reflexivity.
Qed.

Lemma unique_keys_set_priority (p : option string) (rows : list Db.Row) :
  Db.unique_keys (map (Db.set_priority p) rows) = Db.unique_keys rows.
Proof.
  induction rows as [|r rows IH]; auto.
  cbn [map Db.unique_keys].
  now rewrite IH, key_clash_set_priority, key_of_set_priority.
Qed.

Lemma ensure_schema_inv (d : Db.File) (t' : Db.Table) :
  Db._ensure_schema d = Ok t' ->
  exists t, d = Db.Present t /\ Db.unique_keys (Db.rows t) = true /\
            t' = Db.mkTable (migrated t) true.
Proof.
  unfold Db._ensure_schema, migrated. destruct d as [| |t]; try discriminate.
  destruct (Db.unique_keys (Db.rows t)) eqn:Hu; [|discriminate].
  destruct t as [rows hp]. simpl in *.
  destruct hp; intros Ht; inversion Ht; subst; eauto.
Qed.

(** Running the migration again changes nothing. *)
Lemma ensure_schema_idem (d : Db.File) (t' : Db.Table) :
  Db._ensure_schema d = Ok t' -> Db._ensure_schema (Db.Present t') = Ok t'.
Proof.
  intros Ht. apply ensure_schema_inv in Ht.
  destruct Ht as (t & -> & Hu & ->). unfold migrated. simpl.
  destruct (Db.has_priority t).
  - now rewrite Hu.
  - now rewrite unique_keys_set_priority, Hu.
Qed.

Lemma load_inv (d d' : Db.File) (ix : RagIndex) :
  _load_index_from_db d = (d', Ok ix) ->
  exists t, Db._ensure_schema d = Ok t /\ d' = Db.Present t /\
            build_index (Db.rows t) = Ok ix.
Proof.
  unfold _load_index_from_db.
  destruct d as [| |t0]; cbn [Db.exists_ negb Db._db_connect].
  - intros Hx. inversion Hx.
  - simpl. intros Hx. inversion Hx.
  - destruct (Db._ensure_schema (Db.Present t0)) as [t|e] eqn:Ht.
    + intros Hx. inversion Hx; subst. eauto.
    + intros Hx. inversion Hx.
Qed.

Lemma load_ok (d : Db.File) (t : Db.Table) :
  Db._ensure_schema d = Ok t ->
  _load_index_from_db d = (Db.Present t, build_index (Db.rows t)).
Proof.
  intros Ht. unfold _load_index_from_db.
  destruct d as [| |t0]; try discriminate. simpl in *. now rewrite Ht.
Qed.

(** The world of the file after a load, whatever its outcome. *)
Lemma load_file (d : Db.File) :
  fst (_load_index_from_db d) =
  match Db._ensure_schema d with Ok t => Db.Present t | Err _ => d end.
Proof.
  unfold _load_index_from_db.
  destruct d as [| |t0]; simpl; auto.
  destruct (Db.unique_keys (Db.rows t0)); simpl; auto.
  destruct (Db.has_priority t0); auto.
Qed.

(** A snapshot the service holds is the aligned image of a non-empty
    list of table rows. *)
Lemma built_inv (ix : RagIndex) :
  built ix ->
  exists rows, rows <> [] /\ snapshot_of rows ix /\ aligned ix /\
               mrows (emb_matrix ix) <> [].
Proof.
  intros (d & Hd).
  destruct (_load_index_from_db d) as [d' r] eqn:Hload. simpl in Hd. subst r.
  apply load_inv in Hload. destruct Hload as (t & _ & _ & Hb).
  apply build_index_inv in Hb.
  destruct Hb as ((r0 & rest & Hrows & _ & _) & Hsnap & Hal).
  exists (Db.rows t).
  split; [rewrite Hrows; discriminate|].
  split; [exact Hsnap|]. split; [exact Hal|].
  destruct Hsnap as (_ & _ & _ & _ & _ & Hm). rewrite Hm, Hrows. discriminate.
Qed.

End Loading.

(** ** The reference sorting routines meet the contract *)

Section Reference.
Import Np.

Lemma insert_index_perm (v : vec) (i : nat) (l : list nat) :
  Permutation (NpRef.insert_index v i l) (i :: l).
Proof.
  induction l as [|y l IH]; simpl; auto.
  destruct (Rlt_dec (at_ v i) (at_ v y)); auto.
  eapply perm_trans; [apply perm_skip, IH | apply perm_swap].
Qed.

Lemma insert_index_sorted (v : vec) (i : nat) (l : list nat) :
  StronglySorted Rle (map (at_ v) l) ->
  StronglySorted Rle (map (at_ v) (NpRef.insert_index v i l)).
Proof.
  induction l as [|y l IH]; simpl; intros Hs.
  - repeat constructor.
  - apply StronglySorted_inv in Hs. destruct Hs as [Hs Hy].
    destruct (Rlt_dec (at_ v i) (at_ v y)) as [Hlt|Hge]; simpl.
    + constructor; [constructor; auto|].
      constructor; [lra|].
      eapply Forall_impl; [|exact Hy]. simpl. intros a Ha. lra.
    + constructor; auto.
      rewrite Forall_map. apply Forall_forall. intros x Hx.
      apply (Permutation_in _ (insert_index_perm v i l)) in Hx.
      destruct Hx as [<-|Hx]; [lra|].
      rewrite Forall_map, Forall_forall in Hy. auto.
Qed.

Lemma fold_insert_spec (v : vec) (l acc : list nat) :
  StronglySorted Rle (map (at_ v) acc) ->
  Permutation (fold_left (fun a i => NpRef.insert_index v i a) l acc) (acc ++ l) /\
  StronglySorted Rle (map (at_ v) (fold_left (fun a i => NpRef.insert_index v i a) l acc)).
Proof.
  revert acc. induction l as [|i l IH]; intros acc Hs; simpl.
  - rewrite app_nil_r. auto.
  - destruct (IH (NpRef.insert_index v i acc) (insert_index_sorted v i acc Hs)) as [Hp Hs'].
    split; auto.
    eapply perm_trans; [exact Hp|].
    eapply perm_trans; [apply Permutation_app_tail, insert_index_perm|].
    simpl. apply Permutation_middle.
Qed.

Lemma ref_argsort_perm (v : vec) : Permutation (NpRef.argsort v) (seq 0 (length v)).
Proof. apply (fold_insert_spec v (seq 0 (length v)) []). constructor. Qed.

Lemma ref_argsort_sorted (v : vec) : StronglySorted Rle (map (at_ v) (NpRef.argsort v)).
Proof. apply (fold_insert_spec v (seq 0 (length v)) []). constructor. Qed.

(** One scan: the minimum found is below the running minimum and below
    everything left behind; when nothing is found the running minimum is
    a lower bound. *)
Lemma scan_min_spec (v : vec) (x : nat) (rest : list nat) (minval : R) :
  (minval <= at_ v x)%R ->
  match NpRef.scan_min v x minval rest with
  | None => Forall (fun y => (minval <= at_ v y)%R) rest
  | Some (rest', m) =>
      (at_ v m < minval)%R /\ Permutation (m :: rest') (x :: rest) /\
      Forall (fun y => (at_ v m <= at_ v y)%R) rest'
  end.
Proof.
  revert minval. induction rest as [|y ys IH]; intros minval Hx; simpl; [constructor|].
  destruct (Rlt_dec (at_ v y) minval) as [Hlt|Hge].
  - assert (Hx' : (at_ v y <= at_ v x)%R) by lra.
    specialize (IH (at_ v y) Hx').
    destruct (NpRef.scan_min v x (at_ v y) ys) as [[ys' m]|].
    + destruct IH as (Hm & Hp & Hall). split; [lra|]. split.
      * eapply perm_trans; [apply perm_swap|].
        eapply perm_trans; [apply perm_skip, Hp|]. apply perm_swap.
      * constructor; [lra | exact Hall].
    + split; [exact Hlt|]. split; [apply perm_swap|].
      constructor; [exact Hx' | exact IH].
  - specialize (IH minval Hx).
    destruct (NpRef.scan_min v x minval ys) as [[ys' m]|].
    + destruct IH as (Hm & Hp & Hall). split; [exact Hm|]. split.
      * eapply perm_trans; [apply perm_swap|].
        eapply perm_trans; [apply perm_skip, Hp|]. apply perm_swap.
      * constructor; [lra | exact Hall].
    + constructor; [lra | exact IH].
Qed.

(** After [steps] rounds the first [steps] positions hold keys that are
    no larger than anything behind them. *)
Lemma dumb_select_spec (v : vec) (steps : nat) (l : list nat) :
  Permutation (NpRef.dumb_select v steps l) l /\
  forall i j, i < steps -> i <= j -> j < length l ->
    (at_ v (nth i (NpRef.dumb_select v steps l) 0%nat) <=
     at_ v (nth j (NpRef.dumb_select v steps l) 0%nat))%R.
Proof.
  revert l. induction steps as [|n IH]; intros l.
  - split; [destruct l; apply Permutation_refl | intros; lia].
  - destruct l as [|x rest]; [split; [constructor | simpl; intros; lia]|].
    cbn [NpRef.dumb_select].
    pose proof (scan_min_spec v x rest (at_ v x) (Rle_refl _)) as Hscan.
    destruct (NpRef.scan_min v x (at_ v x) rest) as [[rest' m]|].
    + destruct Hscan as (Hm & Hp & Hall).
      destruct (IH rest') as [Hp' Hord].
      assert (Hlen : length rest' = length rest).
      { apply Permutation_length in Hp. simpl in Hp. lia. }
      split.
      * eapply perm_trans; [apply perm_skip, Hp' | exact Hp].
      * intros i j Hi Hij Hj. simpl in Hj.
        destruct j as [|j]; [replace i with 0 by lia; simpl; lra|].
        destruct i as [|i]; simpl.
        -- rewrite Forall_forall in Hall. apply Hall.
           apply (Permutation_in _ Hp'). apply nth_In.
           rewrite (Permutation_length Hp'). lia.
        -- apply Hord; lia.
    + destruct (IH rest) as [Hp' Hord].
      split; [now apply perm_skip|].
      intros i j Hi Hij Hj. simpl in Hj.
      destruct j as [|j]; [replace i with 0 by lia; simpl; lra|].
      destruct i as [|i]; simpl.
      * rewrite Forall_forall in Hscan. apply Hscan.
        apply (Permutation_in _ Hp'). apply nth_In.
        rewrite (Permutation_length Hp'). lia.
      * apply Hord; lia.
Qed.

Lemma ref_argpartition_ok (v : vec) (kth : Z) :
  (0 <= kth < Z.of_nat (length v))%Z ->
  exists p, NpRef.argpartition v kth = Ok p /\
    Permutation p (seq 0 (length v)) /\
    forall i j, i < length p -> j < length p ->
      (i <= Z.to_nat kth <= j) ->
      (at_ v (nth i p 0%nat) <= at_ v (nth j p 0%nat))%R.
Proof.
  intros Hk. unfold NpRef.argpartition.
  destruct (Z.ltb_spec kth 0); [lia|].
  destruct (Z.ltb_spec kth 0); [lia|].
  destruct (Z.leb_spec (Z.of_nat (length v)) kth); [lia|]. simpl.
  destruct (dumb_select_spec v (S (Z.to_nat kth)) (seq 0 (length v))) as [Hp Hord].
  exists (NpRef.dumb_select v (S (Z.to_nat kth)) (seq 0 (length v))).
  split; [reflexivity|]. split; [exact Hp|].
  intros i j Hi Hj Hij. apply Hord; try lia.
  rewrite (Permutation_length Hp) in Hj. exact Hj.
Qed.

End Reference.

(** The reference routines as an implementation of the interface. *)
#[global] Instance ref_numpy : Np.NumpySort := {|
  Np.argsort := NpRef.argsort;
  Np.argpartition := NpRef.argpartition;
  Np.argsort_perm := ref_argsort_perm;
  Np.argsort_sorted := ref_argsort_sorted;
  Np.argpartition_ok := ref_argpartition_ok
|}.

(** ** Vectors over the reals *)

Section Vectors.
Import Np Service Snapshot.
Local Open Scope R_scope.

Lemma dot_nil_r (u : vec) : dot u [] = 0.
Proof. destruct u; reflexivity. Qed.

Lemma dot_comm (u v : vec) : dot u v = dot v u.
Proof.
  revert v. induction u as [|a u IH]; intros v; simpl.
  - now rewrite dot_nil_r.
  - destruct v as [|b v]; simpl; auto. rewrite IH. lra.
Qed.

Lemma dot_self_nonneg (v : vec) : 0 <= dot v v.
Proof.
  induction v as [|a v IH]; simpl; [lra|].
  pose proof (Rle_0_sqr a) as Ha. unfold Rsqr in Ha. lra.
Qed.

Lemma norm_nonneg (v : vec) : 0 <= norm v.
Proof. apply sqrt_pos. Qed.

Lemma norm_sqr (v : vec) : norm v * norm v = dot v v.
Proof. apply sqrt_sqrt, dot_self_nonneg. Qed.


Lemma dot_zero_l (v q : vec) : Forall (fun x => x = 0) v -> dot v q = 0.
Proof.
  intros Hz. revert q. induction Hz as [|a v -> _ IH]; intros q; simpl; auto.
  destruct q as [|b q]; auto. rewrite IH. lra.
Qed.



Lemma unit_dot_self (u : vec) : norm u = 1 -> dot u u = 1.
Proof. intros Hu. rewrite <- norm_sqr, Hu. lra. Qed.


Lemma dot_map_bounds (f : R -> R) (lo hi : R) (v : vec) :
  (forall x, In x v -> lo * (x * x) <= f x * x <= hi * (x * x)) ->
  lo * dot v v <= dot (map f v) v <= hi * dot v v.
Proof.
  induction v as [|a v IH]; intros Hb; simpl; [lra|].
  destruct (Hb a (or_introl eq_refl)) as [Hl Hh].
  destruct IH as [IHl IHh]; [intros x Hx; apply Hb; now right|]. lra.
Qed.

Lemma dot_abs_map_le (f : R -> R) (hi : R) (v : vec) :
  (forall x, In x v -> Rabs (f x) * Rabs x <= hi * (x * x)) ->
  dot (map Rabs (map f v)) (map Rabs v) <= hi * dot v v.
Proof.
  induction v as [|a v IH]; intros Hb; simpl; [lra|].
  pose proof (Hb a (or_introl eq_refl)) as Hh.
  assert (IHh : dot (map Rabs (map f v)) (map Rabs v) <= hi * dot v v)
    by (apply IH; intros x Hx; apply Hb; now right).
  lra.
Qed.

Lemma abs_le_inv (a b : R) : Rabs a <= b -> - b <= a <= b.
Proof. unfold Rabs. destruct (Rcase_abs a); lra. Qed.

(** A quotient [f] of [x] by [n > 0] that is accurate to [u]. *)
Section Quotient.
Variables (n u x f : R).
Hypothesis Hn : 0 < n.
Hypothesis Hu : 0 <= u <= 1.
Hypothesis Hf : Rabs (f - x / n) <= u * Rabs (x / n).

Let y := x / n.

Lemma quotient_x : x = y * n.
Proof. unfold y. field. lra. Qed.

Lemma abs_sqr (a : R) : Rabs a * Rabs a = a * a.
Proof. rewrite <- Rabs_mult. apply Rabs_pos_eq. apply Rle_0_sqr. Qed.

Lemma quotient_abs : (1 - u) * Rabs y <= Rabs f <= (1 + u) * Rabs y.
Proof.
  fold y in Hf. pose proof (Rabs_pos y) as Hy.
  split.
  - pose proof (Rabs_triang_inv y (y - f)) as Ht.
    replace (y - (y - f)) with f in Ht by ring.
    rewrite (Rabs_minus_sym y f) in Ht. lra.
  - pose proof (Rabs_triang (f - y) y) as Ht.
    replace (f - y + y) with f in Ht by ring. lra.
Qed.

Lemma quotient_cross : - (u * (y * y)) <= (f - y) * y <= u * (y * y).
Proof.
  fold y in Hf. pose proof (Rabs_pos y) as Hy.
  assert (Hp : Rabs ((f - y) * y) <= u * (y * y)).
  { rewrite Rabs_mult, <- abs_sqr.
    replace (u * (Rabs y * Rabs y)) with (u * Rabs y * Rabs y) by ring.
    apply Rmult_le_compat_r; auto. }
  apply abs_le_inv in Hp. lra.
Qed.


Lemma quotient_times :
  (1 - u) / n * (x * x) <= f * x <= (1 + u) / n * (x * x).
Proof.
  destruct quotient_cross as [Hl Hh].
  assert (Hyy : y * y * n = x * x / n) by (unfold y; field; lra).
  replace ((1 - u) / n * (x * x)) with ((1 - u) * (y * y) * n)
    by (replace ((1 - u) * (y * y) * n) with ((1 - u) * (y * y * n)) by ring;
        rewrite Hyy; field; lra).
  replace ((1 + u) / n * (x * x)) with ((1 + u) * (y * y) * n)
    by (replace ((1 + u) * (y * y) * n) with ((1 + u) * (y * y * n)) by ring;
        rewrite Hyy; field; lra).
  replace (f * x) with ((y * y + (f - y) * y) * n)
    by (unfold y; field; lra).
  split; apply Rmult_le_compat_r; lra.
Qed.

Lemma quotient_abs_times : Rabs f * Rabs x <= (1 + u) / n * (x * x).
Proof.
  destruct quotient_abs as [_ Hh]. pose proof (Rabs_pos y) as Hy.
  assert (Hax : Rabs x = Rabs y * n).
  { rewrite quotient_x at 1. rewrite Rabs_mult, (Rabs_pos_eq n); lra. }
  assert (Hyy : y * y * n = x * x / n) by (unfold y; field; lra).
  replace ((1 + u) / n * (x * x)) with ((1 + u) * (y * y) * n)
    by (replace ((1 + u) * (y * y) * n) with ((1 + u) * (y * y * n)) by ring;
        rewrite Hyy; field; lra).
  rewrite Hax, <- (abs_sqr y).
  replace (Rabs f * (Rabs y * n)) with (Rabs f * Rabs y * n) by ring.
  apply Rmult_le_compat_r; [lra|].
  replace ((1 + u) * (Rabs y * Rabs y)) with ((1 + u) * Rabs y * Rabs y) by ring.
  apply Rmult_le_compat_r; auto.
Qed.

End Quotient.

(** A vector divided, item by item, by a computed norm: the norm is
    accurate to [eps], the quotients to [u]. *)
Section Renormalized.
Variables (div : R -> R -> R) (v : vec) (n eps u : R).
Hypothesis Hn : 0 < n.
Hypothesis Heps : 0 <= eps < 1.
Hypothesis Hu : 0 <= u <= 1.
Hypothesis Hnorm : Rabs (n - norm v) <= eps * norm v.
Hypothesis Hdiv : forall x, In x v -> Rabs (div x n - x / n) <= u * Rabs (x / n).

Let w := map (fun x => div x n) v.

Lemma computed_norm_bounds : (1 - eps) * norm v <= n <= (1 + eps) * norm v.
Proof. apply abs_le_inv in Hnorm. lra. Qed.

Lemma accurate_norm_pos : 0 < norm v.
Proof.
  destruct computed_norm_bounds as [_ Hh]. pose proof (norm_nonneg v) as Hp.
  destruct (Req_dec (norm v) 0) as [Hz|Hz]; [rewrite Hz in Hh; lra | lra].
Qed.

(** [dot v v / n] is the norm, up to [eps]. *)
Lemma ratio_bounds :
  norm v / (1 + eps) <= dot v v / n <= norm v / (1 - eps).
Proof.
  destruct computed_norm_bounds as [Hl Hh]. pose proof accurate_norm_pos as Hp.
  rewrite <- norm_sqr. split.
  - apply (Rmult_le_reg_r (n * (1 + eps))); [apply Rmult_lt_0_compat; lra|].
    replace (norm v / (1 + eps) * (n * (1 + eps))) with (norm v * n) by (field; lra).
    replace (norm v * norm v / n * (n * (1 + eps)))
      with (norm v * ((1 + eps) * norm v)) by (field; lra).
    apply Rmult_le_compat_l; lra.
  - apply (Rmult_le_reg_r (n * (1 - eps))); [apply Rmult_lt_0_compat; lra|].
    replace (norm v / (1 - eps) * (n * (1 - eps))) with (norm v * n) by (field; lra).
    replace (norm v * norm v / n * (n * (1 - eps)))
      with (norm v * ((1 - eps) * norm v)) by (field; lra).
    apply Rmult_le_compat_l; lra.
Qed.

Lemma renormalized_dot :
  (1 - u) * (dot v v / n) <= dot w v <= (1 + u) * (dot v v / n).
Proof.
  destruct (dot_map_bounds (fun x => div x n) ((1 - u) / n) ((1 + u) / n) v) as [Hl Hh].
  { intros x Hx. apply quotient_times; auto. }
  fold w in Hl, Hh.
  replace ((1 - u) * (dot v v / n)) with ((1 - u) / n * dot v v) by (field; lra).
  replace ((1 + u) * (dot v v / n)) with ((1 + u) / n * dot v v) by (field; lra).
  auto.
Qed.

Lemma renormalized_abs_dot :
  dot (map Rabs w) (map Rabs v) <= (1 + u) * (dot v v / n).
Proof.
  replace ((1 + u) * (dot v v / n)) with ((1 + u) / n * dot v v) by (field; lra).
  apply (dot_abs_map_le (fun x => div x n)).
  intros x Hx. apply quotient_abs_times; auto.
Qed.


(** The score of [v] against its own re-normalized image, computed to
    accuracy [gamma], when [v] has unit length up to [tau]. *)
Lemma self_score_bounds (tau gamma s : R) :
  0 <= tau <= 1 -> 0 <= gamma -> gamma * (1 + u) <= 1 - u ->
  Rabs (norm v - 1) <= tau ->
  Rabs (s - dot w v) <= gamma * dot (map Rabs w) (map Rabs v) ->
  (1 - tau) * (1 - u - gamma * (1 + u)) / (1 + eps) <= s
  <= (1 + tau) * (1 + u) * (1 + gamma) / (1 - eps).
Proof.
  intros Htau Hg Hgu Hunit Hs.
  apply abs_le_inv in Hunit. apply abs_le_inv in Hs.
  destruct renormalized_dot as [Dl Dh]. pose proof renormalized_abs_dot as Da.
  destruct ratio_bounds as [Rl Rh].
  set (K := dot v v / n) in *.
  set (A := dot (map Rabs w) (map Rabs v)) in *.
  assert (HgA : gamma * A <= gamma * ((1 + u) * K)) by (apply Rmult_le_compat_l; lra).
  assert (Hi1 : 0 < / (1 + eps)) by (apply Rinv_0_lt_compat; lra).
  assert (Hi2 : 0 < / (1 - eps)) by (apply Rinv_0_lt_compat; lra).
  assert (K1 : (1 - tau) * / (1 + eps) <= K).
  { eapply Rle_trans; [|exact Rl]. unfold Rdiv. apply Rmult_le_compat_r; lra. }
  assert (K2 : K <= (1 + tau) * / (1 - eps)).
  { eapply Rle_trans; [exact Rh|]. unfold Rdiv. apply Rmult_le_compat_r; lra. }
  assert (K0 : 0 <= K) by (eapply Rle_trans; [|exact K1]; apply Rmult_le_pos; lra).
  split.
  - apply Rle_trans with ((1 - u - gamma * (1 + u)) * K); [|lra].
    replace ((1 - tau) * (1 - u - gamma * (1 + u)) / (1 + eps))
      with ((1 - u - gamma * (1 + u)) * ((1 - tau) * / (1 + eps))) by (field; lra).
    apply Rmult_le_compat_l; lra.
  - apply Rle_trans with ((1 + u) * (1 + gamma) * K); [lra|].
    replace ((1 + tau) * (1 + u) * (1 + gamma) / (1 - eps))
      with ((1 + u) * (1 + gamma) * ((1 + tau) * / (1 - eps))) by (field; lra).
    apply Rmult_le_compat_l; [|lra]. apply Rmult_le_pos; lra.
Qed.

End Renormalized.

End Vectors.

(** ** The loader's re-normalization, whatever the rounding *)

Section Renormalize.
Context `{Np.Float32}.
Import Np Service Snapshot.
Local Open Scope R_scope.

Lemma renormalize_divides (v : vec) (n : R) :
  norm32 v = Finite n -> 0 < n -> renormalize v = map (fun x => div32 x n) v.
Proof.
  intros Hv Hn. unfold renormalize, scale_div. rewrite Hv.
  destruct (Rlt_dec 0 n); [reflexivity | contradiction].
Qed.





End Renormalize.

(** ** The reference arithmetic meets the interface *)

Section ReferenceArithmetic.
Import Np.
Local Open Scope R_scope.

Lemma ref_norm32_zeros (v : vec) :
  Forall (fun x => x = 0) v -> NpRef.norm32 v = Finite 0.
Proof.
  intros Hz. unfold NpRef.norm32. rewrite (dot_zero_l v v Hz).
  destruct (Rlt_dec 0 (/ 2 ^ 150)) as [_|Hn]; [reflexivity|].
  exfalso. apply Hn. apply Rinv_0_lt_compat, pow_lt. lra.
Qed.

Lemma ref_dot32_zeros (u v : vec) :
  length u = length v -> Forall (fun x => x = 0) u -> dot u v = 0.
Proof. intros _. apply dot_zero_l. Qed.

End ReferenceArithmetic.

(** The reference arithmetic as an implementation of the interface. *)
#[global] Instance ref_float32 : Np.Float32 := {|
  Np.norm32 := NpRef.norm32;
  Np.div32 := Rdiv;
  Np.dot32 := Np.dot;
  Np.norm32_zeros := ref_norm32_zeros;
  Np.dot32_zeros := ref_dot32_zeros
|}.

Section ReferenceRuns.
Import Np Service Snapshot.
Local Open Scope R_scope.

(** Within the range of [float32] the reference norm is the norm. *)
Lemma ref_norm32_in_range (v : vec) :
  / 2 ^ 150 <= dot v v < 2 ^ 128 -> norm32 v = Finite (norm v).
Proof.
  intros [Hl Hh]. cbn [norm32 ref_float32]. unfold NpRef.norm32.
  destruct (Rlt_dec (dot v v) (/ 2 ^ 150)); [lra|].
  destruct (Rlt_dec (dot v v) (2 ^ 128)); [reflexivity | lra].
Qed.

Lemma one_in_range : / 2 ^ 150 <= 1 < 2 ^ 128.
Proof.
  split.
  - apply Rle_trans with (/ 1); [|rewrite Rinv_1; lra].
    apply Rinv_le_contravar; [lra|]. apply pow_R1_Rle. lra.
  - apply Rlt_pow_R1; [lra | lia].
Qed.



(** In the reference arithmetic a vector of norm one is left as it is. *)
Lemma renormalize_of_unit (v : vec) : norm v = 1 -> renormalize v = v.
Proof.
  intros Hn.
  assert (Hv : norm32 v = Finite 1).
  { rewrite <- Hn. apply ref_norm32_in_range.
    rewrite (unit_dot_self v Hn). exact one_in_range. }
  rewrite (renormalize_divides v 1 Hv) by lra.
  rewrite <- (map_id v) at 2. apply map_ext. intros x. cbn. lra.
Qed.

End ReferenceRuns.

(** ** Reading a search result backwards *)

Section SearchInversion.
Context `{Np.NumpySort} `{Np.Float32}.
Import Np Service Snapshot.

Lemma assemble_inv (ix : RagIndex) (scores : vec) (idxs : list nat) (pre : vec)
      (out : list RetrievedChunk) :
  assemble ix (pre ++ map (at_ scores) idxs) (length pre) idxs = Ok out ->
  out = map (chunk_at ix scores) idxs /\
  Forall (fun i => i < length (ix_kind ix)) idxs.
Proof.
  revert pre out. induction idxs as [|i idxs IH]; intros pre out Ha.
  - inversion Ha. split; [reflexivity | constructor].
  - cbn [assemble map] in Ha.
    apply bind_ok in Ha. destruct Ha as (s & Hs & Ha).
    apply bind_ok in Ha. destruct Ha as (sp & Hsp & Ha).
    apply bind_ok in Ha. destruct Ha as (k & Hk & Ha).
    apply bind_ok in Ha. destruct Ha as (ci & Hci & Ha).
    apply bind_ok in Ha. destruct Ha as (pr & Hpr & Ha).
    apply bind_ok in Ha. destruct Ha as (t & Ht & Ha).
    apply bind_ok in Ha. destruct Ha as (rest & Hrest & Ha).
    inversion Ha; subst out; clear Ha.
    apply index_inv in Hs, Hsp, Hk, Hci, Hpr, Ht.
    rewrite nth_error_app2, Nat.sub_diag in Hs by lia. simpl in Hs.
    inversion Hs; subst s.
    specialize (IH (pre ++ [at_ scores i]) rest).
    rewrite <- app_assoc, length_app in IH. simpl in IH.
    rewrite Nat.add_1_r in IH. destruct (IH Hrest) as [-> Hall].
    split.
    + cbn [map]. f_equal. unfold chunk_at.
      rewrite (nth_error_nth _ _ ""%string Hsp), (nth_error_nth _ _ ""%string Hk),
        (nth_error_nth _ _ 0%Z Hci), (nth_error_nth _ _ ""%string Hpr),
        (nth_error_nth _ _ ""%string Ht). reflexivity.
    + constructor; auto. apply nth_error_Some. congruence.
Qed.

(** Whatever [search] returns on an aligned snapshot is the list of
    chunks of some candidate rows, each with its own score. *)
Lemma search_inv (ix : RagIndex) (qv : vec) (topk_req : Z) (kf : option string)
      (out : list RetrievedChunk) :
  aligned ix -> search ix qv topk_req kf = Ok out ->
  exists idxs, out = map (chunk_at ix (all_scores ix qv)) idxs /\
               incl idxs (candidates ix kf).
Proof.
  intros Hal Hs.
  pose proof Hal as (Hsp & Hkind & Hci & Hpr & Ht & Hrect).
  unfold shape0 in *.
  set (scores := all_scores ix qv).
  assert (Hlens : length scores = length (mrows (emb_matrix ix))).
  { unfold scores, all_scores. apply length_map. }
  unfold search in Hs.
  destruct (match kf with Some k => if Py.truthy k then Some k else None | None => None end)
    as [k|] eqn:Hfilter.
  - assert (Hkf : kf = Some k /\ Py.truthy k = true).
    { destruct kf as [k'|]; [|discriminate].
      destruct (Py.truthy k') eqn:Ht'; inversion Hfilter; subst; auto. }
    destruct Hkf as [-> Htruthy].
    set (mask := map (fun k' => String.eqb k' k) (ix_kind ix)) in *.
    assert (Hcand : candidates ix (Some k) = flatnonzero mask).
    { unfold candidates, mask. f_equal. apply map_ext. intros k'.
      unfold is_candidate. now rewrite Htruthy. }
    assert (Hlenmask : length mask = length (mrows (emb_matrix ix))).
    { unfold mask. rewrite length_map. exact Hkind. }
    rewrite Hcand.
    destruct (any mask) eqn:Hany; cbn [negb] in Hs.
    + apply bind_ok in Hs. destruct Hs as (embs & Hembs & Hs).
      apply bind_ok in Hs. destruct Hs as (sl & Hsl & Hs).
      apply bind_ok in Hs. destruct Hs as (loc & Hloc & Hs).
      apply bind_ok in Hs. destruct Hs as (glob & Hglob & Hs).
      apply bind_ok in Hs. destruct Hs as (ss & Hss & Hs).
      unfold mask_rows in Hembs. rewrite Hlenmask, Nat.eqb_refl in Hembs.
      inversion Hembs; subst embs; clear Hembs.
      unfold matvec in Hsl. cbn [mcols mrows] in Hsl.
      destruct (mcols (emb_matrix ix) =? length qv); [|discriminate].
      inversion Hsl; subst sl; clear Hsl.
      set (cand := flatnonzero mask) in *.
      set (sl := map (fun r => dot32 r qv) (compress mask (mrows (emb_matrix ix)))) in *.
      assert (Hsl : sl = map (at_ scores) cand).
      { unfold sl. rewrite (@compress_flatnonzero vec mask _ [] Hlenmask), map_map.
        apply map_ext_in. intros g Hg. apply flatnonzero_spec in Hg.
        unfold at_, scores, all_scores. symmetry.
        apply (nth_map_in_range (fun r => dot32 r qv)). lia. }
      apply (take_inv cand 0) in Hglob. destruct Hglob as [Hbound ->].
      apply (take_inv sl 0%R) in Hss. destruct Hss as [_ ->].
      set (g := fun l => nth l cand 0) in *.
      assert (Hmap : map (fun i => nth i sl 0%R) loc = map (at_ scores) (map g loc)).
      { rewrite map_map. apply map_ext_in. intros l Hl.
        rewrite Forall_forall in Hbound. specialize (Hbound _ Hl).
        rewrite Hsl. apply (nth_map_in_range (at_ scores)). exact Hbound. }
      rewrite Hmap in Hs.
      apply (assemble_inv ix scores (map g loc) []) in Hs. destruct Hs as [-> _].
      exists (map g loc). split; auto.
      intros i Hi. apply in_map_iff in Hi. destruct Hi as (l & <- & Hl).
      rewrite Forall_forall in Hbound. apply nth_In. auto.
    + inversion Hs. exists []. split; auto. intros i Hi. destruct Hi.
  - assert (Hkf : match kf with Some k => Py.truthy k = false | None => True end).
    { destruct kf as [k'|]; auto. destruct (Py.truthy k'); [discriminate | auto]. }
    rewrite (candidates_unfiltered ix kf Hkf).
    apply bind_ok in Hs. destruct Hs as (sc & Hsc & Hs).
    apply bind_ok in Hs. destruct Hs as (glob & Hglob & Hs).
    apply bind_ok in Hs. destruct Hs as (ss & Hss & Hs).
    unfold matvec in Hsc.
    destruct (mcols (emb_matrix ix) =? length qv); [|discriminate].
    inversion Hsc; subst sc; clear Hsc.
    change (map (fun r => dot32 r qv) (mrows (emb_matrix ix))) with scores in Hss.
    apply (take_inv scores 0%R) in Hss. destruct Hss as [Hbound ->].
    apply (assemble_inv ix scores glob []) in Hs. destruct Hs as [-> _].
    exists glob. split; auto.
    intros i Hi. rewrite Forall_forall in Hbound. apply in_seq.
    specialize (Hbound _ Hi). lia.
Qed.

(** A candidate row passes the filter and lies inside the snapshot. *)
Lemma candidates_spec (ix : RagIndex) (kf : option string) (i : nat) :
  In i (candidates ix kf) <->
  i < length (ix_kind ix) /\ is_candidate kf (nth i (ix_kind ix) ""%string) = true.
Proof.
  unfold candidates. rewrite flatnonzero_spec, length_map.
  split; intros [Hi Hc]; split; auto.
  - rewrite <- Hc. symmetry. now apply nth_map_in_range.
  - rewrite <- Hc. now apply nth_map_in_range.
Qed.

End SearchInversion.

(** ** The example store *)

Section ExampleFacts.
Import Np Service Snapshot.
Local Open Scope R_scope.

Lemma norm_e1 : norm [1; 0] = 1.
Proof.
  unfold norm. simpl. replace (1 * 1 + (0 * 0 + 0)) with 1 by lra. apply sqrt_1.
Qed.

Lemma norm_e2 : norm [0; 1] = 1.
Proof.
  unfold norm. simpl. replace (0 * 0 + (1 * 1 + 0)) with 1 by lra. apply sqrt_1.
Qed.

Lemma example_row_vectors :
  row_vector Example.row_a = [0; 1] /\ row_vector Example.row_b = [0; 1] /\
  row_vector Example.row_c = [1; 0].
Proof.
  unfold row_vector, decoded. simpl.
  rewrite (renormalize_of_unit _ norm_e1), (renormalize_of_unit _ norm_e2). auto.
Qed.

Lemma example_build : build_index (Db.rows Example.table) = Ok Example.snapshot.
Proof.
  unfold build_index, Example.table. cbn [Db.rows].
  rewrite load_loop_ok.
  - unfold extend. cbn [fold_left].
    destruct example_row_vectors as (-> & -> & ->). reflexivity.
  - repeat constructor.
Qed.

Lemma example_load :
  _load_index_from_db (Db.Present Example.table) =
  (Db.Present Example.table, Ok Example.snapshot).
Proof.
  rewrite (load_ok (Db.Present Example.table) Example.table) by reflexivity.
  now rewrite example_build.
Qed.

Lemma example_built : built Example.snapshot.
Proof. exists (Db.Present Example.table). now rewrite example_load. Qed.

Lemma norm_e1_neg : norm [-1; 0] = 1.
Proof.
  unfold norm. simpl. replace (-1 * -1 + (0 * 0 + 0)) with 1 by lra. apply sqrt_1.
Qed.

Lemma tie_built : built Example.tie_snapshot.
Proof.
  exists (Db.Present Example.tie_table).
  rewrite (load_ok (Db.Present Example.tie_table) Example.tie_table) by reflexivity.
  unfold build_index, Example.tie_table. cbn [Db.rows snd].
  rewrite load_loop_ok by repeat constructor.
  unfold extend. cbn [fold_left]. unfold row_vector, decoded. simpl.
  rewrite (renormalize_of_unit _ norm_e1), (renormalize_of_unit _ norm_e2),
    (renormalize_of_unit _ norm_e1_neg).
  reflexivity.
Qed.

End ExampleFacts.

(** * The claims *)

Section RetrieveClaims.
Context `{Np.NumpySort} `{Np.Float32}.
Import Np Service Snapshot.

Lemma retrieve_ready (w : World) (q : Query) (m : Encoder) (ix : RagIndex) (qv : vec) :
  model (app w) = Some m -> index (app w) = Some ix -> m (query q) = Some qv ->
  retrieve q w = (w, uncaught (search ix qv (topk q) (q_kind q))).
Proof.
  intros Hm Hix Hq. unfold retrieve, ready. now rewrite Hm, Hix, Hq.
Qed.

(** A retrieve that answers with records has embedded the query and
    searched the snapshot the state holds. *)
Lemma retrieve_ok_inv (w : World) (q : Query) (out : list RetrievedChunk) :
  snd (retrieve q w) = Ok out ->
  exists m ix qv, model (app w) = Some m /\ index (app w) = Some ix /\
                  m (query q) = Some qv /\
                  search ix qv (topk q) (q_kind q) = Ok out.
Proof.
  unfold retrieve. destruct (ready (app w)); cbn [negb]; [|discriminate].
  destruct (model (app w)) as [m|]; [|discriminate].
  destruct (index (app w)) as [ix|]; [|discriminate].
  destruct (m (query q)) as [qv|] eqn:Hq; [|discriminate].
  cbn [snd].
  destruct (search ix qv (topk q) (q_kind q)) as [out'|e] eqn:Hs; [|discriminate].
  intros Hx. inversion Hx; subst. exists m, ix, qv. repeat split; auto.
Qed.

(** The candidates of the code are those of the specification, but for
    the empty kind string, which the code takes for no filter. *)
Lemma candidate_count_matching (ix : RagIndex) (kf : option string) :
  aligned ix ->
  (kf <> Some ""%string -> candidate_count ix kf = matching_count ix kf) /\
  (kf = Some ""%string -> candidate_count ix kf = shape0 (emb_matrix ix)).
Proof.
  intros (_ & Hkind & _). split.
  - intros Hne. destruct kf as [k|].
    + assert (Ht : Py.truthy k = true).
      { unfold Py.truthy. destruct (String.eqb_spec k ""); [congruence | reflexivity]. }
      unfold candidate_count, matching_count, is_candidate. now rewrite Ht.
    + rewrite candidate_count_length, candidates_unfiltered by exact I.
      now rewrite length_seq.
  - intros ->. rewrite candidate_count_length, candidates_unfiltered by reflexivity.
    now rewrite length_seq.
Qed.

(** C1 (amended).  On a ready service, a retrieve request with a positive
    [topk] whose query embeds to a vector of the snapshot's dimension
    returns, without error, exactly [min(topk, candidate_count)] records,
    ordered by descending score; they are the chunks of distinct
    candidate rows.  The candidates are the rows whose kind matches the
    filter, or every row when there is no filter; an empty kind string
    is no filter.  A [topk] above the number of candidates is clamped. *)
Theorem retrieve_topk_sorted (w : World) (q : Query) (m : Encoder)
        (ix : RagIndex) (qv : vec) :
  model (app w) = Some m -> index (app w) = Some ix -> built ix ->
  m (query q) = Some qv -> length qv = shape1 (emb_matrix ix) ->
  (1 <= topk q)%Z ->
  exists out,
    retrieve q w = (w, Ok out) /\
    length out = Nat.min (Z.to_nat (topk q)) (candidate_count ix (q_kind q)) /\
    (q_kind q <> Some ""%string ->
     candidate_count ix (q_kind q) = matching_count ix (q_kind q)) /\
    (q_kind q = Some ""%string ->
     candidate_count ix (q_kind q) = shape0 (emb_matrix ix)) /\
    descending (map score out) /\
    exists idxs, out = map (chunk_at ix (all_scores ix qv)) idxs /\
                 NoDup idxs /\ incl idxs (candidates ix (q_kind q)).
Proof.
  intros Hm Hix Hbuilt Hq Hdim Hk.
  destruct (built_inv ix Hbuilt) as (rows & _ & _ & Hal & Hne).
  destruct (search_spec ix qv (topk q) (q_kind q) Hal Hne (eq_sym Hdim) Hk)
    as (idxs & Hs & Hlen & Hnd & Hincl & Hdesc & _).
  destruct (candidate_count_matching ix (q_kind q) Hal) as [Hset Hempty].
  exists (map (chunk_at ix (all_scores ix qv)) idxs).
  split; [|split; [|split; [exact Hset|split; [exact Hempty|split]]]].
  - rewrite (retrieve_ready w q m ix qv Hm Hix Hq), Hs. reflexivity.
  - now rewrite length_map.
  - rewrite map_map. exact Hdesc.
  - exists idxs. auto.
Qed.

(** C2 (amended).  With a non-empty kind filter [K], every record a
    retrieve returns has kind [K]; when no snapshot row has kind [K] the
    result is the empty sequence and not an error; and when the query
    vector has the snapshot's dimension and [topk] is positive the
    request does return. *)
Theorem retrieve_kind_filter (w : World) (q : Query) (m : Encoder)
        (ix : RagIndex) (qv : vec) (K : string) :
  model (app w) = Some m -> index (app w) = Some ix -> built ix ->
  m (query q) = Some qv -> q_kind q = Some K -> K <> ""%string ->
  (forall out, snd (retrieve q w) = Ok out -> Forall (fun c => rc_kind c = K) out) /\
  (~ In K (ix_kind ix) -> retrieve q w = (w, Ok [])) /\
  (length qv = shape1 (emb_matrix ix) -> (1 <= topk q)%Z ->
   exists out, retrieve q w = (w, Ok out)).
Proof.
  intros Hm Hix Hbuilt Hq HK Hne.
  destruct (built_inv ix Hbuilt) as (rows & _ & _ & Hal & Hrows).
  rewrite (retrieve_ready w q m ix qv Hm Hix Hq), HK. cbn [snd].
  assert (Htruthy : Py.truthy K = true).
  { unfold Py.truthy. destruct (String.eqb_spec K ""); [contradiction | reflexivity]. }
  split; [|split].
  - intros out Hout.
    destruct (search ix qv (topk q) (Some K)) as [out'|e] eqn:Hs; [|discriminate].
    inversion Hout; subst out'.
    destruct (search_inv ix qv (topk q) (Some K) out Hal Hs) as (idxs & -> & Hincl).
    apply Forall_forall. intros c Hc. apply in_map_iff in Hc.
    destruct Hc as (i & <- & Hi). apply Hincl, candidates_spec in Hi.
    destruct Hi as [_ Hi]. unfold is_candidate in Hi. rewrite Htruthy in Hi.
    apply String.eqb_eq in Hi. exact Hi.
  - intros Hnone. f_equal. unfold search. rewrite Htruthy.
    replace (any (map (fun k' => String.eqb k' K) (ix_kind ix))) with false; [reflexivity|].
    symmetry. apply not_true_is_false. intros Hany. apply Hnone.
    unfold any in Hany. apply existsb_exists in Hany.
    destruct Hany as (b & Hb & ->). apply in_map_iff in Hb.
    destruct Hb as (k & Hk & Hin). apply String.eqb_eq in Hk. now subst k.
  - intros Hdim Hk.
    destruct (search_spec ix qv (topk q) (Some K) Hal Hrows (eq_sym Hdim) Hk)
      as (idxs & Hs & _).
    rewrite Hs. eexists. reflexivity.
Qed.

End RetrieveClaims.

(** C1 on the example store: a request for 5 records over 3 rows gets 3. *)
Lemma retrieve_topk_sorted_witness :
  exists out,
    Service.retrieve (Service.mkQuery "the cow gave birth today" 5 None) Example.world
      = (Example.world, Ok out) /\
    length out = 3 /\
    Snapshot.matching_count Example.snapshot None = 3 /\
    Snapshot.descending (map Service.score out).
Proof.
  destruct (retrieve_topk_sorted Example.world
              (Service.mkQuery "the cow gave birth today" 5 None)
              Example.encoder Example.snapshot [1%R; 0%R]
              eq_refl eq_refl example_built eq_refl eq_refl)
    as (out & Hr & Hlen & _ & _ & Hdesc & _).
  - simpl. lia.
  - exists out. auto.
Defined.

(** Against C1 as stated.  A ready service whose model is not the one
    the table was embedded with answers a request of positive [topk]
    with an uncaught [ValueError]; and a request whose kind filter is
    the empty string, which no row has for its kind, returns a record
    all the same. *)
Lemma retrieve_topk_not_as_stated :
  Service.ready (Service.app Example.world_other_model) = true /\
  Service.retrieve (Service.mkQuery "hay" 5 None) Example.world_other_model
    = (Example.world_other_model, Err (Unhandled ValueError)) /\
  Snapshot.matching_count Example.snapshot (Some ""%string) = 0 /\
  exists out,
    Service.retrieve (Service.mkQuery "the cow gave birth today" 1 (Some ""%string))
                     Example.world = (Example.world, Ok out) /\
    length out = 1 /\
    length out <> Nat.min 1 (Snapshot.matching_count Example.snapshot (Some ""%string)).
Proof.
  split; [reflexivity|]. split; [reflexivity|]. split; [reflexivity|].
  destruct (built_inv Example.snapshot example_built) as (rows & _ & _ & Hal & Hne).
  destruct (search_spec Example.snapshot [1%R; 0%R] 1 (Some ""%string) Hal Hne eq_refl)
    as (idxs & Hs & Hlen & _); [lia|].
  rewrite (retrieve_ready Example.world
             (Service.mkQuery "the cow gave birth today" 1 (Some ""%string))
             Example.encoder Example.snapshot [1%R; 0%R] eq_refl eq_refl eq_refl).
  cbn [Service.topk Service.q_kind]. rewrite Hs.
  eexists. split; [reflexivity|].
  rewrite length_map. split; [exact Hlen|]. rewrite Hlen. discriminate.
Qed.

(** C2 on the example store: no row has kind "recipe", the answer is the
    empty sequence. *)
Lemma retrieve_kind_filter_witness :
  Service.retrieve (Service.mkQuery "the cow gave birth today" 5 (Some "recipe"%string))
                   Example.world = (Example.world, Ok []).
Proof.
  apply (retrieve_kind_filter Example.world
           (Service.mkQuery "the cow gave birth today" 5 (Some "recipe"%string))
           Example.encoder Example.snapshot [1%R; 0%R] "recipe"
           eq_refl eq_refl example_built eq_refl eq_refl).
  - discriminate.
  - simpl. intros [E|[E|[E|[]]]]; discriminate.
Defined.

(** Against C2 as stated: an empty kind string is a filter that is set,
    yet the request is served unfiltered and the record returned has
    another kind. *)
Lemma empty_kind_filter_returns_other_kinds :
  exists out,
    snd (Service.retrieve (Service.mkQuery "the cow gave birth today" 1 (Some ""%string))
                          Example.world) = Ok out /\
    length out = 1 /\
    ~ Forall (fun c => Service.rc_kind c = ""%string) out.
Proof.
  destruct (built_inv Example.snapshot example_built) as (rows & _ & _ & Hal & Hne).
  destruct (search_spec Example.snapshot [1%R; 0%R] 1 (Some ""%string) Hal Hne eq_refl)
    as (idxs & Hs & Hlen & _ & Hincl & _); [lia|].
  rewrite (retrieve_ready Example.world
             (Service.mkQuery "the cow gave birth today" 1 (Some ""%string))
             Example.encoder Example.snapshot [1%R; 0%R] eq_refl eq_refl eq_refl).
  cbn [snd Service.topk Service.q_kind]. rewrite Hs.
  eexists. split; [reflexivity|].
  rewrite length_map. split; [exact Hlen|].
  destruct idxs as [|i idxs]; [discriminate|].
  intros Hall. inversion Hall as [|? ? Hk _]; subst.
  assert (Hi : In i (Snapshot.candidates Example.snapshot (Some ""%string)))
    by (apply Hincl; now left).
  apply candidates_spec in Hi. destruct Hi as [Hi _].
  simpl in Hi, Hk.
  destruct i as [|[|[|i]]]; simpl in Hk; try discriminate. lia.
Qed.

Section SnapshotClaims.
Context `{Np.NumpySort} `{Np.Float32}.
Import Np Service Snapshot.

Lemma snapshot_entry (rows : list Db.Row) (ix : RagIndex) (i : nat) (r : Db.Row) :
  snapshot_of rows ix -> nth_error rows i = Some r ->
  entry_at ix i = Some (entry_of r).
Proof.
  intros (Hsp & Hk & Hci & Hpr & Ht & Hm) Hr. unfold entry_at.
  rewrite Hsp, Hk, Hci, Hpr, Ht, Hm, !nth_error_map, Hr. reflexivity.
Qed.

Lemma snapshot_chunk (rows : list Db.Row) (ix : RagIndex) (qv : vec) (i : nat) (r : Db.Row) :
  snapshot_of rows ix -> nth_error rows i = Some r ->
  chunk_at ix (all_scores ix qv) i = chunk_of qv (entry_of r).
Proof.
  intros (Hsp & Hk & Hci & Hpr & Ht & Hm) Hr.
  unfold chunk_at, chunk_of, entry_of, all_scores, at_. cbn.
  rewrite Hsp, Hk, Hci, Hpr, Ht, Hm, map_map.
  f_equal; apply nth_error_nth; rewrite nth_error_map, Hr; reflexivity.
Qed.

Lemma snapshot_candidate_row (rows : list Db.Row) (ix : RagIndex)
      (kf : option string) (i : nat) :
  snapshot_of rows ix -> In i (candidates ix kf) ->
  exists r, nth_error rows i = Some r /\ is_candidate kf (Db.kind r) = true.
Proof.
  intros (_ & Hk & _) Hi. apply candidates_spec in Hi. destruct Hi as [Hi Hc].
  rewrite Hk, length_map in Hi.
  destruct (nth_error rows i) as [r|] eqn:Hr; [|apply nth_error_None in Hr; lia].
  exists r. split; auto.
  rewrite Hk in Hc. erewrite nth_error_nth in Hc; [exact Hc|].
  now rewrite nth_error_map, Hr.
Qed.

(** C9.  A snapshot returned by the index builder is aligned: its five
    columns and its matrix have one row per table row read, row [i] of
    every column and of the matrix comes from table row [i], and each
    record a retrieve returns from it carries the score and the fields of
    one and the same table row. *)
Theorem snapshot_rows_aligned (d d' : Db.File) (ix : RagIndex) :
  _load_index_from_db d = (d', Ok ix) ->
  exists t, d' = Db.Present t /\
    aligned ix /\ shape0 (emb_matrix ix) = length (Db.rows t) /\
    (forall i r, nth_error (Db.rows t) i = Some r ->
                 entry_at ix i = Some (entry_of r)) /\
    (forall w q out, index (app w) = Some ix -> snd (retrieve q w) = Ok out ->
       exists m qv, model (app w) = Some m /\ m (query q) = Some qv /\
         Forall (fun c => exists i r, nth_error (Db.rows t) i = Some r /\
                                      c = chunk_of qv (entry_of r)) out).
Proof.
  intros Hload. apply load_inv in Hload. destruct Hload as (t & _ & -> & Hb).
  apply build_index_inv in Hb. destruct Hb as (_ & Hsnap & Hal).
  exists t. split; [reflexivity|]. split; [exact Hal|]. split; [|split].
  - destruct Hsnap as (_ & _ & _ & _ & _ & Hm). unfold shape0.
    now rewrite Hm, length_map.
  - intros i r Hr. now apply (snapshot_entry (Db.rows t)).
  - intros w q out Hix Hout.
    destruct (retrieve_ok_inv w q out Hout) as (m & ix' & qv & Hm & Hix' & Hq & Hs).
    rewrite Hix in Hix'. inversion Hix'; subst ix'.
    exists m, qv. split; [exact Hm|]. split; [exact Hq|].
    destruct (search_inv ix qv _ _ out Hal Hs) as (idxs & -> & Hincl).
    apply Forall_forall. intros c Hc. apply in_map_iff in Hc.
    destruct Hc as (i & <- & Hi).
    destruct (snapshot_candidate_row (Db.rows t) ix _ i Hsnap (Hincl _ Hi)) as (r & Hr & _).
    exists i, r. split; auto. now apply (snapshot_chunk (Db.rows t)).
Qed.

Lemma load_priority_in (p : option string) : In (load_priority p) PRIORITIES.
Proof.
  unfold load_priority.
  destruct (in_priorities (match p with Some s => s | None => "normal"%string end)) eqn:E.
  - unfold in_priorities in E. apply existsb_exists in E.
    destruct E as (x & Hx & Heq). apply String.eqb_eq in Heq. now subst.
  - simpl. auto.
Qed.

Lemma load_priority_other (p : option string) :
  p = None \/ (exists s, p = Some s /\ ~ In s PRIORITIES) ->
  load_priority p = "normal"%string.
Proof.
  intros [->|(s & -> & Hs)]; [reflexivity|].
  unfold load_priority.
  destruct (in_priorities s) eqn:E; auto.
  exfalso. apply Hs. unfold in_priorities in E. apply existsb_exists in E.
  destruct E as (x & Hx & Heq). apply String.eqb_eq in Heq. now subst.
Qed.

(** C10.  Every priority in a built snapshot, and so every priority a
    retrieve returns from it, is "normal" or "high"; a table row whose
    priority is NULL or a string outside that set sits in the snapshot as
    "normal". *)
Theorem snapshot_priorities (d d' : Db.File) (ix : RagIndex) :
  _load_index_from_db d = (d', Ok ix) ->
  Forall (fun p => In p PRIORITIES) (ix_priority ix) /\
  (exists t, d' = Db.Present t /\
     forall i r, nth_error (Db.rows t) i = Some r ->
       Db.priority r = None \/ (exists s, Db.priority r = Some s /\ ~ In s PRIORITIES) ->
       nth_error (ix_priority ix) i = Some "normal"%string) /\
  (forall w q out, index (app w) = Some ix -> snd (retrieve q w) = Ok out ->
     Forall (fun c => In (rc_priority c) PRIORITIES) out).
Proof.
  intros Hload. apply load_inv in Hload. destruct Hload as (t & _ & -> & Hb).
  apply build_index_inv in Hb. destruct Hb as (_ & Hsnap & Hal).
  pose proof Hsnap as (_ & _ & _ & Hpr & _).
  split; [|split].
  - rewrite Hpr. apply Forall_forall. intros p Hp. apply in_map_iff in Hp.
    destruct Hp as (r & <- & _). apply load_priority_in.
  - exists t. split; auto. intros i r Hr Hbad.
    rewrite Hpr, nth_error_map, Hr. simpl. f_equal. now apply load_priority_other.
  - intros w q out Hix Hout.
    destruct (retrieve_ok_inv w q out Hout) as (m & ix' & qv & _ & Hix' & _ & Hs).
    rewrite Hix in Hix'. inversion Hix'; subst ix'.
    destruct (search_inv ix qv _ _ out Hal Hs) as (idxs & -> & Hincl).
    apply Forall_forall. intros c Hc. apply in_map_iff in Hc.
    destruct Hc as (i & <- & Hi).
    destruct (snapshot_candidate_row (Db.rows t) ix _ i Hsnap (Hincl _ Hi)) as (r & Hr & _).
    rewrite (snapshot_chunk (Db.rows t) ix qv i r Hsnap Hr). simpl.
    apply load_priority_in.
Qed.


End SnapshotClaims.

(** C9 on the example store. *)
Lemma snapshot_rows_aligned_witness :
  exists t, Db.Present Example.table = Db.Present t /\
    Snapshot.aligned Example.snapshot /\
    Np.shape0 (Service.emb_matrix Example.snapshot) = length (Db.rows t).
Proof.
  destruct (snapshot_rows_aligned (Db.Present Example.table) (Db.Present Example.table)
              Example.snapshot example_load) as (t & Ht & Hal & Hn & _).
  exists t. auto.
Defined.

(** C10 on the example store: "urgent" and NULL are both held as
    "normal". *)
Lemma snapshot_priorities_witness :
  Forall (fun p => In p Service.PRIORITIES) (Service.ix_priority Example.snapshot) /\
  Db.priority Example.row_b = Some "urgent"%string /\
  nth_error (Service.ix_priority Example.snapshot) 1 = Some "normal"%string /\
  Db.priority Example.row_c = None /\
  nth_error (Service.ix_priority Example.snapshot) 2 = Some "normal"%string.
Proof.
  destruct (snapshot_priorities (Db.Present Example.table) (Db.Present Example.table)
              Example.snapshot example_load) as (Hall & (t & Ht & Hbad) & _).
  inversion Ht; subst t.
  split; [exact Hall|]. split; [reflexivity|]. split; [|split; [reflexivity|]].
  - apply (Hbad 1 Example.row_b eq_refl). right. exists "urgent"%string.
    split; [reflexivity|]. simpl. intros [E|[E|[]]]; discriminate.
  - apply (Hbad 2 Example.row_c eq_refl). now left.
Defined.

Section RangeRuns.
Import Np Service Snapshot.
Local Open Scope R_scope.







End RangeRuns.



Section LifecycleClaims.
Context `{Np.NumpySort} `{Np.Float32}.
Import Np Service Snapshot Lifecycle.

Lemma mixed_dims_migrated (d : Db.File) (t : Db.Table) :
  mixed_dims d -> Db._ensure_schema d = Ok t -> mixed_dims (Db.Present t).
Proof.
  intros (t0 & r1 & r2 & -> & H1 & H2 & Hne) Ht.
  apply ensure_schema_inv in Ht. destruct Ht as (t' & Heq & _ & ->).
  inversion Heq; subst t'. unfold migrated.
  destruct (Db.has_priority t0).
  - exists (Db.mkTable (Db.rows t0) true), r1, r2. auto.
  - exists (Db.mkTable (map (Db.set_priority (Some "normal"%string)) (Db.rows t0)) true),
      (Db.set_priority (Some "normal"%string) r1),
      (Db.set_priority (Some "normal"%string) r2).
    repeat split; auto; simpl; now apply in_map.
Qed.

(** Loading a table with two values of [dim] fails and leaves such a table. *)
Lemma load_mixed_dims (d : Db.File) :
  mixed_dims d ->
  (exists e, snd (_load_index_from_db d) = Err e) /\
  mixed_dims (fst (_load_index_from_db d)).
Proof.
  intros Hmix.
  pose proof Hmix as (t0 & r1 & r2 & -> & H1 & H2 & Hne).
  destruct (Db._ensure_schema (Db.Present t0)) as [t|e] eqn:Ht.
  - rewrite (load_ok _ _ Ht). simpl.
    pose proof (mixed_dims_migrated _ _ Hmix Ht) as Hmix'. split; auto.
    destruct Hmix' as (t' & r1' & r2' & Heq & H1' & H2' & Hne').
    inversion Heq; subst t'.
    apply (build_index_mixed _ r1' r2'); auto.
  - rewrite load_file, Ht. split; auto.
    unfold _load_index_from_db. cbn [Db.exists_ negb Db._db_connect].
    rewrite Ht. simpl. eauto.
Qed.

Lemma handle_keeps_unready (rq : Request) (w : World) :
  mixed_dims (db w) -> index (app w) = None ->
  mixed_dims (db (handle rq w)) /\ index (app (handle rq w)) = None.
Proof.
  intros Hmix Hix. destruct rq as [m now|now|env req|q]; simpl.
  - (* startup *)
    unfold _startup.
    pose proof Hmix as (t0 & r1 & r2 & Hdb & _). rewrite Hdb. cbn [Db.exists_ Db._db_connect].
    rewrite <- Hdb.
    destruct (Db._ensure_schema (db w)) as [t|e] eqn:Ht; [|simpl; auto].
    pose proof (mixed_dims_migrated _ _ Hmix Ht) as Hmix'.
    destruct (m "warmup"%string); [|simpl; auto].
    destruct (load_mixed_dims _ Hmix') as [(err & He) Hmix''].
    destruct (_load_index_from_db (Db.Present t)) as [d2 r]. simpl in *. subst r.
    simpl. auto.
  - (* reload *)
    unfold reload_index. destruct (model (app w)); [|simpl; auto].
    destruct (load_mixed_dims _ Hmix) as [(err & He) Hmix'].
    destruct (_load_index_from_db (db w)) as [d2 r]. simpl in *. subst r.
    simpl. auto.
  - (* store: refused, the service is not ready *)
    unfold store, ready. rewrite Hix.
    destruct (model (app w)); simpl; auto.
  - (* retrieve *)
    unfold retrieve, ready. rewrite Hix.
    destruct (model (app w)); simpl; auto.
Qed.

(** C4 (amended).  On a table with two rows of different [dim] the index
    builder never returns a snapshot; once the schema migration passes
    and every row before the first one that disagrees with the first
    row's [dim] has a readable blob, the failure is the dimension
    error; and a service without a snapshot never becomes ready while
    the table stays like this, whatever requests it gets. *)
Theorem mixed_dims_never_ready (w : World) :
  mixed_dims (db w) ->
  (exists e, snd (_load_index_from_db (db w)) = Err e) /\
  (forall t r0 pre r post,
     Db._ensure_schema (db w) = Ok t ->
     Db.rows t = r0 :: pre ++ r :: post ->
     Forall (loadable (Db.dim r0)) (r0 :: pre) -> Db.dim r <> Db.dim r0 ->
     snd (_load_index_from_db (db w)) = Err (InconsistentDim (Db.dim r) (Db.dim r0))) /\
  (index (app w) = None ->
   forall rqs, ready (app (run rqs w)) = false /\ mixed_dims (db (run rqs w))).
Proof.
  intros Hmix. split; [|split].
  - apply (load_mixed_dims _ Hmix).
  - intros t r0 pre r post Ht Hrows Hpre Hr.
    rewrite (load_ok _ _ Ht). cbn [snd]. unfold build_index. rewrite Hrows.
    change (r0 :: pre ++ r :: post) with ((r0 :: pre) ++ r :: post).
    cbn [app]. change (r0 :: pre ++ r :: post) with ((r0 :: pre) ++ r :: post).
    rewrite (load_loop_stops (Db.dim r0) (r0 :: pre) post r no_columns Hpre).
    + destruct (Z.eqb_spec (Db.dim r) (Db.dim r0)); [contradiction | reflexivity].
    + intros [Hd _]. contradiction.
  - intros Hix rqs. revert w Hmix Hix.
    induction rqs as [|rq rqs IH]; intros w Hmix Hix; simpl.
    + split; auto. unfold ready. rewrite Hix. destruct (model (app w)); reflexivity.
    + destruct (handle_keeps_unready rq w Hmix Hix) as [Hmix' Hix'].
      apply (IH _ Hmix' Hix').
Qed.

End LifecycleClaims.

Lemma short_table_mixed : Lifecycle.mixed_dims (Db.Present Example.short_table).
Proof.
  exists Example.short_table, Example.short_row, Example.wide_row.
  simpl. repeat split; auto. discriminate.
Qed.

(** C4 on a table with rows of [dim] 2 and 3: the build fails. *)
Lemma mixed_dims_never_ready_witness :
  exists e, snd (Service._load_index_from_db (Db.Present Example.short_table)) = Err e.
Proof.
  apply (mixed_dims_never_ready
           (Service.mkWorld (Service.mkAppState None None None)
                            (Db.Present Example.short_table))
           short_table_mixed).
Defined.

(** Against C4 as stated: two rows of [dim] 2 and 3, the first with a
    one-item blob; the build fails in [np.frombuffer], not with the
    dimension error. *)
Lemma short_blob_is_not_a_dimension_error :
  Lifecycle.mixed_dims (Db.Present Example.short_table) /\
  snd (Service._load_index_from_db (Db.Present Example.short_table)) = Err ValueError /\
  forall got expected,
    snd (Service._load_index_from_db (Db.Present Example.short_table))
    <> Err (InconsistentDim got expected).
Proof.
  split; [exact short_table_mixed|].
  assert (E : snd (Service._load_index_from_db (Db.Present Example.short_table))
              = Err ValueError) by reflexivity.
  split; [exact E|]. intros got expected. rewrite E. discriminate.
Qed.

Section RebuildFailure.
Context `{Np.Float32}.
Import Np Service Snapshot.

(** [store] once the request is validated and embedded. *)
Lemma store_persisted (env : StoreEnv) (req : StoreRequest) (w : World)
      (m : Encoder) (v : vec) :
  ready (app w) = true -> model (app w) = Some m ->
  in_priorities (normalized_priority req) = true -> m (sr_text req) = Some v ->
  store env req w =
  match persist (db w) (new_row env req v) with
  | (d1, Err f) => (mkWorld (app w) d1, Err f)
  | (d1, Ok (stored_id, stored_dim)) =>
      match _load_index_from_db d1 with
      | (d2, Err e) =>
          (mkWorld (app w) d2, Err (HTTPException 500 (StoredButReloadFailed e)))
      | (d2, Ok ix) =>
          (mkWorld (mkAppState (Some m) (Some ix) (Some (env_now env))) d2,
           Ok (mkStoreResponse true stored_id stored_dim))
      end
  end.
Proof.
  intros Hr Hm Hp Hv. unfold store. now rewrite Hr, Hm, Hp, Hv.
Qed.

(** [persist] never answers with the stale-cache error. *)
Lemma persist_error (d d1 : Db.File) (new : Db.Row) (s : Z) (e : py_exn) :
  persist d new <> (d1, Err (HTTPException s (StoredButReloadFailed e))).
Proof.
  unfold persist.
  destruct (Db._ensure_schema (Db._db_connect d)) as [t1|[]];
    try (intros Hx; inversion Hx; fail).
  destruct (Db.upsert t1 new) as [t2|[]]; try (intros Hx; inversion Hx; fail).
  destruct (Db.select_id_dim t2 (Db.key_of new)) as [[sid sdim]|];
    intros Hx; inversion Hx.
Qed.

(** C5.  When the rebuild of the snapshot fails with [e]: an explicit
    reload leaves [state] as it was and answers 500 "Reload failed"; a
    store whose database work had succeeded leaves [state] as it was, has
    written the file, and answers 500 "Stored but reload_index failed";
    and [store] gives that answer in no other situation. *)
Theorem rebuild_failure_keeps_snapshot (w : World) (e : py_exn) :
  (forall now m,
     model (app w) = Some m -> snd (_load_index_from_db (db w)) = Err e ->
     app (fst (reload_index now w)) = app w /\
     snd (reload_index now w) = Err (HTTPException 500 (ReloadFailed e))) /\
  (forall env req m v d1 stored,
     ready (app w) = true -> model (app w) = Some m ->
     in_priorities (normalized_priority req) = true -> m (sr_text req) = Some v ->
     persist (db w) (new_row env req v) = (d1, Ok stored) ->
     snd (_load_index_from_db d1) = Err e ->
     app (fst (store env req w)) = app w /\
     db (fst (store env req w)) = fst (_load_index_from_db d1) /\
     snd (store env req w) = Err (HTTPException 500 (StoredButReloadFailed e))) /\
  (forall env req s,
     snd (store env req w) = Err (HTTPException s (StoredButReloadFailed e)) ->
     s = 500%Z /\ app (fst (store env req w)) = app w /\
     exists m v d1 stored,
       model (app w) = Some m /\ m (sr_text req) = Some v /\
       persist (db w) (new_row env req v) = (d1, Ok stored) /\
       snd (_load_index_from_db d1) = Err e).
Proof.
  split; [|split].
  - intros now m Hm Hload. unfold reload_index. rewrite Hm.
    destruct (_load_index_from_db (db w)) as [d r]. simpl in Hload. subst r.
    simpl. auto.
  - intros env req m v d1 [sid sdim] Hr Hm Hp Hv Hpersist Hload.
    rewrite (store_persisted env req w m v Hr Hm Hp Hv), Hpersist.
    destruct (_load_index_from_db d1) as [d2 r]. simpl in Hload. subst r.
    simpl. auto.
  - intros env req s Hs. unfold store in *.
    destruct (ready (app w)); [|simpl in Hs; inversion Hs].
    cbn [negb] in *.
    destruct (model (app w)) as [m|] eqn:Hm; [|simpl in Hs; inversion Hs].
    destruct (in_priorities (normalized_priority req)); [|simpl in Hs; inversion Hs].
    cbn [negb] in *.
    destruct (m (sr_text req)) as [v|] eqn:Hv; [|simpl in Hs; inversion Hs].
    destruct (persist (db w) (new_row env req v)) as [d1 [[sid sdim]|f]] eqn:Hpersist.
    + destruct (_load_index_from_db d1) as [d2 [ix|e']] eqn:Hload;
        simpl in Hs; inversion Hs; subst.
      simpl. split; [reflexivity|]. split; [reflexivity|].
      exists m, v, d1, (sid, sdim). rewrite Hload. repeat split; auto.
    + simpl in Hs. inversion Hs; subst.
      exfalso. exact (persist_error _ _ _ _ _ Hpersist).
Qed.

End RebuildFailure.

(** C5 on the running service whose file was swapped for a table of
    another dimension: the chunk is written, the rebuild fails, the old
    snapshot stays. *)
Lemma rebuild_failure_keeps_snapshot_witness :
  Service.index (Service.app (fst (Service.store Example.env Example.request
                                                 Example.stale_world)))
    = Some Example.snapshot /\
  snd (Service.store Example.env Example.request Example.stale_world)
    = Err (HTTPException 500 (StoredButReloadFailed (InconsistentDim 2 3))).
Proof.
  destruct (rebuild_failure_keeps_snapshot Example.stale_world (InconsistentDim 2 3))
    as (_ & Hstore & _).
  destruct (Hstore Example.env Example.request Example.encoder [0%R; 1%R]
              (Db.Present (Db.mkTable
                 [Example.wide_row;
                  Service.new_row Example.env Example.request [0%R; 1%R]] true))
              ("x1"%string, 2%Z))
    as (Happ & _ & Hresp); try reflexivity.
  rewrite Happ. split; [reflexivity | exact Hresp].
Defined.

(** ** Upsert *)

Section Upsert.
Context `{Np.Float32}.
Import Np Service Snapshot.

Lemma key_eqb_eq (a b : Db.key) : Db.key_eqb a b = true <-> a = b.
Proof.
  destruct a as [[sa ka] ia], b as [[sb kb] ib]. unfold Db.key_eqb.
  rewrite !andb_true_iff, !String.eqb_eq, Z.eqb_eq.
  split; [intros [[-> ->] ->]; reflexivity | intros Heq; inversion Heq; auto].
Qed.

Lemma key_eqb_refl (a : Db.key) : Db.key_eqb a a = true.
Proof. now apply key_eqb_eq. Qed.

Lemma key_of_updated (new r : Db.Row) :
  Db.key_of (if Db.key_eqb (Db.key_of r) (Db.key_of new)
             then Db.do_update new r else r) = Db.key_of r.
Proof. destruct (Db.key_eqb (Db.key_of r) (Db.key_of new)); reflexivity. Qed.

Lemma key_clash_map (f : Db.Row -> Db.Row) (k : Db.key) (rows : list Db.Row) :
  (forall r, Db.key_of (f r) = Db.key_of r) ->
  existsb (fun r' => Db.key_eqb k (Db.key_of r')) (map f rows) =
  existsb (fun r' => Db.key_eqb k (Db.key_of r')) rows.
Proof.
  intros Hf. induction rows as [|r rows IH]; auto.
  cbn [map existsb]. now rewrite IH, Hf.
Qed.

Lemma unique_keys_map (f : Db.Row -> Db.Row) (rows : list Db.Row) :
  (forall r, Db.key_of (f r) = Db.key_of r) ->
  Db.unique_keys (map f rows) = Db.unique_keys rows.
Proof.
  intros Hf. induction rows as [|r rows IH]; auto.
  cbn [map Db.unique_keys]. now rewrite IH, key_clash_map, Hf.
Qed.

Lemma find_key_map (f : Db.Row -> Db.Row) (k : Db.key) (rows : list Db.Row) :
  (forall r, Db.key_of (f r) = Db.key_of r) ->
  find (fun r => Db.key_eqb (Db.key_of r) k) (map f rows) =
  option_map f (find (fun r => Db.key_eqb (Db.key_of r) k) rows).
Proof.
  intros Hf. induction rows as [|r rows IH]; auto.
  cbn [map find]. rewrite Hf.
  destruct (Db.key_eqb (Db.key_of r) k); auto.
Qed.

Lemma find_key_exists (k : Db.key) (rows : list Db.Row) (r : Db.Row) :
  find (fun r => Db.key_eqb (Db.key_of r) k) rows = Some r ->
  existsb (fun r => Db.key_eqb (Db.key_of r) k) rows = true /\
  In r rows /\ Db.key_of r = k.
Proof.
  intros Hf. pose proof (find_some _ _ Hf) as [Hin Hk].
  split; [|split; auto; now apply key_eqb_eq].
  apply existsb_exists. eauto.
Qed.

(** The statement runs when [chunk_index] fits 64 bits, and only then. *)
Lemma upsert_fits (t : Db.Table) (new : Db.Row) :
  Db.int64 (Db.chunk_index new) = true ->
  Db.upsert t new =
  if existsb (fun r => Db.key_eqb (Db.key_of r) (Db.key_of new)) (Db.rows t) then
    Ok (Db.mkTable (updated new (Db.rows t)) (Db.has_priority t))
  else if existsb (fun r => String.eqb (Db.id r) (Db.id new)) (Db.rows t) then
    Err SqliteIntegrityError
  else Ok (Db.mkTable (Db.rows t ++ [new]) (Db.has_priority t)).
Proof. intros Hfit. unfold Db.upsert. now rewrite Hfit. Qed.

Lemma upsert_ok_fits (t t2 : Db.Table) (new : Db.Row) :
  Db.upsert t new = Ok t2 -> Db.int64 (Db.chunk_index new) = true.
Proof.
  unfold Db.upsert. destruct (Db.int64 (Db.chunk_index new)); [reflexivity|discriminate].
Qed.

Lemma upsert_overflow (t : Db.Table) (new : Db.Row) :
  Db.int64 (Db.chunk_index new) = false -> Db.upsert t new = Err OverflowError.
Proof. intros Hfit. unfold Db.upsert. now rewrite Hfit. Qed.

(** An upsert on a key the table has: the row is rewritten in place. *)
Lemma upsert_conflict (t : Db.Table) (new r : Db.Row) :
  Db.int64 (Db.chunk_index new) = true ->
  find (fun r => Db.key_eqb (Db.key_of r) (Db.key_of new)) (Db.rows t) = Some r ->
  Db.upsert t new = Ok (Db.mkTable (updated new (Db.rows t)) (Db.has_priority t)) /\
  Db.select_id_dim (Db.mkTable (updated new (Db.rows t)) (Db.has_priority t))
                   (Db.key_of new) = Some (Db.id r, Db.dim new).
Proof.
  intros Hfit Hf. destruct (find_key_exists _ _ _ Hf) as (Hex & _ & Hk).
  rewrite (upsert_fits _ _ Hfit), Hex. split; [reflexivity|].
  unfold Db.select_id_dim, updated. cbn [Db.rows].
  rewrite (find_key_map _ _ _ (key_of_updated new)), Hf. cbn [option_map].
  rewrite Hk, key_eqb_refl. reflexivity.
Qed.

(** An upsert that succeeds leaves a row of the key that carries the new
    values; the following [SELECT] reads its [id] and [dim]. *)
Lemma upsert_select (t t2 : Db.Table) (new : Db.Row) :
  Db.upsert t new = Ok t2 ->
  Db.has_priority t2 = Db.has_priority t /\
  (Db.unique_keys (Db.rows t) = true -> Db.unique_keys (Db.rows t2) = true) /\
  exists r, find (fun r => Db.key_eqb (Db.key_of r) (Db.key_of new)) (Db.rows t2) = Some r /\
            carries new r /\
            Db.select_id_dim t2 (Db.key_of new) = Some (Db.id r, Db.dim r).
Proof.
  intros Hup. rewrite (upsert_fits _ _ (upsert_ok_fits _ _ _ Hup)) in Hup.
  revert Hup. unfold Db.select_id_dim, updated.
  destruct (existsb (fun r => Db.key_eqb (Db.key_of r) (Db.key_of new)) (Db.rows t)) eqn:Hex.
  - intros Ht. inversion Ht; subst t2; clear Ht. cbn [Db.rows Db.has_priority].
    split; [reflexivity|]. split.
    { intros Hu. fold (updated new (Db.rows t)). unfold updated.
      now rewrite (unique_keys_map _ _ (key_of_updated new)). }
    apply existsb_exists in Hex. destruct Hex as (r0 & Hin & Hk).
    destruct (find (fun r => Db.key_eqb (Db.key_of r) (Db.key_of new)) (Db.rows t))
      as [r|] eqn:Hf.
    + fold (updated new (Db.rows t)). unfold updated.
      rewrite (find_key_map _ _ _ (key_of_updated new)), Hf. cbn [option_map].
      destruct (find_key_exists _ _ _ Hf) as (_ & _ & Hkr).
      rewrite Hkr, key_eqb_refl.
      eexists. split; [reflexivity|]. split; [|reflexivity].
      unfold carries. cbn. repeat split; auto.
    + exfalso. apply (find_none _ _ Hf) in Hin. congruence.
  - destruct (existsb (fun r => String.eqb (Db.id r) (Db.id new)) (Db.rows t));
      [discriminate|].
    intros Ht. inversion Ht; subst t2; clear Ht. cbn [Db.rows Db.has_priority].
    split; [reflexivity|]. split.
    { clear - Hex. induction (Db.rows t) as [|r rows IH];
        cbn -[Db.key_eqb Db.key_of] in *; auto.
      apply orb_false_iff in Hex. destruct Hex as [Hr Hex].
      intros Hu. apply andb_true_iff in Hu. destruct Hu as [Hn Hu].
      rewrite (IH Hex Hu), andb_true_r.
      rewrite existsb_app. cbn -[Db.key_eqb Db.key_of].
      apply negb_true_iff in Hn. rewrite Hn. simpl. rewrite orb_false_r.
      apply negb_true_iff. exact Hr. }
    assert (Hf : find (fun r => Db.key_eqb (Db.key_of r) (Db.key_of new))
                      (Db.rows t ++ [new]) = Some new).
    { clear - Hex. induction (Db.rows t) as [|r rows IH]; cbn -[Db.key_eqb Db.key_of] in *.
      - now rewrite key_eqb_refl.
      - apply orb_false_iff in Hex. destruct Hex as [Hr Hex]. rewrite Hr. auto. }
    rewrite Hf. exists new. split; [reflexivity|]. split; [|reflexivity].
    unfold carries. repeat split; auto.
Qed.

Lemma ensure_schema_fixed (t t' : Db.Table) :
  Db.has_priority t = true -> Db._ensure_schema (Db.Present t) = Ok t' -> t' = t.
Proof.
  intros Hp Ht. apply ensure_schema_inv in Ht.
  destruct Ht as (t0 & Heq & _ & ->). inversion Heq; subst t0.
  unfold migrated. rewrite Hp. destruct t; simpl in *. now subst.
Qed.

Lemma ensure_schema_has_priority (d : Db.File) (t : Db.Table) :
  Db._ensure_schema d = Ok t -> Db.has_priority t = true.
Proof.
  intros Ht. apply ensure_schema_inv in Ht. destruct Ht as (t0 & _ & _ & ->). reflexivity.
Qed.

Lemma persist_inv (d d1 : Db.File) (new : Db.Row) (sid : string) (sdim : Z) :
  persist d new = (d1, Ok (sid, sdim)) ->
  exists t1 t2, Db._ensure_schema (Db._db_connect d) = Ok t1 /\
                Db.upsert t1 new = Ok t2 /\ d1 = Db.Present t2 /\
                Db.select_id_dim t2 (Db.key_of new) = Some (sid, sdim).
Proof.
  unfold persist.
  destruct (Db._ensure_schema (Db._db_connect d)) as [t1|[]] eqn:Hschema;
    try (intros Hx; inversion Hx; fail).
  destruct (Db.upsert t1 new) as [t2|[]] eqn:Hup; try (intros Hx; inversion Hx; fail).
  destruct (Db.select_id_dim t2 (Db.key_of new)) as [[sid' sdim']|] eqn:Hsel;
    intros Hx; inversion Hx; subst.
  exists t1, t2. auto.
Qed.

End Upsert.

Section StoreClaims.
Context `{Np.Float32}.
Import Np Service Snapshot.

(** What a successful [store] leaves behind: the service ready on a fresh
    snapshot of the table, and in the table a row of the request's key
    that carries the request's values and whose [id] and [dim] were
    answered. *)
Lemma store_ok_inv (env : StoreEnv) (req : StoreRequest) (w w1 : World)
      (resp : StoreResponse) :
  store env req w = (w1, Ok resp) ->
  exists m v t r ix,
    model (app w) = Some m /\ m (sr_text req) = Some v /\
    in_priorities (normalized_priority req) = true /\
    app w1 = mkAppState (Some m) (Some ix) (Some (env_now env)) /\
    db w1 = Db.Present t /\ Db._ensure_schema (Db.Present t) = Ok t /\
    build_index (Db.rows t) = Ok ix /\
    find (fun r => Db.key_eqb (Db.key_of r) (Db.key_of (new_row env req v)))
         (Db.rows t) = Some r /\
    carries (new_row env req v) r /\
    resp = mkStoreResponse true (Db.id r) (Db.dim r).
Proof.
  unfold store.
  destruct (ready (app w)); cbn [negb]; [|intros Hx; inversion Hx].
  destruct (model (app w)) as [m|] eqn:Hm; [|intros Hx; inversion Hx].
  destruct (in_priorities (normalized_priority req)) eqn:Hp; cbn [negb];
    [|intros Hx; inversion Hx].
  destruct (m (sr_text req)) as [v|] eqn:Hv; [|intros Hx; inversion Hx].
  destruct (persist (db w) (new_row env req v)) as [d1 [[sid sdim]|f]] eqn:Hpersist;
    [|intros Hx; inversion Hx].
  destruct (_load_index_from_db d1) as [d2 [ix|e]] eqn:Hload;
    intros Hx; inversion Hx; subst w1 resp; clear Hx.
  apply persist_inv in Hpersist.
  destruct Hpersist as (t1 & t2 & Hschema & Hup & -> & Hsel).
  apply load_inv in Hload. destruct Hload as (t & Ht & -> & Hb).
  destruct (upsert_select t1 t2 _ Hup) as (Hhp & _ & r & Hf & Hc & Hsel').
  rewrite Hsel' in Hsel. inversion Hsel; subst sid sdim.
  assert (t = t2).
  { apply ensure_schema_fixed; auto.
    rewrite Hhp. now apply (ensure_schema_has_priority (Db._db_connect (db w))). }
  subst t.
  exists m, v, t2, r, ix. cbn [app db]. repeat split; auto; apply Hc.
Qed.

(** A store that answered with a response had a [chunk_index] that fits
    64 bits. *)
Lemma store_ok_fits (env : StoreEnv) (req : StoreRequest) (w w1 : World)
      (resp : StoreResponse) :
  store env req w = (w1, Ok resp) -> Db.int64 (sr_chunk_index req) = true.
Proof.
  unfold store.
  destruct (ready (app w)); cbn [negb]; [|intros Hx; inversion Hx].
  destruct (model (app w)) as [m|]; [|intros Hx; inversion Hx].
  destruct (in_priorities (normalized_priority req)); cbn [negb];
    [|intros Hx; inversion Hx].
  destruct (m (sr_text req)) as [v|]; [|intros Hx; inversion Hx].
  destruct (persist (db w) (new_row env req v)) as [d1 [[sid sdim]|f]] eqn:Hpersist;
    [|intros Hx; inversion Hx].
  intros _. apply persist_inv in Hpersist.
  destruct Hpersist as (t1 & t2 & _ & Hup & _).
  exact (upsert_ok_fits _ _ _ Hup).
Qed.

(** A [store] on a key the table already has, in a service that is up on
    a migrated table: the row is rewritten in place under its old [id],
    and that [id] is what a response carries. *)
Lemma store_on_existing_key (env : StoreEnv) (req : StoreRequest) (w : World)
      (m : Encoder) (v : vec) (t : Db.Table) (r : Db.Row) :
  ready (app w) = true -> model (app w) = Some m ->
  in_priorities (normalized_priority req) = true -> m (sr_text req) = Some v ->
  Db.int64 (sr_chunk_index req) = true ->
  db w = Db.Present t -> Db._ensure_schema (Db.Present t) = Ok t ->
  find (fun r => Db.key_eqb (Db.key_of r) (Db.key_of (new_row env req v)))
       (Db.rows t) = Some r ->
  let t' := Db.mkTable (updated (new_row env req v) (Db.rows t)) true in
  db (fst (store env req w)) = Db.Present t' /\
  find (fun r => Db.key_eqb (Db.key_of r) (Db.key_of (new_row env req v)))
       (Db.rows t') = Some (Db.do_update (new_row env req v) r) /\
  snd (store env req w) =
    match build_index (Db.rows t') with
    | Ok _ => Ok (mkStoreResponse true (Db.id r) (Z.of_nat (length v)))
    | Err e => Err (HTTPException 500 (StoredButReloadFailed e))
    end.
Proof.
  intros Hr Hm Hp Hv Hfit Hdb Ht Hf t'.
  pose proof (ensure_schema_has_priority _ _ Ht) as Hhp.
  destruct (upsert_conflict t (new_row env req v) r Hfit Hf) as [Hup Hsel].
  rewrite Hhp in Hup, Hsel. fold t' in Hup, Hsel.
  assert (Hpersist : persist (db w) (new_row env req v)
                     = (Db.Present t', Ok (Db.id r, Z.of_nat (length v)))).
  { unfold persist. rewrite Hdb. cbn [Db._db_connect]. rewrite Ht, Hup, Hsel. reflexivity. }
  assert (Ht' : Db._ensure_schema (Db.Present t') = Ok t').
  { apply ensure_schema_inv in Ht. destruct Ht as (t0 & Heq & Hu & _).
    inversion Heq; subst t0.
    unfold Db._ensure_schema, t'. cbn [Db.rows Db.has_priority]. unfold updated.
    now rewrite (unique_keys_map _ _ (key_of_updated (new_row env req v))), Hu. }
  rewrite (store_persisted env req w m v Hr Hm Hp Hv), Hpersist, (load_ok _ _ Ht').
  split; [|split].
  - destruct (build_index (Db.rows t')); reflexivity.
  - unfold t', updated. cbn [Db.rows].
    rewrite (find_key_map _ _ _ (key_of_updated (new_row env req v))), Hf.
    cbn [option_map]. destruct (find_key_exists _ _ _ Hf) as (_ & _ & Hk).
    now rewrite Hk, key_eqb_refl.
  - destruct (build_index (Db.rows t')); reflexivity.
Qed.

(** Rewriting a row of a table that builds, with a readable blob of the
    same [dim], gives a table that builds. *)
Lemma build_index_updated (rows : list Db.Row) (ix : RagIndex) (new r : Db.Row) :
  build_index rows = Ok ix -> In r rows -> Db.dim new = Db.dim r ->
  (0 <= Db.dim new)%Z -> decodable new = true ->
  exists ix', build_index (updated new rows) = Ok ix'.
Proof.
  intros Hb Hin Hdim Hpos Hdec.
  apply build_index_inv in Hb. destruct Hb as ((r0 & rest & -> & Hall & _) & _ & _).
  assert (Hd0 : Db.dim r0 = Db.dim new).
  { rewrite Forall_forall in Hall. destruct (Hall _ Hin) as [Hd _]. congruence. }
  assert (Hall' : Forall (loadable (Db.dim new)) (updated new (r0 :: rest))).
  { unfold updated. rewrite Forall_map. rewrite Hd0 in Hall.
    eapply Forall_impl; [|exact Hall]. intros x [Hx Hdx].
    destruct (Db.key_eqb (Db.key_of x) (Db.key_of new)); split; auto. }
  unfold updated in *. cbn [map] in *.
  set (u := fun x => if Db.key_eqb (Db.key_of x) (Db.key_of new)
                     then Db.do_update new x else x) in *.
  assert (Hdu : Db.dim (u r0) = Db.dim new).
  { inversion Hall' as [|? ? [Hx _] _]. exact Hx. }
  apply (build_index_ok (u r0) (map u rest)).
  - rewrite Hdu. exact Hpos.
  - rewrite Hdu. exact Hall'.
Qed.

(** C3.  After a store that returned a response, a second store with the
    same natural key (validated and embedded) rewrites that row's
    priority, text, embedding, dim and created_at and leaves its id as
    it was; whenever the second call returns a response it carries the
    id of the first, and it does return one when the embedding has the
    dimension of the first. *)
Theorem store_same_key_keeps_id (env1 env2 : StoreEnv) (req1 req2 : StoreRequest)
        (w w1 : World) (resp1 : StoreResponse) (m : Encoder) (v2 : vec) :
  store env1 req1 w = (w1, Ok resp1) ->
  sr_source_path req2 = sr_source_path req1 -> sr_kind req2 = sr_kind req1 ->
  sr_chunk_index req2 = sr_chunk_index req1 ->
  model (app w) = Some m ->
  in_priorities (normalized_priority req2) = true -> m (sr_text req2) = Some v2 ->
  (exists t2 r,
     db (fst (store env2 req2 w1)) = Db.Present t2 /\
     find (fun r => Db.key_eqb (Db.key_of r) (Db.key_of (new_row env2 req2 v2)))
          (Db.rows t2) = Some r /\
     Db.id r = resp_id resp1 /\
     Db.priority r = Some (normalized_priority req2) /\ Db.text r = sr_text req2 /\
     Db.emb r = v2 /\ Db.dim r = Z.of_nat (length v2) /\
     Db.created_at r = env_created_at env2) /\
  (forall resp2, snd (store env2 req2 w1) = Ok resp2 -> resp_id resp2 = resp_id resp1) /\
  (Z.of_nat (length v2) = resp_dim resp1 ->
   exists resp2, snd (store env2 req2 w1) = Ok resp2 /\ resp_id resp2 = resp_id resp1).
Proof.
  intros Hs1 Hsp Hk Hci Hm Hp2 Hv2.
  destruct (store_ok_inv env1 req1 w w1 resp1 Hs1)
    as (m' & v1 & t & r & ix & Hm' & Hv1 & _ & Happ & Hdb & Ht & Hb & Hf & Hc & ->).
  rewrite Hm in Hm'. inversion Hm'; subst m'; clear Hm'.
  assert (Hkey : Db.key_of (new_row env2 req2 v2) = Db.key_of (new_row env1 req1 v1)).
  { unfold Db.key_of, new_row. cbn. now rewrite Hsp, Hk, Hci. }
  rewrite <- Hkey in Hf.
  assert (Hr1 : ready (app w1) = true) by (rewrite Happ; reflexivity).
  assert (Hm1 : model (app w1) = Some m) by (rewrite Happ; reflexivity).
  assert (Hfit : Db.int64 (sr_chunk_index req2) = true).
  { rewrite Hci. exact (store_ok_fits _ _ _ _ _ Hs1). }
  destruct (store_on_existing_key env2 req2 w1 m v2 t r Hr1 Hm1 Hp2 Hv2 Hfit Hdb Ht Hf)
    as (Hdb2 & Hf2 & Hresp).
  cbn [resp_id resp_dim].
  set (t' := Db.mkTable (updated (new_row env2 req2 v2) (Db.rows t)) true) in *.
  split; [|split].
  - eexists. eexists. split; [exact Hdb2|]. split; [exact Hf2|].
    cbn. repeat split; reflexivity.
  - intros resp2 Hr2. rewrite Hresp in Hr2.
    destruct (build_index (Db.rows t')); inversion Hr2. reflexivity.
  - intros Hdim. rewrite Hresp.
    destruct (find_key_exists _ _ _ Hf) as (_ & Hin & _).
    destruct (build_index_updated (Db.rows t) ix (new_row env2 req2 v2) r Hb Hin)
      as (ix' & Hb'); cbn [Db.dim new_row]; auto; try lia.
    + unfold decodable. cbn [Db.dim Db.emb new_row].
      apply orb_true_iff. right. apply Z.leb_le. lia.
    + unfold t'. cbn [Db.rows]. rewrite Hb'. eexists. split; reflexivity.
Qed.

End StoreClaims.

Section ExampleStore.
Import Np Service Snapshot.

Lemma example_build_x : build_index (Db.rows Example.table_x) = Ok Example.snapshot_x.
Proof.
  unfold build_index, Example.table_x. cbn [Db.rows].
  rewrite load_loop_ok.
  - unfold extend. cbn [fold_left].
    destruct example_row_vectors as (-> & -> & ->).
    replace (row_vector Example.row_x) with [0%R; 1%R]; [reflexivity|].
    unfold row_vector, decoded. simpl.
    now rewrite (renormalize_of_unit _ norm_e2).
  - repeat constructor.
Qed.

Lemma example_built_x : built Example.snapshot_x.
Proof.
  exists (Db.Present Example.table_x).
  rewrite (load_ok (Db.Present Example.table_x) Example.table_x) by reflexivity.
  now rewrite example_build_x.
Qed.

(** Storing the example request on the example world. *)
Lemma example_store :
  store Example.env Example.request Example.world =
  (Example.world_x, Ok (mkStoreResponse true "x1" 2)).
Proof.
  rewrite (store_persisted Example.env Example.request Example.world
             Example.encoder [0%R; 1%R]) by reflexivity.
  replace (persist (db Example.world)
             (new_row Example.env Example.request [0%R; 1%R]))
    with (Db.Present Example.table_x, @Ok failure _ ("x1"%string, 2%Z)) by reflexivity.
  rewrite (load_ok (Db.Present Example.table_x) Example.table_x) by reflexivity.
  now rewrite example_build_x.
Qed.

End ExampleStore.

(** C3 on the example store: the second write to "x.md" answers with the
    id of the first. *)
Lemma store_same_key_keeps_id_witness :
  exists resp2,
    snd (Service.store Example.env2 Example.request2 Example.world_x) = Ok resp2 /\
    Service.resp_id resp2 = "x1"%string.
Proof.
  apply (store_same_key_keeps_id Example.env Example.env2 Example.request Example.request2
           Example.world Example.world_x (Service.mkStoreResponse true "x1" 2)
           Example.encoder [1%R; 0%R] example_store);
    reflexivity.
Defined.

(** Decide the comparisons of the reference routines on numerals. *)
Ltac compare_reals :=
  repeat (simpl;
          match goal with
          | |- context [Rlt_dec ?a ?b] =>
              destruct (Rlt_dec a b); try (exfalso; unfold Np.at_ in *; simpl in *; lra)
          end).

Section RefRuns.
Import Np Service Snapshot.
Local Open Scope R_scope.

Lemma example_scores_cow :
  all_scores Example.snapshot [1; 0] = [0; 0; 1].
Proof. unfold all_scores. simpl. repeat f_equal; lra. Qed.

Lemma tie_scores_cow :
  all_scores Example.tie_snapshot [1; 0] = [-1; -1; 0; 1].
Proof. unfold all_scores. simpl. repeat f_equal; lra. Qed.

Lemma tie_matvec_cow :
  matvec (emb_matrix Example.tie_snapshot) [1; 0] = Ok [-1; -1; 0; 1].
Proof. unfold matvec. simpl. repeat f_equal; lra. Qed.

Lemma tie_top3 :
  top_indices [-1; -1; 0; 1] 3 = Ok [3%nat; 2%nat; 1%nat].
Proof.
  unfold top_indices. simpl. unfold NpRef.argpartition. simpl.
  compare_reals. unfold NpRef.argsort. simpl. compare_reals. reflexivity.
Qed.

End RefRuns.

Section Determinism.
Context `{Np.NumpySort} `{Np.Float32}.
Import Np Service Snapshot Lifecycle.

Lemma retrieve_reads_only (q : Query) (w : World) : fst (retrieve q w) = w.
Proof.
  unfold retrieve. destruct (ready (app w)); simpl; auto.
  destruct (model (app w)) as [m|]; auto.
  destruct (index (app w)); auto.
  destruct (m (query q)); auto.
Qed.

(** A retrieve leaves the world as it found it. *)
Lemma run_of_retrieves (qs : list Query) (w : World) : run (map Retrieve qs) w = w.
Proof.
  induction qs as [|q' qs IH]; [reflexivity|].
  unfold run in *. cbn [map fold_left handle]. now rewrite retrieve_reads_only.
Qed.

End Determinism.

Section SelfSimilarity.
Context `{Np.NumpySort} `{Np.Float32}.
Import Np Service Snapshot.
Local Open Scope R_scope.

Lemma unique_keys_inj (rows : list Db.Row) (r1 r2 : Db.Row) :
  Db.unique_keys rows = true -> In r1 rows -> In r2 rows ->
  Db.key_of r1 = Db.key_of r2 -> r1 = r2.
Proof.
  induction rows as [|r rows IH]; intros Hu H1 H2 Hk; [destruct H1|].
  cbn [Db.unique_keys] in Hu. apply andb_true_iff in Hu. destruct Hu as [Hn Hu].
  apply negb_true_iff in Hn.
  assert (Hclash : forall r', In r' rows -> Db.key_of r = Db.key_of r' -> False).
  { intros r' Hin Heq.
    assert (existsb (fun r' => Db.key_eqb (Db.key_of r) (Db.key_of r')) rows = true);
      [|congruence].
    apply existsb_exists. exists r'. split; auto. now apply key_eqb_eq. }
  destruct H1 as [<-|H1], H2 as [<-|H2]; auto.
  - exfalso. eapply Hclash; eauto.
  - exfalso. eapply Hclash; eauto.
Qed.

(** The row a store wrote for the embedding [e]: its matrix row is [e]
    after the loader's re-normalization. *)
Lemma stored_row_vector (new r : Db.Row) (e : vec) :
  carries new r -> Db.emb new = e -> Db.dim new = Z.of_nat (length e) ->
  row_vector r = renormalize e.
Proof.
  intros (_ & _ & Hemb & Hdim & _) He Hd.
  unfold row_vector, decoded. rewrite Hdim, Hemb, He, Hd.
  destruct (Z.ltb_spec (Z.of_nat (length e)) 0); [lia|].
  now rewrite Nat2Z.id, firstn_all.
Qed.

(** The score of an embedding against its own re-normalized image is 1
    up to the accuracy of the arithmetic. *)
Lemma self_score_about_one (tau eps u gamma : R) (e : vec) :
  0 <= tau <= 1 -> 0 <= eps < 1 -> 0 <= u <= 1 -> 0 <= gamma ->
  gamma * (1 + u) <= 1 - u ->
  Rabs (norm e - 1) <= tau -> normalizes eps u e ->
  dot_accurate gamma (renormalize e) e ->
  score_lo tau eps u gamma <= dot32 (renormalize e) e <= score_hi tau eps u gamma.
Proof.
  intros Htau Heps Hu Hg Hgu Hunit (n & Hv & Hn & Hacc & Hdiv) Hdot.
  unfold dot_accurate in Hdot. rewrite (renormalize_divides e n Hv Hn) in *.
  unfold score_lo, score_hi.
  now apply (self_score_bounds div32 e n eps u Hn Heps Hu Hacc Hdiv tau gamma).
Qed.

(** C6 (amended).  After a store of chunk X that returned a response,
    a retrieve with X's text as query, a positive [topk] and a kind
    filter that admits X's kind returns a non-empty sequence, best score
    first, whose first record scores at least what X scores against its
    own text; the first record is X itself when every other candidate
    row scores strictly less than X.  X's score is 1 within the
    tolerance of the arithmetic: between [score_lo] and [score_hi] when
    the embedding has unit length up to [tau] and its norm, the
    quotients by the norm and the dot product are computed to the
    relative accuracies [eps], [u] and [gamma]. *)
Theorem stored_chunk_scores_about_one (env : StoreEnv) (req : StoreRequest)
        (w w1 : World) (resp : StoreResponse) (m : Encoder) (e : vec) (q : Query) :
  store env req w = (w1, Ok resp) ->
  model (app w) = Some m -> m (sr_text req) = Some e ->
  query q = sr_text req -> (1 <= topk q)%Z ->
  is_candidate (q_kind q) (sr_kind req) = true ->
  exists c rest,
    retrieve q w1 = (w1, Ok (c :: rest)) /\
    dot32 (renormalize e) e <= score c /\
    Forall (fun c' => score c' <= score c) rest /\
    (forall tau eps u gamma,
       0 <= tau <= 1 -> 0 <= eps < 1 -> 0 <= u <= 1 -> 0 <= gamma ->
       gamma * (1 + u) <= 1 - u ->
       Rabs (norm e - 1) <= tau -> normalizes eps u e ->
       dot_accurate gamma (renormalize e) e ->
       score_lo tau eps u gamma <= dot32 (renormalize e) e
       <= score_hi tau eps u gamma) /\
    forall t, db w1 = Db.Present t ->
      (forall r, In r (Db.rows t) ->
                 Db.key_of r <> Db.key_of (new_row env req e) ->
                 is_candidate (q_kind q) (Db.kind r) = true ->
                 dot32 (row_vector r) e < dot32 (renormalize e) e) ->
      c = mkRetrievedChunk (dot32 (renormalize e) e) (sr_source_path req)
            (sr_kind req) (sr_chunk_index req) (normalized_priority req)
            (sr_text req).
Proof.
  intros Hs Hm He Hq Hk Hcand.
  destruct (store_ok_inv env req w w1 resp Hs)
    as (m' & v & t & r & ix & Hm' & Hv & Hp & Happ & Hdb & Ht & Hb & Hf & Hc & _).
  rewrite Hm in Hm'. inversion Hm'; subst m'; clear Hm'.
  rewrite He in Hv. inversion Hv; subst v; clear Hv.
  destruct (find_key_exists _ _ _ Hf) as (_ & Hin & Hkey).
  pose proof (stored_row_vector _ r e Hc eq_refl eq_refl) as Hrv.
  destruct (build_index_inv _ _ Hb) as ((r0 & rest0 & Hrows & Hall & Hshape) & Hsnap & Hal).
  (* every row has the length of [e] *)
  assert (Hdim0 : Db.dim r0 = Z.of_nat (length e)).
  { rewrite Forall_forall in Hall. destruct (Hall _ Hin) as [Hd _].
    destruct Hc as (_ & _ & _ & Hdr & _). cbn in Hdr. congruence. }
  assert (Hlenrow : forall x, In x (Db.rows t) -> length (row_vector x) = length e).
  { intros x Hx. rewrite Forall_forall in Hall.
    rewrite (length_row_vector (Db.dim r0) x (Hall _ Hx)) by lia.
    rewrite Hdim0. apply Nat2Z.id. }
  assert (Hshape' : shape1 (emb_matrix ix) = length e).
  { rewrite Hshape. apply Hlenrow. rewrite Hrows. now left. }
  assert (Hne : mrows (emb_matrix ix) <> []).
  { destruct Hsnap as (_ & _ & _ & _ & _ & Hmx). rewrite Hmx, Hrows. discriminate. }
  destruct (search_spec ix e (topk q) (q_kind q) Hal Hne Hshape' Hk)
    as (idxs & Hsearch & Hlen & _ & Hincl & Hdesc & Hmax).
  (* the stored row is a candidate *)
  destruct (In_nth_error _ _ Hin) as (iX & HiX).
  assert (HcandX : In iX (candidates ix (q_kind q))).
  { apply candidates_spec. destruct Hsnap as (_ & Hkinds & _).
    rewrite Hkinds, length_map. split.
    - apply nth_error_Some. congruence.
    - erewrite nth_error_nth; [|rewrite nth_error_map, HiX; reflexivity].
      replace (Db.kind r) with (sr_kind req); [exact Hcand|].
      unfold Db.key_of in Hkey. cbn in Hkey. now inversion Hkey. }
  (* scores of rows *)
  assert (Hscore : forall i x, nth_error (Db.rows t) i = Some x ->
                               at_ (all_scores ix e) i = dot32 (row_vector x) e).
  { intros i x Hx. pose proof (snapshot_chunk _ ix e i x Hsnap Hx) as Hch.
    apply (f_equal score) in Hch. exact Hch. }
  assert (HscoreX : at_ (all_scores ix e) iX = dot32 (renormalize e) e).
  { now rewrite (Hscore _ _ HiX), Hrv. }
  (* the result is not empty, and its head scores no less than X *)
  destruct idxs as [|i0 idxs].
  { exfalso. rewrite candidate_count_length in Hlen.
    destruct (candidates ix (q_kind q)); [destruct HcandX|].
    simpl in Hlen. lia. }
  assert (Hhead : Forall (fun i => at_ (all_scores ix e) i <= at_ (all_scores ix e) i0)
                         idxs).
  { unfold descending in Hdesc. cbn [map] in Hdesc.
    apply StronglySorted_inv in Hdesc. destruct Hdesc as [_ Hhd].
    rewrite Forall_map in Hhd. eapply Forall_impl; [|exact Hhd].
    intros i Hi. cbn in Hi. lra. }
  assert (Hi0 : dot32 (renormalize e) e <= at_ (all_scores ix e) i0).
  { rewrite <- HscoreX.
    destruct (in_dec Nat.eq_dec iX (i0 :: idxs)) as [Hin'|Hout].
    - destruct Hin' as [->|Hin']; [lra|].
      rewrite Forall_forall in Hhead. now apply Hhead.
    - apply Hmax; auto. now left. }
  exists (chunk_at ix (all_scores ix e) i0), (map (chunk_at ix (all_scores ix e)) idxs).
  assert (Hr1 : retrieve q w1 = (w1, uncaught (search ix e (topk q) (q_kind q)))).
  { apply (retrieve_ready w1 q m ix e); rewrite ?Happ; auto. now rewrite Hq. }
  split; [|split; [|split; [|split]]].
  - rewrite Hr1, Hsearch. reflexivity.
  - exact Hi0.
  - rewrite Forall_map. exact Hhead.
  - intros tau eps u gamma. apply self_score_about_one.
  - intros t' Hdb' Hbest. rewrite Hdb in Hdb'. inversion Hdb'; subst t'.
    assert (Hc0 : In i0 (candidates ix (q_kind q))) by (apply Hincl; now left).
    destruct (snapshot_candidate_row _ ix _ i0 Hsnap Hc0) as (x & Hx & Hxc).
    assert (Hxin : In x (Db.rows t)) by (eapply nth_error_In; eauto).
    assert (x = r).
    { destruct (Db.key_eqb (Db.key_of x) (Db.key_of (new_row env req e))) eqn:Hxk.
      - apply key_eqb_eq in Hxk.
        apply (unique_keys_inj (Db.rows t)); auto.
        + apply ensure_schema_inv in Ht. destruct Ht as (t0 & Heq & Hu & _).
          now inversion Heq; subst t0.
        + now rewrite Hxk, Hkey.
      - exfalso.
        assert (Hlt : dot32 (row_vector x) e < dot32 (renormalize e) e).
        { apply Hbest; auto. intros Heq. apply key_eqb_eq in Heq. congruence. }
        rewrite <- (Hscore _ _ Hx) in Hlt. lra. }
    subst x.
    rewrite (snapshot_chunk _ ix e i0 r Hsnap Hx).
    unfold chunk_of, entry_of. cbn. rewrite Hrv.
    destruct Hc as (Hpr & Htx & _). cbn in Hpr, Htx.
    unfold Db.key_of in Hkey. cbn in Hkey. inversion Hkey as [[Hsp' Hk' Hci']].
    rewrite Hsp', Hk', Hci', Hpr, Htx.
    unfold load_priority. now rewrite Hp.
Qed.

End SelfSimilarity.

Section SelfScoreRuns.
Import Np Service Snapshot.
Local Open Scope R_scope.

Lemma e2_normalizes : normalizes 0 0 [0; 1].
Proof.
  exists 1. split; [|split; [lra|split]].
  - pose proof (ref_norm32_in_range [0; 1]) as Hv. rewrite norm_e2 in Hv.
    apply Hv. rewrite (unit_dot_self _ norm_e2). exact one_in_range.
  - rewrite norm_e2, Rminus_diag, Rabs_R0. lra.
  - intros x _. cbn [div32 ref_float32]. rewrite Rminus_diag, Rabs_R0. lra.
Qed.

Lemma ref_dot_accurate (a b : vec) : dot_accurate 0 a b.
Proof.
  unfold dot_accurate. cbn [dot32 ref_float32].
  rewrite Rminus_diag, Rabs_R0. lra.
Qed.

End SelfScoreRuns.

(** C6 on the example store, in the reference arithmetic: after "x.md"
    is stored, a retrieve of its text answers with a first record that
    scores no less than "x.md" does, and "x.md" scores 1. *)
Lemma stored_chunk_scores_about_one_witness :
  exists c rest,
    Service.retrieve (Service.mkQuery "hay was delivered" 1 None) Example.world_x
      = (Example.world_x, Ok (c :: rest)) /\
    (Np.dot32 (Service.renormalize [0%R; 1%R]) [0%R; 1%R] <= Service.score c)%R /\
    (1 <= Np.dot32 (Service.renormalize [0%R; 1%R]) [0%R; 1%R] <= 1)%R.
Proof.
  destruct (stored_chunk_scores_about_one Example.env Example.request Example.world
              Example.world_x (Service.mkStoreResponse true "x1" 2) Example.encoder
              [0%R; 1%R] (Service.mkQuery "hay was delivered" 1 None)
              example_store eq_refl eq_refl eq_refl)
    as (c & rest & Hr & Hs & _ & Hacc & _).
  - simpl. lia.
  - reflexivity.
  - exists c, rest. split; [exact Hr|]. split; [exact Hs|].
    assert (H1 : Snapshot.score_lo 0 0 0 0 = 1%R)
      by (unfold Snapshot.score_lo; field).
    assert (H2 : Snapshot.score_hi 0 0 0 0 = 1%R)
      by (unfold Snapshot.score_hi; field).
    assert (Hunit : (Rabs (Np.norm [0; 1] - 1) <= 0)%R)
      by (rewrite norm_e2, Rminus_diag, Rabs_R0; lra).
    pose proof (Hacc 0%R 0%R 0%R 0%R ltac:(lra) ltac:(lra) ltac:(lra) ltac:(lra)
                  ltac:(lra) Hunit e2_normalizes (ref_dot_accurate _ _)) as Hb.
    rewrite H1, H2 in Hb. exact Hb.
Defined.

Section RefRunsStored.
Import Np Service Snapshot.
Local Open Scope R_scope.

Lemma example_matvec_hay :
  matvec (emb_matrix Example.snapshot_x) [0; 1] = Ok [1; 1; 0; 1].
Proof. unfold matvec. simpl. repeat f_equal; lra. Qed.

Lemma example_top1 :
  top_indices [1; 1; 0; 1] 1 = Ok [0%nat].
Proof.
  unfold top_indices. simpl. unfold NpRef.argpartition. simpl.
  compare_reals. reflexivity.
Qed.

End RefRunsStored.

(** Against C6 as stated: chunk X ("x.md") is stored with the text of
    two older chunks; with the reference routines a retrieve of that text
    with [topk] 1 returns the oldest of the three, "a.md", with score 1,
    and not X. *)
Lemma stored_chunk_not_ranked_first :
  Service.store Example.env Example.request Example.world
    = (Example.world_x, Ok (Service.mkStoreResponse true "x1" 2)) /\
  Service.sr_text Example.request = "hay was delivered"%string /\
  Service.sr_source_path Example.request = "x.md"%string /\
  snd (Service.retrieve (Service.mkQuery "hay was delivered" 1 None) Example.world_x)
    = Ok [Service.mkRetrievedChunk 1%R "a.md" "journal" 0 "normal" "hay was delivered"].
Proof.
  split; [exact example_store|]. split; [reflexivity|]. split; [reflexivity|].
  rewrite (retrieve_ready Example.world_x
             (Service.mkQuery "hay was delivered" 1 None)
             Example.encoder Example.snapshot_x [0%R; 1%R] eq_refl eq_refl eq_refl).
  cbn [snd Service.topk Service.q_kind]. unfold Service.search.
  rewrite example_matvec_hay. cbn [bind].
  rewrite example_top1. reflexivity.
Qed.

(** ** The snapshot a running service holds *)

Section Reachable.
Context `{Np.NumpySort} `{Np.Float32}.
Import Np Service Snapshot Lifecycle.

(** The snapshot in [state] is always one the index builder returned:
    no handler assigns [state.index] anything else. *)
Lemma handle_keeps_built (rq : Request) (w : World) :
  (forall ix, index (app w) = Some ix -> built ix) ->
  forall ix, index (app (handle rq w)) = Some ix -> built ix.
Proof.
  intros Hinv ix. destruct rq as [m now|now|env req|q]; cbn [handle].
  - unfold _startup.
    destruct (if Db.exists_ (db w)
              then match Db._ensure_schema (Db._db_connect (db w)) with
                   | Ok t => Ok (Db.Present t)
                   | Err e => Err e
                   end
              else Ok (db w)) as [d1|e0]; [|apply Hinv].
    destruct (m "warmup"%string); [|apply Hinv].
    destruct (_load_index_from_db d1) as [d2 [ix'|e1]] eqn:Hload; cbn; [|apply Hinv].
    intros Hx. inversion Hx; subst ix'. exists d1. now rewrite Hload.
  - unfold reload_index. destruct (model (app w)); [|apply Hinv].
    destruct (_load_index_from_db (db w)) as [d2 [ix'|e1]] eqn:Hload; cbn; [|apply Hinv].
    intros Hx. inversion Hx; subst ix'. exists (db w). now rewrite Hload.
  - unfold store. destruct (negb (ready (app w))); [apply Hinv|].
    destruct (model (app w)) as [m|]; [|apply Hinv].
    destruct (negb (in_priorities (normalized_priority req))); [apply Hinv|].
    destruct (m (sr_text req)) as [v|]; [|apply Hinv].
    destruct (persist (db w) (new_row env req v)) as [d1 [[sid sdim]|f]]; [|apply Hinv].
    destruct (_load_index_from_db d1) as [d2 [ix'|e1]] eqn:Hload; cbn; [|apply Hinv].
    intros Hx. inversion Hx; subst ix'. exists d1. now rewrite Hload.
  - rewrite retrieve_reads_only. apply Hinv.
Qed.

Lemma run_keeps_built (rqs : list Request) (w : World) :
  (forall ix, index (app w) = Some ix -> built ix) ->
  forall ix, index (app (run rqs w)) = Some ix -> built ix.
Proof.
  revert w. induction rqs as [|rq rqs IH]; intros w Hinv; [exact Hinv|].
  unfold run. cbn [fold_left]. apply IH. now apply handle_keeps_built.
Qed.

(** From the fresh process on, whatever the file holds at the start. *)
Lemma reachable_snapshot_built (d : Db.File) (rqs : list Request) (ix : RagIndex) :
  index (app (run rqs (mkWorld (mkAppState None None None) d))) = Some ix ->
  built ix.
Proof.
  apply run_keeps_built. cbn. discriminate.
Qed.

End Reachable.

(** * Further properties of the service *)

Section StoreFrame.
Context `{Np.Float32}.
Import Np Service Snapshot Effects.

Lemma updated_other_keys (new : Db.Row) (rows : list Db.Row) :
  other_keys (Db.key_of new) (updated new rows) = other_keys (Db.key_of new) rows.
Proof.
  unfold other_keys, updated. induction rows as [|r rows IH]; [reflexivity|].
  cbn [map filter]. rewrite key_of_updated.
  destruct (Db.key_eqb (Db.key_of r) (Db.key_of new)) eqn:Hk; cbn [negb]; auto.
  now rewrite IH.
Qed.

Lemma appended_other_keys (new : Db.Row) (rows : list Db.Row) :
  other_keys (Db.key_of new) (rows ++ [new]) = other_keys (Db.key_of new) rows.
Proof.
  unfold other_keys. rewrite filter_app. cbn [filter].
  rewrite key_eqb_refl. cbn [negb]. apply app_nil_r.
Qed.

(** How an upsert that succeeds changes the table. *)
Lemma upsert_shape (t t2 : Db.Table) (new : Db.Row) :
  Db.upsert t new = Ok t2 ->
  Db.has_priority t2 = Db.has_priority t /\
  ((has_key (Db.key_of new) (Db.rows t) = true /\
    Db.rows t2 = updated new (Db.rows t)) \/
   (has_key (Db.key_of new) (Db.rows t) = false /\
    has_id (Db.id new) (Db.rows t) = false /\
    Db.rows t2 = Db.rows t ++ [new])).
Proof.
  intros Hup. rewrite (upsert_fits _ _ (upsert_ok_fits _ _ _ Hup)) in Hup.
  revert Hup. unfold has_key, has_id.
  destruct (existsb (fun r => Db.key_eqb (Db.key_of r) (Db.key_of new)) (Db.rows t)).
  - intros Hx. inversion Hx. split; auto.
  - destruct (existsb (fun r => String.eqb (Db.id r) (Db.id new)) (Db.rows t));
      [discriminate|].
    intros Hx. inversion Hx. split; auto.
Qed.

(** Under unique keys the rows of a key are the one [find] returns. *)
Lemma of_key_unique (k : Db.key) (rows : list Db.Row) (r : Db.Row) :
  Db.unique_keys rows = true ->
  find (fun r => Db.key_eqb (Db.key_of r) k) rows = Some r ->
  of_key k rows = [r].
Proof.
  unfold of_key. induction rows as [|x rows IH]; [discriminate|].
  cbn [Db.unique_keys find filter]. intros Hu Hf.
  apply andb_true_iff in Hu. destruct Hu as [Hn Hu]. apply negb_true_iff in Hn.
  destruct (Db.key_eqb (Db.key_of x) k) eqn:Hk.
  - inversion Hf; subst x. f_equal.
    apply key_eqb_eq in Hk. subst k.
    clear - Hn. induction rows as [|y rows IH]; [reflexivity|].
    cbn [existsb filter] in *. apply orb_false_iff in Hn. destruct Hn as [Hy Hn].
    replace (Db.key_eqb (Db.key_of y) (Db.key_of r)) with false; auto.
    symmetry. apply not_true_is_false. intros E. apply key_eqb_eq in E.
    rewrite E, key_eqb_refl in Hy. discriminate.
  - auto.
Qed.

(** A store that wrote, read backwards: the request was validated and
    embedded, the schema was in place, the upsert went through and the
    file holds its result. *)
Lemma store_wrote_inv (env : StoreEnv) (req : StoreRequest) (w : World) :
  wrote (snd (store env req w)) ->
  exists m v t1 t2,
    ready (app w) = true /\ model (app w) = Some m /\
    in_priorities (normalized_priority req) = true /\ m (sr_text req) = Some v /\
    Db._ensure_schema (Db._db_connect (db w)) = Ok t1 /\
    Db.upsert t1 (new_row env req v) = Ok t2 /\
    db (fst (store env req w)) = Db.Present t2 /\
    Db._ensure_schema (Db.Present t2) = Ok t2.
Proof.
  unfold store.
  destruct (ready (app w)) eqn:Hr; cbn [negb]; [|intros []].
  destruct (model (app w)) as [m|] eqn:Hm; [|intros []].
  destruct (in_priorities (normalized_priority req)) eqn:Hp; cbn [negb]; [|intros []].
  destruct (m (sr_text req)) as [v|] eqn:Hv; [|intros []].
  destruct (persist (db w) (new_row env req v)) as [d1 [[sid sdim]|f]] eqn:Hpersist.
  - intros _. apply persist_inv in Hpersist.
    destruct Hpersist as (t1 & t2 & Hschema & Hup & -> & _).
    destruct (upsert_select t1 t2 _ Hup) as (Hhp & Hu & _).
    assert (Ht2 : Db._ensure_schema (Db.Present t2) = Ok t2).
    { pose proof (ensure_schema_has_priority _ _ Hschema) as Hp1.
      apply ensure_schema_inv in Hschema. destruct Hschema as (t0 & _ & Hu0 & ->).
      cbn [Db.rows Db.has_priority] in *.
      assert (Hu1 : Db.unique_keys (migrated t0) = true).
      { unfold migrated. destruct (Db.has_priority t0); auto.
        now rewrite unique_keys_set_priority. }
      unfold Db._ensure_schema. rewrite (Hu Hu1), Hhp. reflexivity. }
    exists m, v, t1, t2. repeat split; auto.
    rewrite (load_ok _ _ Ht2).
    destruct (build_index (Db.rows t2)); reflexivity.
  - cbn [snd]. intros Hw. exfalso.
    unfold persist in Hpersist.
    destruct (Db._ensure_schema (Db._db_connect (db w))) as [t1|[]];
      try (inversion Hpersist; subst; exact Hw).
    destruct (Db.upsert t1 (new_row env req v)) as [t2|[]] eqn:Hup;
      try (inversion Hpersist; subst; exact Hw).
    destruct (upsert_select t1 t2 _ Hup) as (_ & _ & r & _ & _ & Hsel).
    rewrite Hsel in Hpersist. inversion Hpersist.
Qed.

End StoreFrame.

Section StoreEffects.
Context `{Np.Float32}.
Import Np Service Snapshot Effects.

Lemma ensure_schema_unique (d : Db.File) (t : Db.Table) :
  Db._ensure_schema d = Ok t -> Db.unique_keys (Db.rows t) = true.
Proof.
  intros Ht. apply ensure_schema_inv in Ht. destruct Ht as (t0 & _ & Hu & ->).
  cbn [Db.rows]. unfold migrated. destruct (Db.has_priority t0); auto.
  now rewrite unique_keys_set_priority.
Qed.

(** A table that went through the migration and an upsert passes the
    migration unchanged. *)
Lemma upsert_schema_fixed (d : Db.File) (t1 t2 : Db.Table) (new : Db.Row) :
  Db._ensure_schema d = Ok t1 -> Db.upsert t1 new = Ok t2 ->
  Db._ensure_schema (Db.Present t2) = Ok t2.
Proof.
  intros Hschema Hup.
  destruct (upsert_select t1 t2 _ Hup) as (Hhp & Hu & _).
  rewrite (ensure_schema_has_priority _ _ Hschema) in Hhp.
  unfold Db._ensure_schema.
  rewrite (Hu (ensure_schema_unique _ _ Hschema)), Hhp. reflexivity.
Qed.

Lemma same_rows_connect_failed (d : Db.File) (e : py_exn) :
  Db._ensure_schema (Db._db_connect d) = Err e -> same_rows d (Db._db_connect d).
Proof.
  intros _. destruct d; cbn; unfold same_rows; auto.
Qed.

Lemma same_rows_migrated (d : Db.File) (t1 : Db.Table) :
  Db._ensure_schema (Db._db_connect d) = Ok t1 -> same_rows d (Db.Present t1).
Proof.
  intros Ht. apply ensure_schema_inv in Ht. destruct Ht as (t0 & Hd & _ & ->).
  destruct d; cbn in Hd; try discriminate. inversion Hd; subst.
  right. right. eauto.
Qed.

(** A store that did not write left [state] alone and the rows of the
    table as they were. *)
Lemma store_frame (env : StoreEnv) (req : StoreRequest) (w : World) :
  ~ wrote (snd (store env req w)) ->
  app (fst (store env req w)) = app w /\
  same_rows (db w) (db (fst (store env req w))).
Proof.
  unfold store.
  destruct (ready (app w)); cbn [negb]; [|intros _; split; [|left]; reflexivity].
  destruct (model (app w)) as [m|]; [|intros _; split; [|left]; reflexivity].
  destruct (in_priorities (normalized_priority req)); cbn [negb];
    [|intros _; split; [|left]; reflexivity].
  destruct (m (sr_text req)) as [v|]; [|intros _; split; [|left]; reflexivity].
  unfold persist.
  destruct (Db._ensure_schema (Db._db_connect (db w))) as [t1|e] eqn:Hschema.
  - destruct (Db.upsert t1 (new_row env req v)) as [t2|e] eqn:Hup.
    + destruct (upsert_select t1 t2 _ Hup) as (_ & _ & r & _ & _ & Hsel).
      rewrite Hsel.
      destruct (_load_index_from_db (Db.Present t2)) as [d2 [ix|e]]; cbn;
        intros Hn; exfalso; apply Hn; exact I.
    + intros _.
      assert (Hres : forall f, fst (mkWorld (app w) (Db.Present t1), @Err failure StoreResponse f)
                              = mkWorld (app w) (Db.Present t1)) by reflexivity.
      destruct e; cbn; (split; [reflexivity | now apply same_rows_migrated]).
  - intros _. pose proof (same_rows_connect_failed _ _ Hschema) as Hsame.
    destruct e; cbn; (split; [reflexivity | exact Hsame]).
Qed.

(** X1.  A store that ends with anything but a response or the
    stale-cache error (not ready, invalid priority, embedding failure,
    integrity or database error) has changed neither [state] nor a row
    of the table: the file is as before, or newly created and empty, or
    has only gained the [priority] column. *)
Theorem store_failure_writes_nothing (env : StoreEnv) (req : StoreRequest)
        (w : World) (f : failure) :
  snd (store env req w) = Err f ->
  (forall s e, f <> HTTPException s (StoredButReloadFailed e)) ->
  app (fst (store env req w)) = app w /\
  same_rows (db w) (db (fst (store env req w))).
Proof.
  intros Hf Hne. apply store_frame. rewrite Hf. cbn.
  destruct f as [s [] | e]; auto. intros _. apply (Hne s cause). reflexivity.
Qed.

(** X2.  The answer "Store succeeded but row not found" is never given:
    the [SELECT] that follows a committed upsert always finds the row. *)
Theorem store_never_row_not_found (env : StoreEnv) (req : StoreRequest)
        (w : World) (s : Z) :
  snd (store env req w) <> Err (HTTPException s RowNotFound).
Proof.
  intros Hx.
  assert (Hn : ~ wrote (snd (store env req w))) by (rewrite Hx; cbn; auto).
  unfold store in Hx.
  destruct (ready (app w)); cbn [negb] in Hx; [|discriminate].
  destruct (model (app w)) as [m|]; [|discriminate].
  destruct (in_priorities (normalized_priority req)); cbn [negb] in Hx; [|discriminate].
  destruct (m (sr_text req)) as [v|]; [|discriminate].
  unfold persist in Hx.
  destruct (Db._ensure_schema (Db._db_connect (db w))) as [t1|[]];
    try discriminate.
  destruct (Db.upsert t1 (new_row env req v)) as [t2|[]] eqn:Hup; try discriminate.
  destruct (upsert_select t1 t2 _ Hup) as (_ & _ & r & _ & _ & Hsel).
  rewrite Hsel in Hx.
  destruct (_load_index_from_db (Db.Present t2)) as [d2 [ix|e]]; discriminate.
Qed.

(** X3.  A store that wrote touched the rows of its own natural key
    only: every other row of the (migrated) table is still there, in the
    same order and unchanged; the table holds exactly one row of the
    key, carrying the request's values and the embedding the loaded model
    gives the request's text; and the table has grown by one row when the
    key was new and by none when it was not. *)
Theorem store_touches_only_its_key (env : StoreEnv) (req : StoreRequest) (w : World) :
  wrote (snd (store env req w)) ->
  let k := (sr_source_path req, sr_kind req, sr_chunk_index req) in
  exists m v t1 t2 r,
    model (app w) = Some m /\ m (sr_text req) = Some v /\
    Db._ensure_schema (Db._db_connect (db w)) = Ok t1 /\
    db (fst (store env req w)) = Db.Present t2 /\
    other_keys k (Db.rows t2) = other_keys k (Db.rows t1) /\
    of_key k (Db.rows t2) = [r] /\ carries (new_row env req v) r /\
    length (Db.rows t2) =
      length (Db.rows t1) + (if has_key k (Db.rows t1) then 0 else 1).
Proof.
  intros Hw k.
  destruct (store_wrote_inv env req w Hw)
    as (m & v & t1 & t2 & _ & Hm & _ & Hv & Hschema & Hup & Hdb & Ht2).
  destruct (upsert_select t1 t2 _ Hup) as (_ & _ & r & Hf & Hc & _).
  exists m, v, t1, t2, r.
  change (Db.key_of (new_row env req v)) with k in *.
  split; [exact Hm|]. split; [exact Hv|].
  split; [exact Hschema|]. split; [exact Hdb|].
  assert (Hu2 : Db.unique_keys (Db.rows t2) = true).
  { apply ensure_schema_inv in Ht2. destruct Ht2 as (t0 & Heq & Hu & _).
    now inversion Heq; subst. }
  destruct (upsert_shape t1 t2 _ Hup) as (_ & [[Hk Hrows]|(Hk & _ & Hrows)]);
    change (Db.key_of (new_row env req v)) with k in *; rewrite Hk, Hrows.
  - split; [apply (updated_other_keys (new_row env req v))|].
    split; [rewrite <- Hrows; now apply of_key_unique|]. split; [exact Hc|].
    unfold updated. rewrite length_map. lia.
  - split; [apply (appended_other_keys (new_row env req v))|].
    split; [rewrite <- Hrows; now apply of_key_unique|]. split; [exact Hc|].
    rewrite length_app. reflexivity.
Qed.

(** X4.  A validated and embedded store on a natural key the table does
    not have.  A [chunk_index] outside 64 bits ends the request with an
    uncaught [OverflowError] and nothing is written.  Otherwise: when the
    fresh id is taken by another row the answer is 409 and nothing is
    written; when it is free the new row is appended as the last row of
    the table, and a response carries the fresh id and the length of the
    embedding. *)
Theorem store_new_key (env : StoreEnv) (req : StoreRequest) (w : World)
        (m : Encoder) (v : vec) (t1 : Db.Table) :
  ready (app w) = true -> model (app w) = Some m ->
  in_priorities (normalized_priority req) = true -> m (sr_text req) = Some v ->
  Db._ensure_schema (Db._db_connect (db w)) = Ok t1 ->
  has_key (Db.key_of (new_row env req v)) (Db.rows t1) = false ->
  (Db.int64 (sr_chunk_index req) = false ->
   store env req w =
   (mkWorld (app w) (Db.Present t1), Err (Unhandled OverflowError))) /\
  (Db.int64 (sr_chunk_index req) = true ->
   has_id (new_id env) (Db.rows t1) = true ->
   store env req w =
   (mkWorld (app w) (Db.Present t1),
    Err (HTTPException 409 (IntegrityDetail SqliteIntegrityError)))) /\
  (Db.int64 (sr_chunk_index req) = true ->
   has_id (new_id env) (Db.rows t1) = false ->
   db (fst (store env req w)) =
     Db.Present (Db.mkTable (Db.rows t1 ++ [new_row env req v]) true) /\
   wrote (snd (store env req w)) /\
   forall resp, snd (store env req w) = Ok resp ->
                resp = mkStoreResponse true (new_id env) (Z.of_nat (length v))).
Proof.
  intros Hr Hm Hp Hv Hschema Hk.
  pose proof (ensure_schema_has_priority _ _ Hschema) as Hhp.
  rewrite (store_persisted env req w m v Hr Hm Hp Hv).
  unfold persist. rewrite Hschema.
  unfold has_key, has_id in *.
  split; [|split].
  - intros Hfit. now rewrite (upsert_overflow t1 (new_row env req v) Hfit).
  - intros Hfit Hid. rewrite (upsert_fits t1 (new_row env req v) Hfit), Hk.
    change (Db.id (new_row env req v)) with (new_id env). now rewrite Hid.
  - intros Hfit Hid.
    set (t2 := Db.mkTable (Db.rows t1 ++ [new_row env req v]) true).
    assert (Hup : Db.upsert t1 (new_row env req v) = Ok t2).
    { rewrite (upsert_fits t1 (new_row env req v) Hfit), Hk.
      change (Db.id (new_row env req v)) with (new_id env).
      now rewrite Hid, Hhp. }
    rewrite Hup.
    destruct (upsert_select t1 t2 _ Hup) as (_ & Hu & r & Hf & _ & Hsel).
    assert (Hr' : r = new_row env req v).
    { unfold t2 in Hf. cbn [Db.rows] in Hf.
      clear - Hf Hk. induction (Db.rows t1) as [|x rows IH]; cbn -[Db.key_eqb Db.key_of] in *.
      - rewrite key_eqb_refl in Hf. now inversion Hf.
      - apply orb_false_iff in Hk. destruct Hk as [Hx Hk]. rewrite Hx in Hf. auto. }
    subst r. rewrite Hsel.
    pose proof (upsert_schema_fixed _ _ _ _ Hschema Hup) as Ht2.
    rewrite (load_ok _ _ Ht2).
    destruct (build_index (Db.rows t2)); cbn; repeat split; auto;
      intros resp Hx; inversion Hx; reflexivity.
Qed.

End StoreEffects.

(** X1 on the example: the fresh id "a1" is taken, the store answers 409
    and the table is as it was. *)
Lemma store_failure_writes_nothing_witness :
  Service.app (fst (Service.store Example.clash_env Example.request Example.world))
    = Service.app Example.world /\
  Effects.same_rows (Service.db Example.world)
    (Service.db (fst (Service.store Example.clash_env Example.request Example.world))).
Proof.
  apply (store_failure_writes_nothing Example.clash_env Example.request Example.world
           (HTTPException 409 (IntegrityDetail SqliteIntegrityError))).
  - reflexivity.
  - intros s e. discriminate.
Defined.

(** X3 on the example store of "x.md". *)
Lemma store_touches_only_its_key_witness :
  let k := ("x.md"%string, "journal"%string, 0%Z) in
  exists m v t1 t2 r,
    Service.model (Service.app Example.world) = Some m /\
    m (Service.sr_text Example.request) = Some v /\
    Db._ensure_schema (Db._db_connect (Service.db Example.world)) = Ok t1 /\
    Service.db (fst (Service.store Example.env Example.request Example.world))
      = Db.Present t2 /\
    Effects.other_keys k (Db.rows t2) = Effects.other_keys k (Db.rows t1) /\
    Effects.of_key k (Db.rows t2) = [r] /\
    Snapshot.carries (Service.new_row Example.env Example.request v) r /\
    length (Db.rows t2) =
      length (Db.rows t1) + (if Effects.has_key k (Db.rows t1) then 0 else 1).
Proof.
  apply (store_touches_only_its_key Example.env Example.request Example.world).
  rewrite example_store. exact I.
Defined.

(** X4 on the example store of "x.md". *)
Lemma store_new_key_witness :
  (Db.int64 (Service.sr_chunk_index Example.request) = false ->
   Service.store Example.env Example.request Example.world =
   (Service.mkWorld (Service.app Example.world) (Db.Present Example.table),
    Err (Unhandled OverflowError))) /\
  (Db.int64 (Service.sr_chunk_index Example.request) = true ->
   Effects.has_id "x1" (Db.rows Example.table) = true ->
   Service.store Example.env Example.request Example.world =
   (Service.mkWorld (Service.app Example.world) (Db.Present Example.table),
    Err (HTTPException 409 (IntegrityDetail SqliteIntegrityError)))) /\
  (Db.int64 (Service.sr_chunk_index Example.request) = true ->
   Effects.has_id "x1" (Db.rows Example.table) = false ->
   Service.db (fst (Service.store Example.env Example.request Example.world)) =
     Db.Present (Db.mkTable
       (Db.rows Example.table ++ [Service.new_row Example.env Example.request [0%R; 1%R]])
       true) /\
   Effects.wrote (snd (Service.store Example.env Example.request Example.world)) /\
   forall resp, snd (Service.store Example.env Example.request Example.world) = Ok resp ->
                resp = Service.mkStoreResponse true "x1" 2).
Proof.
  apply (store_new_key Example.env Example.request Example.world
           Example.encoder [0%R; 1%R] Example.table); reflexivity.
Defined.

Section FileEffects.
Context `{Np.NumpySort} `{Np.Float32}.
Import Np Service Snapshot Effects Lifecycle.

Lemma wrote_dec {A} (r : result failure A) : {wrote r} + {~ wrote r}.
Proof.
  destruct r as [a|[s []|e]]; cbn; auto.
Qed.

Lemma migrated_fixed (t : Db.Table) :
  migrated (Db.mkTable (migrated t) true) = migrated t.
Proof. reflexivity. Qed.

Lemma same_rows_trans (d d1 d2 : Db.File) :
  same_rows d d1 -> same_rows d1 d2 -> same_rows d d2.
Proof.
  intros [->|[[-> ->]|(t & -> & ->)]] H12; auto.
  - destruct H12 as [->|[[Hx _]|(t & Hx & _)]]; try discriminate.
    right. left. auto.
  - destruct H12 as [->|[[Hx _]|(t' & Hx & ->)]]; try discriminate.
    + right. right. eauto.
    + inversion Hx; subst t'. right. right. exists t. split; auto.
Qed.

Lemma load_same_rows (d : Db.File) : same_rows d (fst (_load_index_from_db d)).
Proof.
  rewrite load_file. destruct (Db._ensure_schema d) as [t|e] eqn:Ht; [|now left].
  apply ensure_schema_inv in Ht. destruct Ht as (t0 & -> & _ & ->).
  right. right. eauto.
Qed.

Lemma startup_same_rows (m : Encoder) (now : R) (w : World) :
  same_rows (db w) (db (fst (_startup m now w))).
Proof.
  unfold _startup.
  assert (Hs : forall d1,
             (if Db.exists_ (db w)
              then match Db._ensure_schema (Db._db_connect (db w)) with
                   | Ok t => Ok (Db.Present t)
                   | Err e => @Err py_exn Db.File e
                   end
              else Ok (db w)) = Ok d1 -> same_rows (db w) d1).
  { intros d1. destruct (Db.exists_ (db w)).
    - destruct (Db._ensure_schema (Db._db_connect (db w))) as [t|e] eqn:Ht; [|discriminate].
      intros Hx. inversion Hx; subst. now apply same_rows_migrated.
    - intros Hx. inversion Hx. now left. }
  destruct (if Db.exists_ (db w)
            then match Db._ensure_schema (Db._db_connect (db w)) with
                 | Ok t => Ok (Db.Present t)
                 | Err e => Err e
                 end
            else Ok (db w)) as [d1|e0]; [|now left].
  specialize (Hs d1 eq_refl).
  destruct (m "warmup"%string); [|exact Hs].
  pose proof (load_same_rows d1) as Hl.
  destruct (_load_index_from_db d1) as [d2 [ix|e1]]; cbn in *;
    now apply (same_rows_trans _ d1).
Qed.

Lemma reload_same_rows (now : R) (w : World) :
  same_rows (db w) (db (fst (reload_index now w))).
Proof.
  unfold reload_index. destruct (model (app w)); [|now left].
  pose proof (load_same_rows (db w)) as Hl.
  destruct (_load_index_from_db (db w)) as [d2 [ix|e1]]; exact Hl.
Qed.

Lemma store_one_upsert (env : StoreEnv) (req : StoreRequest) (w : World) :
  same_rows (db w) (db (fst (store env req w))) \/
  one_upsert (db w) (db (fst (store env req w))).
Proof.
  destruct (wrote_dec (snd (store env req w))) as [Hw|Hw].
  - right. destruct (store_wrote_inv env req w Hw)
      as (m & v & t1 & t2 & _ & _ & _ & _ & Hschema & Hup & Hdb & _).
    exists t1, (new_row env req v), t2. auto.
  - left. now apply store_frame.
Qed.

(** Every request leaves the rows as they were or makes one upsert. *)
Lemma handle_file (rq : Request) (w : World) :
  same_rows (db w) (db (handle rq w)) \/ one_upsert (db w) (db (handle rq w)).
Proof.
  destruct rq as [m now|now|env req|q]; cbn [handle].
  - left. apply startup_same_rows.
  - left. apply reload_same_rows.
  - apply store_one_upsert.
  - left. rewrite retrieve_reads_only. now left.
Qed.

End FileEffects.

Section FileInvariants.
Context `{Np.NumpySort} `{Np.Float32}.
Import Np Service Snapshot Effects Lifecycle.

Lemma map_id_migrated (t : Db.Table) :
  map Db.id (migrated t) = map Db.id (Db.rows t).
Proof.
  unfold migrated. destruct (Db.has_priority t); auto.
  rewrite map_map. reflexivity.
Qed.

Lemma row_names_migrated (t : Db.Table) :
  row_names (Db.Present (Db.mkTable (migrated t) true)) = row_names (Db.Present t).
Proof.
  cbn [row_names Db.rows]. unfold migrated. destruct (Db.has_priority t); auto.
  rewrite map_map. reflexivity.
Qed.

Lemma row_names_same_rows (d d' : Db.File) :
  same_rows d d' -> row_names d' = row_names d.
Proof.
  intros [->|[[-> ->]|(t & -> & ->)]]; auto. apply row_names_migrated.
Qed.

Lemma well_keyed_same_rows (d d' : Db.File) :
  same_rows d d' -> well_keyed d -> well_keyed d'.
Proof.
  intros [->|[[-> ->]|(t & -> & ->)]] Hd; auto.
  - intros t Hx. discriminate.
  - intros t' Hx. inversion Hx; subst t'. cbn [Db.rows].
    destruct (Hd t eq_refl) as [Hu Hn]. split.
    + unfold migrated. destruct (Db.has_priority t); auto.
      now rewrite unique_keys_set_priority.
    + now rewrite map_id_migrated.
Qed.

Lemma has_id_false (i : string) (rows : list Db.Row) :
  has_id i rows = false -> ~ In i (map Db.id rows).
Proof.
  unfold has_id. induction rows as [|r rows IH]; cbn; auto.
  intros Hx. apply orb_false_iff in Hx. destruct Hx as [Hr Hx].
  intros [Heq|Hin]; [|now apply IH].
  subst i. now rewrite String.eqb_refl in Hr.
Qed.

Lemma map_id_updated (new : Db.Row) (rows : list Db.Row) :
  map Db.id (updated new rows) = map Db.id rows.
Proof.
  unfold updated. rewrite map_map. apply map_ext. intros r.
  destruct (Db.key_eqb (Db.key_of r) (Db.key_of new)); reflexivity.
Qed.

Lemma row_names_updated (new : Db.Row) (rows : list Db.Row) :
  map (fun r => (Db.id r, Db.key_of r)) (updated new rows)
  = map (fun r => (Db.id r, Db.key_of r)) rows.
Proof.
  unfold updated. rewrite map_map. apply map_ext. intros r.
  destruct (Db.key_eqb (Db.key_of r) (Db.key_of new)); reflexivity.
Qed.

Lemma well_keyed_one_upsert (d d' : Db.File) :
  one_upsert d d' -> well_keyed d -> well_keyed d'.
Proof.
  intros (t1 & new & t2 & Hschema & Hup & ->) Hd t Hx. inversion Hx; subst t. clear Hx.
  destruct (upsert_select t1 t2 _ Hup) as (_ & Hu & _).
  split; [exact (Hu (ensure_schema_unique _ _ Hschema))|].
  assert (Hn1 : NoDup (map Db.id (Db.rows t1))).
  { apply ensure_schema_inv in Hschema. destruct Hschema as (t0 & Hc & _ & ->).
    cbn [Db.rows]. rewrite map_id_migrated.
    destruct d; cbn in Hc; try discriminate. inversion Hc; subst.
    apply (Hd t0 eq_refl). }
  destruct (upsert_shape t1 t2 _ Hup) as (_ & [[_ ->]|(_ & Hid & ->)]).
  - now rewrite map_id_updated.
  - rewrite map_app. cbn [map].
    apply NoDup_app; [exact Hn1 | repeat constructor; auto |].
    intros x Hin [<-|[]]. now apply (has_id_false _ _ Hid).
Qed.

Lemma row_names_one_upsert (d d' : Db.File) :
  one_upsert d d' -> exists more, row_names d' = row_names d ++ more.
Proof.
  intros (t1 & new & t2 & Hschema & Hup & ->).
  assert (Hn1 : row_names (Db.Present t1) = row_names d).
  { apply row_names_same_rows. now apply same_rows_migrated. }
  rewrite <- Hn1. cbn [row_names].
  destruct (upsert_shape t1 t2 _ Hup) as (_ & [[_ ->]|(_ & _ & ->)]).
  - exists []. now rewrite row_names_updated, app_nil_r.
  - rewrite map_app. eauto.
Qed.

(** X5.  No request creates a second row with the natural key or the
    [id] of another: a table in which both are unique stays so under
    every sequence of startup, reload, store and retrieve requests. *)
Theorem run_keeps_well_keyed (rqs : list Request) (w : World) :
  well_keyed (db w) -> well_keyed (db (run rqs w)).
Proof.
  revert w. induction rqs as [|rq rqs IH]; intros w Hw; [exact Hw|].
  unfold run. cbn [fold_left]. apply IH.
  destruct (handle_file rq w) as [Hs|Hu].
  - now apply (well_keyed_same_rows (db w)).
  - now apply (well_keyed_one_upsert (db w)).
Qed.

(** X6.  No request deletes, reorders or renames a row: after every
    sequence of requests the table starts with the rows it had, each
    under its [id] and natural key, followed by the rows stored since. *)
Theorem run_never_deletes (rqs : list Request) (w : World) :
  exists more, row_names (db (run rqs w)) = row_names (db w) ++ more.
Proof.
  revert w. induction rqs as [|rq rqs IH]; intros w.
  - exists []. now rewrite app_nil_r.
  - unfold run. cbn [fold_left]. destruct (IH (handle rq w)) as [more Hm].
    unfold run in Hm. rewrite Hm.
    destruct (handle_file rq w) as [Hs|Hu].
    + rewrite (row_names_same_rows _ _ Hs). eauto.
    + destruct (row_names_one_upsert _ _ Hu) as [m1 ->].
      rewrite <- app_assoc. eauto.
Qed.

End FileInvariants.

(** X5 on the example table, for a store followed by a reload. *)
Lemma run_keeps_well_keyed_witness :
  Effects.well_keyed
    (Service.db (Lifecycle.run [Lifecycle.Store Example.env Example.request;
                                Lifecycle.Reload 2%R] Example.world)).
Proof.
  apply (run_keeps_well_keyed
           [Lifecycle.Store Example.env Example.request; Lifecycle.Reload 2%R]
           Example.world).
  intros t Ht. inversion Ht; subst t. split; [reflexivity|].
  cbn. repeat constructor; cbn; intuition discriminate.
Defined.

Section ReloadAndHealth.
Context `{Np.NumpySort} `{Np.Float32}.
Import Np Service Snapshot Effects Lifecycle.

Lemma load_ok_inv (d d' : Db.File) (ix : RagIndex) :
  _load_index_from_db d = (d', Ok ix) ->
  exists t r0 rest,
    Db._ensure_schema (Db._db_connect d) = Ok t /\ d' = Db.Present t /\
    Db.rows t = r0 :: rest /\ Forall (fun r => Db.dim r = Db.dim r0) (Db.rows t) /\
    shape0 (emb_matrix ix) = length (Db.rows t) /\
    shape1 (emb_matrix ix) = length (row_vector r0) /\
    (0 <= Db.dim r0 -> shape1 (emb_matrix ix) = Z.to_nat (Db.dim r0))%Z.
Proof.
  intros Hload. apply load_inv in Hload. destruct Hload as (t & Ht & -> & Hb).
  apply build_index_inv in Hb.
  destruct Hb as ((r0 & rest & Hrows & Hall & Hs1) & Hsnap & _).
  exists t, r0, rest.
  assert (Hc : Db._db_connect d = d).
  { apply ensure_schema_inv in Ht. destruct Ht as (t0 & -> & _). reflexivity. }
  rewrite Hc. repeat split; auto.
  - apply Forall_forall. intros r Hr. rewrite Forall_forall in Hall.
    now destruct (Hall r Hr).
  - destruct Hsnap as (_ & _ & _ & _ & _ & Hm). unfold shape0. now rewrite Hm, length_map.
  - intros Hpos. rewrite Hs1. apply length_row_vector; auto.
    rewrite Forall_forall in Hall. apply Hall. rewrite Hrows. now left.
Qed.

(** X7.  A reload that answers [{ok, chunks: n}] has loaded the whole
    table: [n] is the number of rows of the (migrated) table, which is
    not empty and whose rows all carry the [dim] of the first; [health]
    then reports the service ready, [n] chunks, the time of the reload,
    and as [dim] the length of the first row's vector, which is the
    table's [dim] when that is not negative. *)
Theorem reload_then_health (now : R) (w : World) (n : nat) :
  snd (reload_index now w) = Ok n ->
  exists t r0 rest,
    Db._ensure_schema (Db._db_connect (db w)) = Ok t /\
    db (fst (reload_index now w)) = Db.Present t /\
    Db.rows t = r0 :: rest /\ n = length (Db.rows t) /\
    Forall (fun r => Db.dim r = Db.dim r0) (Db.rows t) /\
    health (fst (reload_index now w)) =
      mkHealth true true true (Some now) n (length (row_vector r0)) /\
    (0 <= Db.dim r0 -> h_dim (health (fst (reload_index now w))) = Z.to_nat (Db.dim r0))%Z.
Proof.
  unfold reload_index. destruct (model (app w)) as [m|]; [|discriminate].
  destruct (_load_index_from_db (db w)) as [d [ix|e]] eqn:Hload; [|discriminate].
  cbn [fst snd]. intros Hn. inversion Hn; subst n; clear Hn.
  destruct (load_ok_inv _ _ _ Hload)
    as (t & r0 & rest & Ht & -> & Hrows & Hall & Hs0 & Hs1 & Hdim).
  exists t, r0, rest. repeat split; auto.
  unfold health, ready. cbn. now rewrite Hs0, Hs1.
Qed.

Lemma load_empty (d : Db.File) :
  row_names d = [] -> exists e, snd (_load_index_from_db d) = Err e.
Proof.
  intros Hn. destruct (_load_index_from_db d) as [d' [ix|e]] eqn:Hload; cbn; eauto.
  exfalso. destruct (load_ok_inv _ _ _ Hload) as (t & r0 & rest & Ht & _ & Hrows & _).
  assert (Hs : row_names (Db.Present t) = row_names d).
  { apply row_names_same_rows. now apply same_rows_migrated. }
  rewrite Hn in Hs. cbn in Hs. rewrite Hrows in Hs. discriminate.
Qed.

Lemma handle_keeps_empty (rq : Request) (w : World) :
  index (app w) = None -> row_names (db w) = [] ->
  index (app (handle rq w)) = None /\ row_names (db (handle rq w)) = [].
Proof.
  intros Hix Hn. split.
  - destruct rq as [m now|now|env req|q]; cbn [handle].
    + pose proof (startup_same_rows m now w) as Hs. revert Hs. unfold _startup.
      destruct (if Db.exists_ (db w)
                then match Db._ensure_schema (Db._db_connect (db w)) with
                     | Ok t => Ok (Db.Present t)
                     | Err e => Err e
                     end
                else Ok (db w)) as [d1|e0] eqn:Hschema; [|auto].
      destruct (m "warmup"%string); [|auto].
      assert (Hn1 : row_names d1 = []).
      { rewrite <- Hn. apply row_names_same_rows.
        destruct (Db.exists_ (db w)).
        - destruct (Db._ensure_schema (Db._db_connect (db w))) as [t|e] eqn:Ht; [|discriminate].
          inversion Hschema; subst. now apply same_rows_migrated.
        - inversion Hschema. now left. }
      destruct (load_empty _ Hn1) as [err He].
      destruct (_load_index_from_db d1) as [d2 r]. cbn in He. subst r. auto.
    + unfold reload_index. destruct (model (app w)); [|auto].
      destruct (load_empty _ Hn) as [err He].
      destruct (_load_index_from_db (db w)) as [d2 r]. cbn in He. subst r. auto.
    + unfold store, ready. rewrite Hix. destruct (model (app w)); auto.
    + now rewrite retrieve_reads_only.
  - destruct (handle_file rq w) as [Hs|(t1 & new & t2 & Hschema & Hup & Hdb)].
    + now rewrite (row_names_same_rows _ _ Hs).
    + exfalso. destruct rq as [m now|now|env req|q]; cbn [handle] in Hdb.
      * pose proof (row_names_same_rows _ _ (startup_same_rows m now w)) as Hs.
        rewrite Hdb, Hn in Hs.
        destruct (upsert_select t1 t2 _ Hup) as (_ & _ & r & Hf & _).
        cbn in Hs. destruct (Db.rows t2); [discriminate Hf | discriminate Hs].
      * pose proof (row_names_same_rows _ _ (reload_same_rows now w)) as Hs.
        rewrite Hdb, Hn in Hs.
        destruct (upsert_select t1 t2 _ Hup) as (_ & _ & r & Hf & _).
        cbn in Hs. destruct (Db.rows t2); [discriminate Hf | discriminate Hs].
      * revert Hdb. unfold store, ready. rewrite Hix.
        destruct (model (app w)); cbn; intros Hdb; rewrite Hdb in Hn;
          destruct (upsert_select t1 t2 _ Hup) as (_ & _ & r & Hf & _);
          cbn in Hn; destruct (Db.rows t2); discriminate.
      * rewrite retrieve_reads_only in Hdb. rewrite Hdb in Hn.
        destruct (upsert_select t1 t2 _ Hup) as (_ & _ & r & Hf & _).
        cbn in Hn. destruct (Db.rows t2); discriminate.
Qed.

(** X8.  The service cannot be started on an empty store: with no file,
    no table or no rows, and no snapshot in [state], no sequence of
    startup, reload, store and retrieve requests makes it ready or puts
    a row in the table; [store] needs a snapshot and the snapshot needs
    a row. *)
Theorem empty_store_never_ready (w : World) (rqs : list Request) :
  index (app w) = None -> row_names (db w) = [] ->
  ready (app (run rqs w)) = false /\ row_names (db (run rqs w)) = [].
Proof.
  revert w. induction rqs as [|rq rqs IH]; intros w Hix Hn.
  - split; auto. unfold run, ready. cbn. rewrite Hix. now destruct (model (app w)).
  - unfold run. cbn [fold_left].
    destruct (handle_keeps_empty rq w Hix Hn) as [Hix' Hn']. now apply IH.
Qed.

End ReloadAndHealth.

(** X7 on the example world. *)
Lemma reload_then_health_witness :
  exists t r0 rest,
    Db._ensure_schema (Db._db_connect (Service.db Example.world)) = Ok t /\
    Service.db (fst (Service.reload_index 2%R Example.world)) = Db.Present t /\
    Db.rows t = r0 :: rest /\ 3 = length (Db.rows t) /\
    Forall (fun r => Db.dim r = Db.dim r0) (Db.rows t) /\
    Service.health (fst (Service.reload_index 2%R Example.world)) =
      Service.mkHealth true true true (Some 2%R) 3 (length (Snapshot.row_vector r0)) /\
    (0 <= Db.dim r0 ->
     Service.h_dim (Service.health (fst (Service.reload_index 2%R Example.world)))
       = Z.to_nat (Db.dim r0))%Z.
Proof.
  apply (reload_then_health 2%R Example.world 3).
  unfold Service.reload_index. cbn [Service.model Service.app Example.world Service.db].
  rewrite example_load. reflexivity.
Defined.

(** X8 on a service started without a database file. *)
Lemma empty_store_never_ready_witness :
  Service.ready
    (Service.app
       (Lifecycle.run [Lifecycle.Startup Example.encoder 0%R;
                       Lifecycle.Store Example.env Example.request]
          (Service.mkWorld (Service.mkAppState None None None) Db.Missing))) = false /\
  Effects.row_names
    (Service.db
       (Lifecycle.run [Lifecycle.Startup Example.encoder 0%R;
                       Lifecycle.Store Example.env Example.request]
          (Service.mkWorld (Service.mkAppState None None None) Db.Missing))) = [].
Proof.
  apply (empty_store_never_ready
           (Service.mkWorld (Service.mkAppState None None None) Db.Missing)
           [Lifecycle.Startup Example.encoder 0%R;
            Lifecycle.Store Example.env Example.request]); reflexivity.
Defined.

(** ** More on retrieval *)

Section SortedLists.
Local Open Scope R_scope.

Lemma sorted_perm_unique (l1 l2 : list R) :
  StronglySorted Rge l1 -> StronglySorted Rge l2 -> Permutation l1 l2 -> l1 = l2.
Proof.
  intros H1. revert l2. induction H1 as [|a l1 Hs1 IH Ha]; intros l2 H2 Hp.
  - apply Permutation_nil in Hp. now subst.
  - destruct H2 as [|b l2 Hs2 Hb].
    + symmetry in Hp. apply Permutation_nil in Hp. discriminate.
    + assert (Hab : a = b).
      { assert (Hin_b : In b (a :: l1)).
        { apply (Permutation_in _ (Permutation_sym Hp)). now left. }
        assert (Hin_a : In a (b :: l2)).
        { apply (Permutation_in _ Hp). now left. }
        rewrite Forall_forall in Ha, Hb.
        destruct Hin_b as [E|Hin_b]; [auto|].
        destruct Hin_a as [E|Hin_a]; [auto|].
        specialize (Ha _ Hin_b). specialize (Hb _ Hin_a). lra. }
      subst b. f_equal. apply IH; auto.
      now apply Permutation_cons_inv in Hp.
Qed.

Lemma exists_sorted (l : list R) :
  exists l', Permutation l' l /\ StronglySorted Rge l'.
Proof.
  induction l as [|a l (l' & Hp & Hs)]; [exists []; split; constructor|].
  assert (Hins : exists l'', Permutation l'' (a :: l') /\ StronglySorted Rge l'').
  { clear Hp. induction Hs as [|b l' Hs IH Hb].
    - exists [a]. split; auto. repeat constructor.
    - destruct (Rle_dec b a) as [Hba|Hba].
      + exists (a :: b :: l'). split; auto.
        constructor; [now constructor|].
        constructor; [lra|].
        eapply Forall_impl; [|exact Hb]. intros c Hc. cbn in Hc. lra.
      + destruct IH as (l'' & Hp'' & Hs'').
        exists (b :: l''). split.
        * rewrite Hp''. apply perm_swap.
        * constructor; auto.
          apply Forall_forall. intros c Hc.
          apply (Permutation_in _ Hp'') in Hc.
          destruct Hc as [<-|Hc]; [lra|].
          rewrite Forall_forall in Hb. now apply Hb. }
  destruct Hins as (l'' & Hp'' & Hs'').
  exists l''. split; auto. rewrite Hp''. now constructor.
Qed.

Lemma sorted_app (l1 l2 : list R) :
  StronglySorted Rge l1 -> StronglySorted Rge l2 ->
  (forall a b, In a l1 -> In b l2 -> a >= b) ->
  StronglySorted Rge (l1 ++ l2).
Proof.
  intros H1 H2 Hab. induction H1 as [|a l1 Hs1 IH Ha]; [exact H2|].
  cbn [app]. constructor.
  - apply IH. intros x y Hx Hy. apply Hab; auto. now right.
  - apply Forall_app. split; auto.
    apply Forall_forall. intros b Hb. apply Hab; auto. now left.
Qed.

End SortedLists.

Section Selection.

(** A selection without repetition from a list without repetition,
    followed by what it leaves out, is a rearrangement of the list. *)
Lemma selection_split (idxs cands : list nat) :
  NoDup idxs -> NoDup cands -> incl idxs cands ->
  Permutation (idxs ++ filter (fun j => negb (existsb (Nat.eqb j) idxs)) cands) cands.
Proof.
  intros Hn Hc Hincl.
  assert (Hmem : forall j, existsb (Nat.eqb j) idxs = true <-> In j idxs).
  { intros j. rewrite existsb_exists. split.
    - intros (x & Hx & E). apply Nat.eqb_eq in E. now subst.
    - intros Hj. exists j. split; auto. apply Nat.eqb_refl. }
  apply NoDup_Permutation; auto.
  - apply NoDup_app; auto.
    + now apply NoDup_filter.
    + intros x Hx Hf. apply filter_In in Hf. destruct Hf as [_ Hf].
      apply negb_true_iff in Hf. apply Hmem in Hx. congruence.
  - intros x. rewrite in_app_iff, filter_In. split.
    + intros [Hx|[Hx _]]; auto.
    + intros Hx. destruct (existsb (Nat.eqb x) idxs) eqn:E.
      * left. now apply Hmem.
      * right. split; auto.
Qed.

(** The scores of a best-first selection of [k] items are the first [k]
    of the scores in descending order, however ties were resolved. *)
Lemma top_scores_unique (S : nat -> R) (cands idxs : list nat) (best : list R) (k : nat) :
  NoDup idxs -> NoDup cands -> incl idxs cands ->
  length idxs = Nat.min k (length cands) ->
  StronglySorted Rge (map S idxs) ->
  (forall i j, In i idxs -> In j cands -> ~ In j idxs -> (S j <= S i)%R) ->
  Permutation best (map S cands) -> StronglySorted Rge best ->
  map S idxs = firstn k best.
Proof.
  intros Hnd Hndc Hincl Hlen Hsorted Hbest Hperm Hdesc.
  set (rest := filter (fun j => negb (existsb (Nat.eqb j) idxs)) cands).
  assert (Hsplit : Permutation (idxs ++ rest) cands) by now apply selection_split.
  destruct (exists_sorted (map S rest)) as (tail & Htp & Hts).
  assert (Heq : map S idxs ++ tail = best).
  { apply sorted_perm_unique; auto.
    - apply sorted_app; auto.
      intros a b Ha Hb'. apply in_map_iff in Ha. destruct Ha as (i & <- & Hi).
      apply (Permutation_in _ Htp) in Hb'. apply in_map_iff in Hb'.
      destruct Hb' as (j & <- & Hj).
      apply filter_In in Hj. destruct Hj as [Hjc Hjn].
      apply Rle_ge. apply Hbest; auto.
      intros Hin. apply negb_true_iff in Hjn.
      assert (existsb (Nat.eqb j) idxs = true); [|congruence].
      apply existsb_exists. exists j. split; auto. apply Nat.eqb_refl.
    - rewrite Hperm, Htp, <- map_app. now apply Permutation_map. }
  assert (Hlb : length best = length cands).
  { now rewrite (Permutation_length Hperm), length_map. }
  rewrite <- Heq in *.
  assert (Hl : length (map S idxs) = length idxs) by apply length_map.
  destruct (Nat.le_ge_cases k (length cands)) as [Hle|Hge].
  - rewrite Nat.min_l in Hlen by exact Hle.
    rewrite <- Hlen, <- Hl, firstn_app, Nat.sub_diag, firstn_all. cbn [firstn].
    now rewrite app_nil_r.
  - rewrite Nat.min_r in Hlen by exact Hge.
    rewrite length_app, Hl, Hlen in Hlb.
    assert (tail = []) by (destruct tail; [reflexivity | cbn in Hlb; lia]).
    subst tail. rewrite app_nil_r. symmetry. apply firstn_all2. rewrite Hl. lia.
Qed.

End Selection.

Section RetrieveMore.
Context `{Np.NumpySort} `{Np.Float32}.
Import Np Service Snapshot.

Lemma map_score_chunks (ix : RagIndex) (scores : vec) (idxs : list nat) :
  map score (map (chunk_at ix scores) idxs) = map (at_ scores) idxs.
Proof. rewrite map_map. reflexivity. Qed.

(** X9.  A [topk] that is not below the number of candidate rows
    returns every candidate row exactly once: the records are the chunks
    of a rearrangement of the candidates. *)
Theorem retrieve_all_candidates (w : World) (q : Query) (m : Encoder)
        (ix : RagIndex) (qv : vec) :
  model (app w) = Some m -> index (app w) = Some ix -> built ix ->
  m (query q) = Some qv -> shape1 (emb_matrix ix) = length qv ->
  (1 <= topk q)%Z -> (Z.of_nat (candidate_count ix (q_kind q)) <= topk q)%Z ->
  exists idxs,
    snd (retrieve q w) = Ok (map (chunk_at ix (all_scores ix qv)) idxs) /\
    Permutation idxs (candidates ix (q_kind q)).
Proof.
  intros Hm Hix Hb Hq Hdim Hk Hall.
  destruct (built_inv ix Hb) as (rows & _ & _ & Hal & Hne).
  destruct (search_spec ix qv (topk q) (q_kind q) Hal Hne Hdim Hk)
    as (idxs & Hs & Hlen & Hnd & Hincl & _).
  exists idxs. rewrite (retrieve_ready w q m ix qv Hm Hix Hq). cbn [snd].
  rewrite Hs. split; [reflexivity|].
  apply NoDup_Permutation_bis; auto.
  rewrite Hlen, <- candidate_count_length. lia.
Qed.

(** X10.  The scores a retrieve returns do not depend on how numpy
    orders equal keys: they are the first [topk] items of the candidate
    scores in descending order, whichever implementation of
    [argpartition] and [argsort] is in use. *)
Theorem retrieve_scores_determined (w : World) (q : Query) (m : Encoder)
        (ix : RagIndex) (qv : vec) (best : list R) :
  model (app w) = Some m -> index (app w) = Some ix -> built ix ->
  m (query q) = Some qv -> shape1 (emb_matrix ix) = length qv ->
  (1 <= topk q)%Z ->
  Permutation best (map (at_ (all_scores ix qv)) (candidates ix (q_kind q))) ->
  descending best ->
  exists out,
    snd (retrieve q w) = Ok out /\
    map score out = firstn (Z.to_nat (topk q)) best.
Proof.
  intros Hm Hix Hb Hq Hdim Hk Hperm Hdesc.
  destruct (built_inv ix Hb) as (rows & _ & _ & Hal & Hne).
  destruct (search_spec ix qv (topk q) (q_kind q) Hal Hne Hdim Hk)
    as (idxs & Hs & Hlen & Hnd & Hincl & Hsorted & Hbest).
  exists (map (chunk_at ix (all_scores ix qv)) idxs).
  rewrite (retrieve_ready w q m ix qv Hm Hix Hq). cbn [snd]. rewrite Hs.
  split; [reflexivity|]. rewrite map_score_chunks.
  apply (top_scores_unique _ (candidates ix (q_kind q))); auto.
  - apply flatnonzero_NoDup.
  - now rewrite Hlen, candidate_count_length.
Qed.

Lemma any_candidates (ix : RagIndex) (k : string) :
  Py.truthy k = true ->
  any (map (fun k' => String.eqb k' k) (ix_kind ix)) = true <->
  candidate_count ix (Some k) <> 0.
Proof.
  intros Ht. unfold candidate_count, is_candidate, any. rewrite Ht.
  induction (ix_kind ix) as [|k' l IH]; cbn; [intuition congruence|].
  destruct (String.eqb k' k); cbn; [intuition congruence | exact IH].
Qed.

(** X11.  A query vector whose length is not the snapshot's dimension
    (the model is not the one the table was embedded with): a retrieve
    with at least one candidate row fails in the matrix product with an
    uncaught [ValueError], and one whose kind filter admits no row still
    answers with the empty sequence. *)
Theorem retrieve_dimension_mismatch (w : World) (q : Query) (m : Encoder)
        (ix : RagIndex) (qv : vec) :
  model (app w) = Some m -> index (app w) = Some ix -> built ix ->
  m (query q) = Some qv -> shape1 (emb_matrix ix) <> length qv ->
  (candidate_count ix (q_kind q) <> 0 ->
   retrieve q w = (w, Err (Unhandled ValueError))) /\
  (candidate_count ix (q_kind q) = 0 -> retrieve q w = (w, Ok [])).
Proof.
  intros Hm Hix Hb Hq Hdim.
  destruct (built_inv ix Hb) as (rows & _ & _ & Hal & Hne).
  rewrite (retrieve_ready w q m ix qv Hm Hix Hq).
  pose proof Hal as (_ & Hkind & _).
  apply Nat.eqb_neq in Hdim. unfold shape0, shape1 in *.
  unfold search.
  destruct (match q_kind q with
            | Some k => if Py.truthy k then Some k else None
            | None => None
            end) as [k|] eqn:Hf.
  - assert (Hkf : q_kind q = Some k /\ Py.truthy k = true).
    { destruct (q_kind q) as [k'|]; [|discriminate].
      destruct (Py.truthy k') eqn:Ht; inversion Hf; subst; auto. }
    destruct Hkf as [-> Ht].
    pose proof (any_candidates ix k Ht) as Hany.
    destruct (any (map (fun k' => String.eqb k' k) (ix_kind ix))) eqn:Ha; cbn [negb].
    + split; [intros _ | intros Hzero; exfalso; now apply (proj1 Hany)].
      unfold mask_rows. rewrite length_map, Hkind, Nat.eqb_refl. cbn [bind].
      unfold matvec. cbn [mcols]. now rewrite Hdim.
    + split; [intros Hn; exfalso; apply (proj2 Hany) in Hn; discriminate | reflexivity].
  - assert (Hc : candidate_count ix (q_kind q) <> 0).
    { rewrite candidate_count_length, candidates_unfiltered.
      - rewrite length_seq, Hkind. destruct (mrows (emb_matrix ix)); [congruence|discriminate].
      - destruct (q_kind q) as [k'|]; auto.
        destruct (Py.truthy k'); [discriminate | reflexivity]. }
    split; [intros _ | intros Hzero; contradiction].
    unfold matvec. now rewrite Hdim.
Qed.

End RetrieveMore.

(** X9 on the example store: five records asked of three rows. *)
Lemma retrieve_all_candidates_witness :
  exists idxs,
    snd (Service.retrieve (Service.mkQuery "the cow gave birth today" 5 None) Example.world)
      = Ok (map (Snapshot.chunk_at Example.snapshot
                   (Snapshot.all_scores Example.snapshot [1%R; 0%R])) idxs) /\
    Permutation idxs (Snapshot.candidates Example.snapshot None).
Proof.
  apply (retrieve_all_candidates Example.world
           (Service.mkQuery "the cow gave birth today" 5 None)
           Example.encoder Example.snapshot [1%R; 0%R]
           eq_refl eq_refl example_built eq_refl eq_refl).
  - simpl. lia.
  - simpl. lia.
Defined.

(** X10 on the example store: the two best scores of [0; 0; 1]. *)
Lemma retrieve_scores_determined_witness :
  exists out,
    snd (Service.retrieve (Service.mkQuery "the cow gave birth today" 2 None) Example.world)
      = Ok out /\
    map Service.score out = [1%R; 0%R].
Proof.
  apply (retrieve_scores_determined Example.world
           (Service.mkQuery "the cow gave birth today" 2 None)
           Example.encoder Example.snapshot [1%R; 0%R] [1%R; 0%R; 0%R]
           eq_refl eq_refl example_built eq_refl eq_refl).
  - simpl. lia.
  - rewrite example_scores_cow.
    exact (Permutation_cons_append [0%R; 0%R] 1%R).
  - repeat constructor; lra.
Defined.

(** X11 on the example snapshot, two items wide, under a model that is
    three items wide. *)
Lemma retrieve_dimension_mismatch_witness :
  (Snapshot.candidate_count Example.snapshot None <> 0 ->
   Service.retrieve (Service.mkQuery "hay" 5 None) Example.world_other_model
     = (Example.world_other_model, Err (Unhandled ValueError))) /\
  (Snapshot.candidate_count Example.snapshot None = 0 ->
   Service.retrieve (Service.mkQuery "hay" 5 None) Example.world_other_model
     = (Example.world_other_model, Ok [])).
Proof.
  apply (retrieve_dimension_mismatch Example.world_other_model
           (Service.mkQuery "hay" 5 None)
           Example.other_model Example.snapshot [1%R; 0%R; 0%R]
           eq_refl eq_refl example_built eq_refl).
  simpl. lia.
Defined.

(** ** The order of equal scores *)

Section TieOrder.
Context `{Np.Float32}.
Import Np Service Snapshot Lifecycle.

Lemma map_injective_on {A B} (f : A -> B) (l l1 l2 : list A) :
  NoDup (map f l) -> incl l1 l -> incl l2 l -> map f l1 = map f l2 -> l1 = l2.
Proof.
  intros Hnd. revert l2. induction l1 as [|a l1 IH]; intros [|b l2] H1 H2 Heq;
    try discriminate; [reflexivity|].
  cbn [map] in Heq. inversion Heq as [[Hab Htl]].
  assert (a = b).
  { assert (Ha : In a l) by (apply H1; now left).
    assert (Hb : In b l) by (apply H2; now left).
    clear - Hnd Ha Hb Hab. induction l as [|x l IHl]; [contradiction|].
    cbn [map] in Hnd. apply NoDup_cons_iff in Hnd. destruct Hnd as [Hx Hnd].
    destruct Ha as [->|Ha], Hb as [->|Hb]; auto.
    - exfalso. apply Hx. rewrite Hab. now apply in_map.
    - exfalso. apply Hx. rewrite <- Hab. now apply in_map. }
  subst b. f_equal. apply IH; auto.
  - intros x Hx. apply H1. now right.
  - intros x Hx. apply H2. now right.
Qed.

(** C8 (amended).  A retrieve leaves the world as it found it, so any
    number of retrieves later the same request gets the same answer,
    record for record and in the same order, equal scores included.
    What the order among equal scores is, is up to numpy: whichever
    implementations [I1] and [I2] of [argpartition] and [argsort] are in
    use, a request with a positive [topk] and a query vector of the
    snapshot's dimension gets the same sequence of scores from both, and
    the same records when no two candidates score the same. *)
Theorem retrieve_order_determined (I1 I2 : NumpySort) (w : World) (q : Query)
        (qs : list Query) (m : Encoder) (ix : RagIndex) (qv : vec) :
  @retrieve I1 _ q (@run I1 _ (map Retrieve qs) w) = @retrieve I1 _ q w /\
  (model (app w) = Some m -> index (app w) = Some ix -> built ix ->
   m (query q) = Some qv -> shape1 (emb_matrix ix) = length qv ->
   (1 <= topk q)%Z ->
   exists out1 out2,
     @retrieve I1 _ q w = (w, Ok out1) /\ @retrieve I2 _ q w = (w, Ok out2) /\
     map score out1 = map score out2 /\
     (NoDup (map (at_ (all_scores ix qv)) (candidates ix (q_kind q))) ->
      out1 = out2)).
Proof.
  split; [now rewrite (@run_of_retrieves I1 _)|].
  intros Hm Hix Hb Hq Hdim Hk.
  destruct (built_inv ix Hb) as (rows & _ & _ & Hal & Hne).
  destruct (@search_spec I1 _ ix qv (topk q) (q_kind q) Hal Hne Hdim Hk)
    as (idxs1 & Hs1 & Hlen1 & Hnd1 & Hincl1 & Hsorted1 & Hbest1).
  destruct (@search_spec I2 _ ix qv (topk q) (q_kind q) Hal Hne Hdim Hk)
    as (idxs2 & Hs2 & Hlen2 & Hnd2 & Hincl2 & Hsorted2 & Hbest2).
  exists (map (chunk_at ix (all_scores ix qv)) idxs1),
         (map (chunk_at ix (all_scores ix qv)) idxs2).
  rewrite (@retrieve_ready I1 _ w q m ix qv Hm Hix Hq), Hs1.
  rewrite (@retrieve_ready I2 _ w q m ix qv Hm Hix Hq), Hs2.
  split; [reflexivity|]. split; [reflexivity|].
  destruct (exists_sorted (map (at_ (all_scores ix qv)) (candidates ix (q_kind q))))
    as (best & Hperm & Hdesc).
  rewrite candidate_count_length in Hlen1, Hlen2.
  assert (H1 : map (at_ (all_scores ix qv)) idxs1 = firstn (Z.to_nat (topk q)) best).
  { apply (top_scores_unique _ (candidates ix (q_kind q))); auto.
    apply flatnonzero_NoDup. }
  assert (H2 : map (at_ (all_scores ix qv)) idxs2 = firstn (Z.to_nat (topk q)) best).
  { apply (top_scores_unique _ (candidates ix (q_kind q))); auto.
    apply flatnonzero_NoDup. }
  split.
  - rewrite !map_score_chunks. congruence.
  - intros Hdistinct. f_equal.
    apply (map_injective_on (at_ (all_scores ix qv)) (candidates ix (q_kind q)));
      auto. congruence.
Qed.

End TieOrder.

(** C8 on the table with two equal rows, the request restricted to the
    kind "knowledge": the three candidates score -1, 0 and 1. *)
Lemma retrieve_order_determined_witness :
  exists out1 out2,
    Service.retrieve (Service.mkQuery "the cow gave birth today" 2 (Some "knowledge"%string))
                     Example.tie_world = (Example.tie_world, Ok out1) /\
    Service.retrieve (Service.mkQuery "the cow gave birth today" 2 (Some "knowledge"%string))
                     Example.tie_world = (Example.tie_world, Ok out2) /\
    map Service.score out1 = map Service.score out2 /\ out1 = out2.
Proof.
  destruct (retrieve_order_determined ref_numpy ref_numpy Example.tie_world
              (Service.mkQuery "the cow gave birth today" 2 (Some "knowledge"%string))
              [] Example.encoder Example.tie_snapshot [1%R; 0%R]) as [_ Hw].
  destruct (Hw eq_refl eq_refl tie_built eq_refl eq_refl) as (out1 & out2 & H1 & H2 & Hs & Heq).
  - simpl. lia.
  - exists out1, out2. split; [exact H1|]. split; [exact H2|]. split; [exact Hs|].
    apply Heq. unfold Snapshot.all_scores, Np.at_. simpl.
    repeat constructor; simpl; intros Hin;
      repeat (destruct Hin as [Hin|Hin]; [lra|]); exact Hin.
Defined.

(** Against C8 as stated: with the reference routines, the top 3 of the
    four rows of the table above are rows 3, 2 and 1; rows 0 and 1 score
    the same, and it is the one with the larger index that is returned. *)
Lemma ties_not_by_row_index :
  Snapshot.built Example.tie_snapshot /\
  Snapshot.all_scores Example.tie_snapshot [1%R; 0%R] = [(-1)%R; (-1)%R; 0%R; 1%R] /\
  snd (Service.retrieve (Service.mkQuery "the cow gave birth today" 3 None)
                        Example.tie_world)
    = Ok (map (Snapshot.chunk_at Example.tie_snapshot [(-1)%R; (-1)%R; 0%R; 1%R])
              [3; 2; 1]) /\
  ~ Snapshot.ties_by_row_index [(-1)%R; (-1)%R; 0%R; 1%R]
      (Snapshot.candidates Example.tie_snapshot None) [3; 2; 1].
Proof.
  split; [exact tie_built|]. split; [exact tie_scores_cow|]. split.
  - rewrite (retrieve_ready Example.tie_world
               (Service.mkQuery "the cow gave birth today" 3 None)
               Example.encoder Example.tie_snapshot [1%R; 0%R] eq_refl eq_refl eq_refl).
    cbn [snd Service.topk Service.q_kind]. unfold Service.search.
    rewrite tie_matvec_cow. cbn [bind].
    rewrite tie_top3. reflexivity.
  - intros Hties.
    destruct (Hties 1 0) as (a & b & Hab & Ha & Hb).
    + simpl. auto.
    + apply candidates_spec. simpl. split; [lia | reflexivity].
    + lia.
    + reflexivity.
    + destruct a as [|[|[|a]]]; simpl in Ha; try discriminate.
      destruct a; discriminate.
Qed.

(** ** A store and the snapshot after it *)

Section StoreAndSnapshot.
Context `{Np.NumpySort} `{Np.Float32}.
Import Np Service Snapshot Effects Lifecycle.

Lemma run_keeps_unready (rqs : list Request) (w : World) :
  mixed_dims (db w) -> index (app w) = None ->
  ready (app (run rqs w)) = false /\ mixed_dims (db (run rqs w)).
Proof.
  revert w. induction rqs as [|rq rqs IH]; intros w Hmix Hix.
  - split; auto. unfold run, ready. cbn. rewrite Hix. now destruct (model (app w)).
  - unfold run. cbn [fold_left].
    destruct (handle_keeps_unready rq w Hmix Hix) as [Hmix' Hix']. now apply IH.
Qed.

Lemma upsert_fresh_id (t1 : Db.Table) (new : Db.Row) :
  Db.int64 (Db.chunk_index new) = true ->
  has_id (Db.id new) (Db.rows t1) = false -> exists t2, Db.upsert t1 new = Ok t2.
Proof.
  intros Hfit. rewrite (upsert_fits _ _ Hfit). unfold has_id. intros ->.
  destruct (existsb _ (Db.rows t1)); eauto.
Qed.

Lemma upsert_keeps_other (t1 t2 : Db.Table) (new r : Db.Row) :
  Db.upsert t1 new = Ok t2 -> In r (Db.rows t1) -> Db.key_of r <> Db.key_of new ->
  In r (Db.rows t2).
Proof.
  intros Hup Hin Hk.
  assert (Ho : In r (other_keys (Db.key_of new) (Db.rows t1))).
  { apply filter_In. split; auto. apply negb_true_iff.
    destruct (Db.key_eqb (Db.key_of r) (Db.key_of new)) eqn:E; auto.
    apply key_eqb_eq in E. contradiction. }
  destruct (upsert_shape t1 t2 _ Hup) as (_ & [[_ Hrows]|(_ & _ & Hrows)]).
  - rewrite <- (updated_other_keys new), <- Hrows in Ho.
    now apply filter_In in Ho.
  - rewrite Hrows. apply in_or_app. now left.
Qed.

(** X12.  A store, with a [chunk_index] that fits 64 bits, under a model
    whose embeddings are not as long as the [dim] of a row already in the
    table (under another key, the fresh id being free) writes its row all
    the same: it answers 500 "Stored but reload_index failed", the table
    now holds two values of [dim], and a service restarted on it never
    gets ready again, whatever it is sent. *)
Theorem store_other_dim_poisons (env : StoreEnv) (req : StoreRequest) (w : World)
        (m : Encoder) (v : vec) (t1 : Db.Table) (r : Db.Row) :
  ready (app w) = true -> model (app w) = Some m ->
  in_priorities (normalized_priority req) = true -> m (sr_text req) = Some v ->
  Db.int64 (sr_chunk_index req) = true ->
  Db._ensure_schema (Db._db_connect (db w)) = Ok t1 ->
  has_id (new_id env) (Db.rows t1) = false ->
  In r (Db.rows t1) -> Db.key_of r <> Db.key_of (new_row env req v) ->
  Db.dim r <> Z.of_nat (length v) ->
  exists e t2,
    store env req w =
      (mkWorld (app w) (Db.Present t2),
       Err (HTTPException 500 (StoredButReloadFailed e))) /\
    Db.upsert t1 (new_row env req v) = Ok t2 /\
    mixed_dims (Db.Present t2) /\
    forall rqs,
      ready (app (run rqs (mkWorld (mkAppState None None None) (Db.Present t2))))
      = false.
Proof.
  intros Hr Hm Hp Hv Hfit Hschema Hid Hin Hk Hdim.
  destruct (upsert_fresh_id t1 (new_row env req v) Hfit Hid) as [t2 Hup].
  destruct (upsert_select t1 t2 _ Hup) as (_ & _ & r' & Hf & Hc & Hsel).
  assert (Hmix : mixed_dims (Db.Present t2)).
  { exists t2, r, r'. split; [reflexivity|].
    split; [now apply (upsert_keeps_other t1 t2 (new_row env req v))|].
    split; [now apply (find_some _ _ Hf)|].
    destruct Hc as (_ & _ & _ & Hd & _). rewrite Hd. exact Hdim. }
  pose proof (upsert_schema_fixed _ _ _ _ Hschema Hup) as Ht2.
  destruct (load_mixed_dims _ Hmix) as [[e He] _].
  exists e, t2.
  split; [|split; [exact Hup|split; [exact Hmix|]]].
  - rewrite (store_persisted env req w m v Hr Hm Hp Hv).
    unfold persist. rewrite Hschema, Hup, Hsel.
    rewrite (load_ok _ _ Ht2) in *. cbn [snd] in He. now rewrite He.
  - intros rqs. now apply run_keeps_unready.
Qed.

Lemma load_priority_valid (p : string) :
  in_priorities p = true -> load_priority (Some p) = p.
Proof. unfold load_priority. now intros ->. Qed.

Lemma stored_row_entry (env : StoreEnv) (req : StoreRequest) (v : vec) (r : Db.Row) :
  in_priorities (normalized_priority req) = true ->
  carries (new_row env req v) r ->
  entry_of r = mkEntry (sr_source_path req) (sr_kind req) (sr_chunk_index req)
                       (normalized_priority req) (sr_text req) (renormalize v).
Proof.
  intros Hp (Hpr & Ht & Hemb & Hdim & _ & Hkey).
  unfold entry_of, row_vector, decoded.
  unfold Db.key_of in Hkey. cbn in Hpr, Ht, Hemb, Hdim, Hkey.
  inversion Hkey as [[Hsp Hkind Hci]].
  rewrite Hsp, Hkind, Hci, Hpr, Ht, Hemb, Hdim, (load_priority_valid _ Hp).
  destruct (Z.ltb_spec (Z.of_nat (length v)) 0); [lia|].
  now rewrite Nat2Z.id, firstn_all.
Qed.

(** X13.  A store that answers with a response is visible at once: the
    snapshot in [state] is the image of the table now on file, row for
    row, it holds the stored chunk under its natural key with the
    normalized priority, the text and the re-normalized embedding, its
    load time is the time of the store, and the response's [dim] is the
    length of the embedding. *)
Theorem store_then_snapshot (env : StoreEnv) (req : StoreRequest) (w w1 : World)
        (resp : StoreResponse) :
  store env req w = (w1, Ok resp) ->
  exists m v t ix i,
    model (app w) = Some m /\ m (sr_text req) = Some v /\
    db w1 = Db.Present t /\
    app w1 = mkAppState (Some m) (Some ix) (Some (env_now env)) /\
    snapshot_of (Db.rows t) ix /\
    h_chunks (health w1) = length (Db.rows t) /\
    entry_at ix i =
      Some (mkEntry (sr_source_path req) (sr_kind req) (sr_chunk_index req)
                    (normalized_priority req) (sr_text req) (renormalize v)) /\
    resp_dim resp = Z.of_nat (length v).
Proof.
  intros Hs. destruct (store_ok_inv env req w w1 resp Hs)
    as (m & v & t & r & ix & Hm & Hv & Hp & Happ & Hdb & _ & Hb & Hf & Hc & ->).
  apply build_index_inv in Hb. destruct Hb as (_ & Hsnap & _).
  destruct (In_nth_error _ _ (proj1 (find_some _ _ Hf))) as [i Hi].
  exists m, v, t, ix, i. repeat split; auto; try apply Hsnap.
  - unfold health. rewrite Happ. cbn. unfold shape0.
    destruct Hsnap as (_ & _ & _ & _ & _ & Hmx). now rewrite Hmx, length_map.
  - rewrite (snapshot_entry _ _ _ _ Hsnap Hi). f_equal.
    now apply (stored_row_entry env).
  - cbn. now destruct Hc as (_ & _ & _ & Hd & _).
Qed.

End StoreAndSnapshot.

(** X12 on the example: the table holds one row of [dim] 3, the model
    embeds into two items. *)
Lemma store_other_dim_poisons_witness :
  exists e t2,
    Service.store Example.env Example.request Example.stale_world =
      (Service.mkWorld (Service.app Example.stale_world) (Db.Present t2),
       Err (HTTPException 500 (StoredButReloadFailed e))) /\
    Db.upsert Example.wide_table
              (Service.new_row Example.env Example.request [0%R; 1%R]) = Ok t2 /\
    Lifecycle.mixed_dims (Db.Present t2) /\
    forall rqs,
      Service.ready
        (Service.app
           (Lifecycle.run rqs
              (Service.mkWorld (Service.mkAppState None None None) (Db.Present t2))))
      = false.
Proof.
  apply (store_other_dim_poisons Example.env Example.request Example.stale_world
           Example.encoder [0%R; 1%R] Example.wide_table Example.wide_row);
    try reflexivity.
  - now left.
  - discriminate.
  - discriminate.
Defined.

(** X13 on the example store of "x.md". *)
Lemma store_then_snapshot_witness :
  exists m v t ix i,
    Service.model (Service.app Example.world) = Some m /\
    m (Service.sr_text Example.request) = Some v /\
    Service.db Example.world_x = Db.Present t /\
    Service.app Example.world_x
      = Service.mkAppState (Some m) (Some ix) (Some (Service.env_now Example.env)) /\
    Snapshot.snapshot_of (Db.rows t) ix /\
    Service.h_chunks (Service.health Example.world_x) = length (Db.rows t) /\
    Snapshot.entry_at ix i =
      Some (Snapshot.mkEntry (Service.sr_source_path Example.request)
              (Service.sr_kind Example.request) (Service.sr_chunk_index Example.request)
              (Service.normalized_priority Example.request)
              (Service.sr_text Example.request) (Service.renormalize v)) /\
    Service.resp_dim (Service.mkStoreResponse true "x1" 2) = Z.of_nat (length v).
Proof.
  apply (store_then_snapshot Example.env Example.request Example.world Example.world_x
           (Service.mkStoreResponse true "x1" 2)).
  exact example_store.
Defined.

(** ** What a ready service holds *)

Section ReadyRuns.
Import Np Service Snapshot.

Lemma example_startup :
  _startup Example.encoder 0%R
           (mkWorld (mkAppState None None None) (Db.Present Example.table))
  = (Example.world, Ok tt).
Proof.
  unfold _startup. cbn [db app Db.exists_ Db._db_connect].
  change (Db._ensure_schema (Db.Present Example.table)) with (@Ok py_exn _ Example.table).
  cbn iota. change (Example.encoder "warmup"%string) with (Some [0%R; 1%R]). cbn iota.
  rewrite example_load. reflexivity.
Qed.

End ReadyRuns.

Section ReadyService.
Context `{Np.NumpySort} `{Np.Float32}.
Import Np Service Snapshot Effects Lifecycle.

(** X14.  From the start of the process on, whatever the file held and
    whatever requests came in: when [health] says the service is ready it
    holds a snapshot with at least one chunk, whose five columns and
    matrix agree on the number of rows and whose priorities are all
    "normal" or "high". *)
Theorem ready_means_loaded (d : Db.File) (rqs : list Request) :
  let w := run rqs (mkWorld (mkAppState None None None) d) in
  h_ready (health w) = true ->
  0 < h_chunks (health w) /\
  exists ix, index (app w) = Some ix /\ aligned ix /\
             h_chunks (health w) = length (ix_text ix) /\
             Forall (fun p => In p PRIORITIES) (ix_priority ix).
Proof.
  intros w Hr. unfold health in *. cbn [h_ready h_chunks] in *. unfold ready in Hr.
  destruct (model (app w)); [|discriminate].
  destruct (index (app w)) as [ix|] eqn:Hix; [|discriminate].
  pose proof (reachable_snapshot_built d rqs ix Hix) as Hb.
  destruct (built_inv ix Hb) as (rows & Hne & Hsnap & Hal & Hm).
  split.
  - unfold shape0. destruct (mrows (emb_matrix ix)); [congruence | cbn; lia].
  - exists ix. split; auto. split; auto. split.
    + destruct Hal as (_ & _ & _ & _ & Ht & _). now rewrite Ht.
    + destruct Hsnap as (_ & _ & _ & Hpr & _). rewrite Hpr.
      apply Forall_forall. intros p Hp. apply in_map_iff in Hp.
      destruct Hp as (r & <- & _). apply load_priority_in.
Qed.

End ReadyService.

(** X14 on the example table after a startup. *)
Lemma ready_means_loaded_witness :
  let w := Lifecycle.run [Lifecycle.Startup Example.encoder 0%R]
             (Service.mkWorld (Service.mkAppState None None None)
                              (Db.Present Example.table)) in
  0 < Service.h_chunks (Service.health w) /\
  exists ix, Service.index (Service.app w) = Some ix /\ Snapshot.aligned ix /\
             Service.h_chunks (Service.health w) = length (Service.ix_text ix) /\
             Forall (fun p => In p Service.PRIORITIES) (Service.ix_priority ix).
Proof.
  apply (ready_means_loaded (Db.Present Example.table)
           [Lifecycle.Startup Example.encoder 0%R]).
  unfold Lifecycle.run. cbn [fold_left Lifecycle.handle].
  rewrite example_startup. reflexivity.
Defined.

(** * The ingest script *)

Section ChunkText.
Context {A : Type}.
Import Ingest.

Lemma slice_length (t : list A) (i j : nat) :
  i <= j -> j <= length t -> length (slice t i j) = j - i.
Proof.
  intros Hij Hj. unfold slice. rewrite length_firstn, length_skipn. lia.
Qed.

Lemma slice_to_end (t : list A) (i : nat) : slice t i (length t) = skipn i t.
Proof.
  unfold slice. apply firstn_all2. rewrite length_skipn. lia.
Qed.

Lemma skipn_nonempty (t : list A) (i : nat) : i < length t -> skipn i t <> [].
Proof.
  intros Hi Hx. apply (f_equal (@length A)) in Hx.
  rewrite length_skipn in Hx. cbn in Hx. lia.
Qed.

(** The loop from position [i] on, when every round moves forward. *)
Lemma chunk_loop_spec (t : list A) (size overlap : nat) :
  overlap < size ->
  forall fuel i out,
    i < length t -> length t - i <= fuel ->
    exists c cs,
      chunk_loop fuel t size overlap i out = Some (out ++ c :: cs) /\
      c = firstn size (skipn i t) /\
      well_sized size (c :: cs) /\
      overlapping overlap (c :: cs) /\
      reassemble overlap (c :: cs) = skipn i t.
Proof.
  intros Hov. induction fuel as [|fuel IH]; intros i out Hi Hfuel; [lia|].
  cbn [chunk_loop]. destruct (Nat.ltb_spec i (length t)) as [_|Hge]; [|lia].
  destruct (Nat.eqb_spec (Nat.min (i + size) (length t)) (length t)) as [Hend|Hmore].
  - (* the last chunk *)
    assert (Hle : length t <= i + size) by lia.
    rewrite Hend, slice_to_end.
    exists (skipn i t), []. split; [reflexivity|].
    assert (Hlen : length (skipn i t) <= size) by (rewrite length_skipn; lia).
    split; [symmetry; now apply firstn_all2|].
    split; [|split].
    + split.
      * constructor; [|constructor]. split; auto. now apply skipn_nonempty.
      * cbn. intros k Hk. lia.
    + exact I.
    + cbn. apply app_nil_r.
  - (* a full chunk, and on *)
    assert (Hlt : i + size < length t) by lia.
    rewrite Nat.min_l by lia. rewrite Nat.max_r by lia.
    set (i' := i + size - overlap).
    assert (Hi' : i' < length t) by (unfold i'; lia).
    destruct (IH i' (out ++ [slice t i (i + size)]) Hi' ltac:(unfold i'; lia))
      as (c' & cs & Hloop & Hc' & (Hall & Hfull) & Hovl & Hre).
    assert (Hc : slice t i (i + size) = firstn size (skipn i t)).
    { unfold slice. f_equal. lia. }
    assert (Hlc : length (firstn size (skipn i t)) = size).
    { rewrite length_firstn, length_skipn. lia. }
    assert (Hlc' : overlap < length c').
    { rewrite Hc', length_firstn, length_skipn. unfold i'. lia. }
    exists (firstn size (skipn i t)), (c' :: cs).
    rewrite Hloop, Hc, <- app_assoc. split; [reflexivity|]. split; [reflexivity|].
    assert (Hnext : skipn (i + size) t = skipn overlap (skipn i' t)).
    { rewrite skipn_skipn. f_equal. unfold i'. lia. }
    split; [|split].
    + split.
      * constructor; auto. split; [|lia].
        intros Hx. rewrite Hx in Hlc. cbn in Hlc. lia.
      * intros [|k] Hk; [exact Hlc|]. cbn in Hk. apply (Hfull k). cbn. lia.
    + split; [|exact Hovl].
      rewrite Hlc, Hc'.
      rewrite firstn_firstn, Nat.min_l by lia.
      rewrite skipn_firstn_comm, skipn_skipn.
      replace (size - (size - overlap)) with overlap by lia.
      f_equal. f_equal. unfold i'. lia.
    + cbn [reassemble map concat]. cbn [reassemble] in Hre.
      rewrite <- (firstn_skipn size (skipn i t)) at 2. f_equal.
      rewrite skipn_skipn, (Nat.add_comm size i), Hnext, <- Hre.
      rewrite skipn_app.
      replace (overlap - length c') with 0 by lia. reflexivity.
Qed.

Lemma chunk_loop_mono (t : list A) (size overlap : nat) (fuel fuel' : nat)
      (i : nat) (out r : list (list A)) :
  chunk_loop fuel t size overlap i out = Some r -> fuel <= fuel' ->
  chunk_loop fuel' t size overlap i out = Some r.
Proof.
  revert fuel' i out. induction fuel as [|fuel IH]; intros fuel' i out Hr Hle;
    [discriminate|].
  destruct fuel' as [|fuel']; [lia|]. cbn [chunk_loop] in *.
  destruct (i <? length t); auto.
  destruct (Nat.min (i + size) (length t) =? length t); auto.
  apply IH; auto. lia.
Qed.

(** With [overlap < size] one round per character is enough fuel. *)
Lemma chunk_text_enough (t : list A) (size overlap : nat) :
  overlap < size ->
  exists chunks,
    forall fuel, length t <= fuel -> chunk_text fuel t size overlap = Some chunks.
Proof.
  intros Hov. destruct t as [|a t]; [exists []; reflexivity|].
  destruct (chunk_loop_spec (a :: t) size overlap Hov (length (a :: t)) 0 []
              ltac:(cbn; lia) ltac:(lia)) as (c & cs & Hloop & _).
  exists (c :: cs). intros fuel Hfuel. cbn [chunk_text].
  now apply (chunk_loop_mono _ _ _ (length (a :: t))).
Qed.

(** X15.  With [overlap < size] (the scripts run 150 and 900)
    [chunk_text] returns, after at most one round per character: no
    chunks for the empty text, at least one otherwise; no chunk is empty
    or longer than [size], all but the last have exactly [size]
    characters, each chunk starts with the last [overlap] characters of
    the one before, and the first chunk followed by every later chunk
    without its first [overlap] characters is the text. *)
Theorem chunk_text_returns (t : list A) (size overlap : nat) :
  overlap < size ->
  exists chunks,
    (forall fuel, length t <= fuel -> chunk_text fuel t size overlap = Some chunks) /\
    (chunks = [] <-> t = []) /\
    well_sized size chunks /\ overlapping overlap chunks /\
    reassemble overlap chunks = t.
Proof.
  intros Hov. destruct t as [|a t].
  - exists []. split; [reflexivity|]. split; [tauto|].
    split; [|split; [exact I | reflexivity]].
    split; [constructor|]. cbn. intros k Hk. lia.
  - destruct (chunk_loop_spec (a :: t) size overlap Hov (length (a :: t)) 0 []
                ltac:(cbn; lia) ltac:(lia))
      as (c & cs & Hloop & _ & Hsz & Hovl & Hre).
    exists (c :: cs). split; [|split; [|split; [|split]]]; auto.
    + intros fuel Hfuel. cbn [chunk_text].
      now apply (chunk_loop_mono _ _ _ (length (a :: t))).
    + split; discriminate.
Qed.

Lemma chunk_loop_stuck (t : list A) (size overlap : nat) :
  size <= overlap ->
  forall fuel i out, i + size < length t -> chunk_loop fuel t size overlap i out = None.
Proof.
  intros Hov. induction fuel as [|fuel IH]; intros i out Hi; [reflexivity|].
  cbn [chunk_loop]. destruct (Nat.ltb_spec i (length t)) as [_|Hge]; [|lia].
  rewrite Nat.min_l by lia.
  destruct (Nat.eqb_spec (i + size) (length t)) as [Hend|_]; [lia|].
  apply IH. lia.
Qed.

(** X16.  With [size <= overlap] the loop of [chunk_text] does not move
    forward: on a text longer than [size] it never returns, however
    many rounds it is given. *)
Theorem chunk_text_never_returns (fuel : nat) (t : list A) (size overlap : nat) :
  size <= overlap -> size < length t -> chunk_text fuel t size overlap = None.
Proof.
  intros Hov Hlen. destruct t as [|a t]; [cbn in Hlen; lia|].
  cbn [chunk_text]. now apply chunk_loop_stuck.
Qed.

End ChunkText.

(** X15 on a text of five characters, cut by 3 with an overlap of 1. *)
Lemma chunk_text_returns_witness :
  exists chunks,
    (forall fuel, length [1; 2; 3; 4; 5] <= fuel ->
                  Ingest.chunk_text fuel [1; 2; 3; 4; 5] 3 1 = Some chunks) /\
    (chunks = [] <-> [1; 2; 3; 4; 5] = []) /\
    Ingest.well_sized 3 chunks /\ Ingest.overlapping 1 chunks /\
    Ingest.reassemble 1 chunks = [1; 2; 3; 4; 5].
Proof.
  apply (chunk_text_returns [1; 2; 3; 4; 5] 3 1). lia.
Defined.

(** X16 on a text of three characters, with [size] and [overlap] 2. *)
Lemma chunk_text_never_returns_witness :
  Ingest.chunk_text 1000 [1; 2; 3] 2 2 = None.
Proof.
  apply (chunk_text_never_returns 1000 [1; 2; 3] 2 2); cbn; lia.
Defined.

(** ** The table the ingest script leaves *)

Section IngestTable.
Context `{Np.Float32}.
Import Np Service Snapshot Ingest.

(** The loop of [chunk_text] has returned by the time [chunks_of] reads
    its result. *)
Lemma chunks_of_spec (text : string) :
  exists chunks,
    (forall fuel, length (list_ascii_of_string text) <= fuel ->
       chunk_text fuel (list_ascii_of_string text) 900 150 = Some chunks) /\
    chunks_of text = map string_of_list_ascii chunks.
Proof.
  destruct (chunk_text_enough (list_ascii_of_string text) 900 150 ltac:(lia))
    as (chunks & Hrun).
  exists chunks. split; auto. unfold chunks_of. now rewrite (Hrun _ (le_n _)).
Qed.

Lemma unique_keys_iff (rows : list Db.Row) :
  Db.unique_keys rows = true <-> NoDup (map Db.key_of rows).
Proof.
  induction rows as [|r rows IH]; cbn [Db.unique_keys map].
  - split; auto. constructor.
  - rewrite andb_true_iff, negb_true_iff, NoDup_cons_iff, IH.
    assert (Hx : existsb (fun r' => Db.key_eqb (Db.key_of r) (Db.key_of r')) rows = false
                 <-> ~ In (Db.key_of r) (map Db.key_of rows)).
    { split.
      - intros Hf Hin. apply in_map_iff in Hin. destruct Hin as (r' & Hk & Hin).
        assert (existsb (fun r' => Db.key_eqb (Db.key_of r) (Db.key_of r')) rows = true);
          [|congruence].
        apply existsb_exists. exists r'. split; auto. apply key_eqb_eq. auto.
      - intros Hn. destruct (existsb _ rows) eqn:E; auto.
        exfalso. apply Hn. apply existsb_exists in E. destruct E as (r' & Hin & Hk).
        apply key_eqb_eq in Hk. rewrite Hk. now apply in_map. }
    now rewrite Hx.
Qed.

Lemma insert_all_inv (indexed : bool) (new rows rows' : list Db.Row) :
  insert_all indexed rows new = Ok rows' -> rows' = rows ++ new.
Proof.
  revert rows. induction new as [|r new IH]; intros rows; cbn [insert_all].
  - intros Hx. inversion Hx. now rewrite app_nil_r.
  - unfold insert.
    destruct (existsb (fun r' => String.eqb (Db.id r') (Db.id r)) rows); [discriminate|].
    destruct (indexed && existsb _ rows); [discriminate|].
    cbn [bind]. intros Hx. rewrite (IH _ Hx), <- app_assoc. reflexivity.
Qed.

(** With no clash on the natural key ahead, the unique index is never
    what rejects a row. *)
Lemma insert_all_indexed (new rows : list Db.Row) :
  (forall r r', In r rows -> In r' new -> Db.key_of r <> Db.key_of r') ->
  NoDup (map Db.key_of new) ->
  insert_all true rows new = insert_all false rows new.
Proof.
  revert rows. induction new as [|x new IH]; intros rows Hfresh Hnd; [reflexivity|].
  cbn [insert_all]. unfold insert. cbn [andb].
  destruct (existsb (fun r' => String.eqb (Db.id r') (Db.id x)) rows); [reflexivity|].
  assert (Hk : existsb (fun r' => Db.key_eqb (Db.key_of r') (Db.key_of x)) rows = false).
  { destruct (existsb _ rows) eqn:E; auto.
    apply existsb_exists in E. destruct E as (r & Hin & Hk). apply key_eqb_eq in Hk.
    exfalso. apply (Hfresh r x); auto. now left. }
  rewrite Hk. cbn [bind]. cbn [map] in Hnd. apply NoDup_cons_iff in Hnd.
  destruct Hnd as [Hx Hnd]. apply IH; auto.
  intros r r' Hin Hin'. apply in_app_or in Hin. destruct Hin as [Hin|[<-|[]]].
  - apply Hfresh; auto. now right.
  - intros Heq. apply Hx. rewrite Heq. now apply in_map.
Qed.

Lemma file_rows_keys (hp : bool) (model : string -> list R) (f : SourceFile)
      (chunks : list string) :
  map Db.key_of (file_rows hp model f chunks)
  = map (fun idx => (f_rel f, f_kind f, Z.of_nat idx)) (seq 0 (length chunks)).
Proof.
  unfold file_rows. rewrite map_map.
  generalize (Z.of_nat (length (model (hd ""%string chunks)))) as dim.
  intros dim. generalize 0.
  induction chunks as [|ch chunks IH]; intros s; [reflexivity|].
  cbn [length seq combine map]. f_equal. apply IH.
Qed.

Lemma file_rows_keys_NoDup (hp : bool) (model : string -> list R) (f : SourceFile)
      (chunks : list string) :
  NoDup (map Db.key_of (file_rows hp model f chunks)).
Proof.
  rewrite file_rows_keys. apply Finite.Injective_map_NoDup; [|apply seq_NoDup].
  intros a b Hab. inversion Hab. lia.
Qed.

Lemma file_rows_source (hp : bool) (model : string -> list R) (f : SourceFile)
      (chunks : list string) (r : Db.Row) :
  In r (file_rows hp model f chunks) -> Db.source_path r = f_rel f.
Proof.
  intros Hin. apply (in_map Db.key_of) in Hin. rewrite file_rows_keys in Hin.
  apply in_map_iff in Hin. destruct Hin as (idx & Hk & _).
  unfold Db.key_of in Hk. now inversion Hk.
Qed.

Lemma delete_source_spec (rel : string) (rows : list Db.Row) (r : Db.Row) :
  In r (delete_source rel rows) <-> In r rows /\ Db.source_path r <> rel.
Proof.
  unfold delete_source. rewrite filter_In, negb_true_iff, String.eqb_neq. tauto.
Qed.

Lemma deleted_keys_fresh (hp : bool) (model : string -> list R) (f : SourceFile)
      (chunks : list string) (rows : list Db.Row) (r r' : Db.Row) :
  In r (delete_source (f_rel f) rows) -> In r' (file_rows hp model f chunks) ->
  Db.key_of r <> Db.key_of r'.
Proof.
  intros Hr Hr' Hk. apply delete_source_spec in Hr. destruct Hr as [_ Hr].
  apply file_rows_source in Hr'. unfold Db.key_of in Hk. inversion Hk. congruence.
Qed.

Lemma ingest_file_indexed (hp : bool) (model : string -> list R)
      (rows : list Db.Row) (f : SourceFile) :
  ingest_file true hp model rows f = ingest_file false hp model rows f.
Proof.
  unfold ingest_file. destruct (skipped f); [reflexivity|].
  apply insert_all_indexed.
  - intros r r'. apply deleted_keys_fresh.
  - apply file_rows_keys_NoDup.
Qed.

Lemma ingest_files_indexed (hp : bool) (model : string -> list R)
      (files : list SourceFile) (rows : list Db.Row) :
  ingest_files true hp model rows files = ingest_files false hp model rows files.
Proof.
  revert rows. induction files as [|f files IH]; intros rows; [reflexivity|].
  cbn [ingest_files]. rewrite ingest_file_indexed.
  destruct (ingest_file false hp model rows f); cbn [bind]; auto.
Qed.

(** X17.  The unique index the service puts on the natural key never
    gets in the way of the ingest script: a run of [main] ends the same
    way and leaves the same table whether the index is there or not
    (each file's rows are deleted before its chunks are inserted under
    chunk indices 0, 1, 2, ...). *)
Theorem ingest_ignores_unique_index (model : string -> list R)
        (files : list SourceFile) (d : Db.File) :
  main true model files d = main false model files d.
Proof.
  unfold main. destruct (Db._db_connect d) as [| |t]; try reflexivity.
  now rewrite ingest_files_indexed.
Qed.

Lemma ingest_file_unique (indexed hp : bool) (model : string -> list R)
      (rows rows' : list Db.Row) (f : SourceFile) :
  ingest_file indexed hp model rows f = Ok rows' ->
  Db.unique_keys rows = true -> Db.unique_keys rows' = true.
Proof.
  unfold ingest_file. destruct (skipped f); [intros Hx; now inversion Hx|].
  intros Hins Hu. apply insert_all_inv in Hins. subst rows'.
  apply unique_keys_iff. apply unique_keys_iff in Hu. rewrite map_app.
  apply NoDup_app.
  - unfold delete_source. clear - Hu. induction rows as [|r rows IH]; [constructor|].
    cbn [map filter] in *. apply NoDup_cons_iff in Hu. destruct Hu as [Hr Hu].
    destruct (negb (Db.source_path r =? f_rel f)%string); auto.
    cbn [map]. constructor; auto.
    intros Hin. apply Hr. apply in_map_iff in Hin. destruct Hin as (x & Hk & Hx).
    apply filter_In in Hx. rewrite <- Hk. apply in_map. tauto.
  - apply file_rows_keys_NoDup.
  - intros k Hk Hk'. apply in_map_iff in Hk. destruct Hk as (r & <- & Hr).
    apply in_map_iff in Hk'. destruct Hk' as (r' & Hk' & Hr').
    symmetry in Hk'. revert Hk'. now apply (deleted_keys_fresh hp model f (chunks_of (text_of f)) rows).
Qed.

Lemma ingest_file_keeps (indexed hp : bool) (model : string -> list R)
      (rows rows' : list Db.Row) (f : SourceFile) (r : Db.Row) :
  ingest_file indexed hp model rows f = Ok rows' ->
  In r rows -> (skipped f = false -> Db.source_path r <> f_rel f) -> In r rows'.
Proof.
  unfold ingest_file. destruct (skipped f); [intros Hx; now inversion Hx|].
  intros Hins Hin Hne. apply insert_all_inv in Hins. subst rows'.
  apply in_or_app. left. apply delete_source_spec. auto.
Qed.

Lemma ingest_files_unique (indexed hp : bool) (model : string -> list R)
      (files : list SourceFile) (rows rows' : list Db.Row) :
  ingest_files indexed hp model rows files = Ok rows' ->
  Db.unique_keys rows = true -> Db.unique_keys rows' = true.
Proof.
  revert rows. induction files as [|f files IH]; intros rows Hrun Hu;
    cbn [ingest_files] in Hrun.
  - inversion Hrun; now subst.
  - apply bind_ok in Hrun. destruct Hrun as (rows1 & Hf & Hrun).
    apply (IH rows1 Hrun). apply (ingest_file_unique _ _ _ _ _ _ Hf Hu).
Qed.

Lemma ingest_files_keeps (indexed hp : bool) (model : string -> list R)
      (files : list SourceFile) (rows rows' : list Db.Row) (r : Db.Row) :
  ingest_files indexed hp model rows files = Ok rows' -> In r rows ->
  (forall f, In f files -> skipped f = false -> Db.source_path r <> f_rel f) ->
  In r rows'.
Proof.
  revert rows. induction files as [|f files IH]; intros rows Hrun Hin Hne;
    cbn [ingest_files] in Hrun.
  - inversion Hrun; now subst.
  - apply bind_ok in Hrun. destruct Hrun as (rows1 & Hf & Hrun).
    apply (IH rows1 Hrun).
    + apply (ingest_file_keeps _ _ _ _ _ _ _ Hf Hin). intros Hs. apply Hne; auto. now left.
    + intros f' Hf'. apply Hne. now right.
Qed.

Lemma ensure_schema_unique_ok (t : Db.Table) :
  Db.unique_keys (Db.rows t) = true ->
  Db._ensure_schema (Db.Present t) = Ok (Db.mkTable (migrated t) true).
Proof.
  intros Hu. unfold Db._ensure_schema, migrated. rewrite Hu.
  destruct t as [rows []]; reflexivity.
Qed.

(** X18.  On files of ASCII text, a run of [main] that commits keeps the
    natural keys unique when they were, so that the service's schema
    migration goes through on the table it leaves; the [priority] column
    is as before; and every row of a source path that is not among the
    files ingested is still there. *)
Theorem ingest_keeps_keys_unique (indexed : bool) (model : string -> list R)
        (files : list SourceFile) (t : Db.Table) (d' : Db.File) :
  forallb (fun f => Py.isascii (f_text f)) files = true ->
  Db.unique_keys (Db.rows t) = true ->
  main indexed model files (Db.Present t) = (d', Ok tt) ->
  exists t',
    d' = Db.Present t' /\ Db.has_priority t' = Db.has_priority t /\
    Db.unique_keys (Db.rows t') = true /\
    Db._ensure_schema d' = Ok (Db.mkTable (migrated t') true) /\
    forall r, In r (Db.rows t) ->
      (forall f, In f files -> skipped f = false -> Db.source_path r <> f_rel f) ->
      In r (Db.rows t').
Proof.
  unfold main. cbn [Db._db_connect].
  destruct (ingest_files indexed (Db.has_priority t) model (Db.rows t) files)
    as [rows'|e] eqn:Hrun; [|discriminate].
  intros _ Hu Hx. inversion Hx; subst d'; clear Hx.
  exists (Db.mkTable rows' (Db.has_priority t)). cbn [Db.rows Db.has_priority].
  pose proof (ingest_files_unique _ _ _ _ _ _ Hrun Hu) as Hu'.
  split; [reflexivity|]. split; [reflexivity|]. split; [exact Hu'|].
  split; [now apply ensure_schema_unique_ok|].
  intros r. apply (ingest_files_keeps _ _ _ _ _ _ _ Hrun).
Qed.

(** A row the model of width [D] can be loaded from. *)
Lemma file_rows_width (hp : bool) (model : string -> list R) (D : nat)
      (f : SourceFile) (chunks : list string) :
  (forall s, length (model s) = D) ->
  Forall (fun r => Db.dim r = Z.of_nat D /\ D <= length (Db.emb r))
         (file_rows hp model f chunks).
Proof.
  intros HD. unfold file_rows. apply Forall_forall. intros r Hin.
  apply in_map_iff in Hin. destruct Hin as ([idx ch] & <- & _). cbn.
  rewrite !HD. split; [reflexivity | lia].
Qed.

Lemma ingest_files_width (indexed hp : bool) (model : string -> list R) (D : nat)
      (files : list SourceFile) (rows rows' : list Db.Row) :
  (forall s, length (model s) = D) ->
  ingest_files indexed hp model rows files = Ok rows' ->
  Forall (fun r => Db.dim r = Z.of_nat D /\ D <= length (Db.emb r)) rows ->
  Forall (fun r => Db.dim r = Z.of_nat D /\ D <= length (Db.emb r)) rows'.
Proof.
  intros HD. revert rows. induction files as [|f files IH]; intros rows Hrun Hall;
    cbn [ingest_files] in Hrun.
  - inversion Hrun; now subst.
  - apply bind_ok in Hrun. destruct Hrun as (rows1 & Hf & Hrun).
    apply (IH rows1 Hrun). unfold ingest_file in Hf.
    destruct (skipped f); [inversion Hf; now subst|].
    apply insert_all_inv in Hf. subst rows1. apply Forall_app. split.
    + unfold delete_source. apply Forall_forall. intros r Hr.
      apply filter_In in Hr. rewrite Forall_forall in Hall. now apply Hall.
    + now apply file_rows_width.
Qed.

Lemma file_rows_nonempty (hp : bool) (model : string -> list R) (f : SourceFile) :
  skipped f = false -> file_rows hp model f (chunks_of (text_of f)) <> [].
Proof.
  unfold skipped, file_rows. intros Hs. apply orb_false_iff in Hs. destruct Hs as [_ Hs].
  destruct (chunks_of (text_of f)); [discriminate|]. cbn. discriminate.
Qed.

Lemma ingest_files_nonempty (indexed hp : bool) (model : string -> list R)
      (files : list SourceFile) (rows rows' : list Db.Row) :
  ingest_files indexed hp model rows files = Ok rows' ->
  rows <> [] \/ (exists f, In f files /\ skipped f = false) -> rows' <> [].
Proof.
  revert rows. induction files as [|f files IH]; intros rows Hrun Hne;
    cbn [ingest_files] in Hrun.
  - inversion Hrun; subst. destruct Hne as [Hne|(f & [] & _)]. exact Hne.
  - apply bind_ok in Hrun. destruct Hrun as (rows1 & Hf & Hrun).
    apply (IH rows1 Hrun). unfold ingest_file in Hf.
    destruct (skipped f) eqn:Hs.
    + inversion Hf; subst rows1.
      destruct Hne as [Hne|(f' & [<-|Hin] & Hs')]; auto; [congruence|eauto].
    + left. apply insert_all_inv in Hf. subst rows1.
      pose proof (file_rows_nonempty hp model f Hs) as Hn.
      intros Hx. apply app_eq_nil in Hx. now destruct Hx.
Qed.

Lemma width_loadable (D : nat) (rows : list Db.Row) :
  Forall (fun r => Db.dim r = Z.of_nat D /\ D <= length (Db.emb r)) rows ->
  Forall (loadable (Z.of_nat D)) rows.
Proof.
  apply Forall_impl. intros r [Hd He]. split; auto.
  unfold decodable. rewrite Hd. apply orb_true_iff. right. apply Z.leb_le. lia.
Qed.

Lemma width_migrated (D : nat) (t : Db.Table) :
  Forall (fun r => Db.dim r = Z.of_nat D /\ D <= length (Db.emb r)) (Db.rows t) ->
  Forall (fun r => Db.dim r = Z.of_nat D /\ D <= length (Db.emb r)) (migrated t).
Proof.
  unfold migrated. destruct (Db.has_priority t); auto.
  intros Hall. apply Forall_map. eapply Forall_impl; [|exact Hall]. auto.
Qed.

(** X19.  Ingest, then start the service.  On a table with unique
    natural keys whose rows are [D] items wide (the empty table of
    [init_rag_db.py], say), after a run of [main] on files of ASCII text
    that commits at least one file under a model of width [D], the
    service starts: [_startup] returns, the service is ready, and its
    snapshot has one row per row of the table, [D] items wide, built
    from the migrated table. *)
Theorem ingest_then_startup (indexed : bool) (model : string -> list R) (D : nat)
        (m : Encoder) (now : R) (files : list SourceFile) (t : Db.Table) (d1 : Db.File) :
  (forall s, length (model s) = D) ->
  m "warmup"%string <> None ->
  forallb (fun f => Py.isascii (f_text f)) files = true ->
  Db.unique_keys (Db.rows t) = true ->
  Forall (fun r => Db.dim r = Z.of_nat D /\ D <= length (Db.emb r)) (Db.rows t) ->
  main indexed model files (Db.Present t) = (d1, Ok tt) ->
  (exists f, In f files /\ skipped f = false) ->
  exists t1 ix,
    d1 = Db.Present t1 /\
    _startup m now (mkWorld (mkAppState None None None) d1) =
      (mkWorld (mkAppState (Some m) (Some ix) (Some now))
               (Db.Present (Db.mkTable (migrated t1) true)), Ok tt) /\
    snapshot_of (migrated t1) ix /\
    shape0 (emb_matrix ix) = length (Db.rows t1) /\
    shape1 (emb_matrix ix) = D.
Proof.
  intros HD Hwarm _ Hu Hall Hmain Hfile. unfold main in Hmain. cbn [Db._db_connect] in Hmain.
  destruct (ingest_files indexed (Db.has_priority t) model (Db.rows t) files)
    as [rows'|e] eqn:Hrun; [|discriminate].
  inversion Hmain; subst d1; clear Hmain.
  set (t1 := Db.mkTable rows' (Db.has_priority t)).
  set (tm := Db.mkTable (migrated t1) true).
  assert (Hu1 : Db.unique_keys (Db.rows t1) = true)
    by apply (ingest_files_unique _ _ _ _ _ _ Hrun Hu).
  assert (Hall1 : Forall (fun r => Db.dim r = Z.of_nat D /\ D <= length (Db.emb r))
                         (Db.rows t1))
    by apply (ingest_files_width _ _ _ _ _ _ _ HD Hrun Hall).
  assert (Hne1 : Db.rows t1 <> [])
    by (apply (ingest_files_nonempty _ _ _ _ _ _ Hrun); now right).
  pose proof (ensure_schema_unique_ok t1 Hu1) as Hschema. fold tm in Hschema.
  pose proof (ensure_schema_idem _ _ Hschema) as Hidem.
  pose proof (width_loadable D _ (width_migrated D t1 Hall1)) as Hload.
  assert (Hlen : length (migrated t1) = length (Db.rows t1)).
  { unfold migrated. destruct (Db.has_priority t1); [reflexivity | apply length_map]. }
  destruct (migrated t1) as [|r0 rest] eqn:Hrows.
  { destruct (Db.rows t1); [congruence | discriminate]. }
  assert (Hd0 : Db.dim r0 = Z.of_nat D).
  { inversion Hload as [|? ? [Hd _] _]. exact Hd. }
  destruct (build_index_ok r0 rest) as [ix Hb].
  { rewrite Hd0. lia. }
  { now rewrite Hd0. }
  exists t1, ix. rewrite Hrows. split; [reflexivity|].
  pose proof Hb as Hb'. apply build_index_inv in Hb'.
  destruct Hb' as ((r0' & rest' & Heq & Hall' & Hs1) & Hsnap & _).
  inversion Heq; subst r0' rest'.
  split; [|split; [exact Hsnap|split]].
  - unfold _startup. cbn [db app Db.exists_ Db._db_connect].
    rewrite Hschema. cbn iota.
    destruct (m "warmup"%string); [|congruence].
    rewrite (load_ok _ _ Hidem). unfold tm. cbn [Db.rows]. rewrite Hb.
    reflexivity.
  - destruct Hsnap as (_ & _ & _ & _ & _ & Hm). unfold shape0.
    now rewrite Hm, length_map, <- Hlen.
  - rewrite Hs1. rewrite (length_row_vector (Z.of_nat D) r0); [apply Nat2Z.id| |lia].
    now inversion Hload.
Qed.

End IngestTable.


(** X18 on the example table: one note is ingested beside the three
    rows the table holds. *)
Lemma ingest_keeps_keys_unique_witness :
  exists t',
    Db.Present (Db.mkTable (Db.rows Example.table
                              ++ [IngestExample.note_row (Some "normal"%string)]) true)
      = Db.Present t' /\
    Db.has_priority t' = Db.has_priority Example.table /\
    Db.unique_keys (Db.rows t') = true /\
    Db._ensure_schema
      (Db.Present (Db.mkTable (Db.rows Example.table
                                 ++ [IngestExample.note_row (Some "normal"%string)]) true))
      = Ok (Db.mkTable (Snapshot.migrated t') true) /\
    forall r, In r (Db.rows Example.table) ->
      (forall f, In f [IngestExample.note] -> Ingest.skipped f = false ->
                 Db.source_path r <> Ingest.f_rel f) ->
      In r (Db.rows t').
Proof.
  apply (ingest_keeps_keys_unique true IngestExample.model [IngestExample.note]
           Example.table); reflexivity.
Defined.

(** X19 on the empty table of [init_rag_db.py] and one note. *)
Lemma ingest_then_startup_witness :
  exists t1 ix,
    Db.Present (Db.mkTable [IngestExample.note_row None] false) = Db.Present t1 /\
    Service._startup Example.encoder 0%R
      (Service.mkWorld (Service.mkAppState None None None)
         (Db.Present (Db.mkTable [IngestExample.note_row None] false))) =
      (Service.mkWorld (Service.mkAppState (Some Example.encoder) (Some ix) (Some 0%R))
         (Db.Present (Db.mkTable (Snapshot.migrated t1) true)), Ok tt) /\
    Snapshot.snapshot_of (Snapshot.migrated t1) ix /\
    Np.shape0 (Service.emb_matrix ix) = length (Db.rows t1) /\
    Np.shape1 (Service.emb_matrix ix) = 2.
Proof.
  apply (ingest_then_startup false IngestExample.model 2 Example.encoder 0%R
           [IngestExample.note] (Db.mkTable [] false)).
  - intros s. reflexivity.
  - discriminate.
  - reflexivity.
  - reflexivity.
  - constructor.
  - reflexivity.
  - exists IngestExample.note. split; [now left | reflexivity].
Defined.

(** * The query script *)

Section CliQuery.
Context `{Np.Float32}.
Import Np Service Snapshot Cli.
Local Open Scope R_scope.

Lemma insert_desc_perm (x : Scored) (l : list Scored) :
  Permutation (insert_desc x l) (x :: l).
Proof.
  induction l as [|y l IH]; cbn [insert_desc]; auto.
  destruct (Rlt_dec (s_score x) (s_score y)); auto.
  rewrite IH. apply perm_swap.
Qed.

Lemma sort_desc_perm (l : list Scored) : Permutation (sort_desc l) l.
Proof.
  induction l as [|x l IH]; cbn; auto.
  rewrite insert_desc_perm. now constructor.
Qed.

Lemma insert_desc_sorted (x : Scored) (l : list Scored) :
  StronglySorted Rge (map s_score l) ->
  StronglySorted Rge (map s_score (insert_desc x l)).
Proof.
  induction l as [|y l IH]; cbn [insert_desc map]; intros Hs.
  - repeat constructor.
  - inversion Hs as [|? ? Hs' Hy]; subst.
    destruct (Rlt_dec (s_score x) (s_score y)) as [Hlt|Hge]; cbn [map].
    + constructor; auto.
      apply Forall_forall. intros s Hin. apply in_map_iff in Hin.
      destruct Hin as (z & <- & Hz).
      apply (Permutation_in _ (insert_desc_perm x l)) in Hz.
      destruct Hz as [<-|Hz]; [lra|].
      rewrite Forall_forall in Hy. apply Hy. now apply in_map.
    + constructor; auto. constructor; [lra|].
      eapply Forall_impl; [|exact Hy]. intros s Hsy. cbn in Hsy. lra.
Qed.

Lemma sort_desc_sorted (l : list Scored) :
  StronglySorted Rge (map s_score (sort_desc l)).
Proof.
  induction l as [|x l IH]; cbn; [constructor|]. now apply insert_desc_sorted.
Qed.

Lemma insert_desc_of_score (s : R) (x : Scored) (l : list Scored) :
  of_score s (insert_desc x l) = of_score s (x :: l).
Proof.
  unfold of_score. induction l as [|y l IH]; cbn [insert_desc]; [reflexivity|].
  destruct (Rlt_dec (s_score x) (s_score y)) as [Hlt|Hge]; [|reflexivity].
  cbn [filter] in *. rewrite IH.
  destruct (Req_dec_T (s_score x) s) as [Hx|Hx];
    destruct (Req_dec_T (s_score y) s) as [Hy|Hy]; try reflexivity.
  exfalso. lra.
Qed.

(** The sort is stable: entries of one score stay in order. *)
Lemma sort_desc_stable (s : R) (l : list Scored) :
  of_score s (sort_desc l) = of_score s l.
Proof.
  induction l as [|x l IH]; [reflexivity|].
  cbn [sort_desc fold_right]. fold (sort_desc l).
  rewrite insert_desc_of_score. unfold of_score in *. cbn [filter]. now rewrite IH.
Qed.

Lemma score_rows_all (qv : vec) (rows : list Db.Row) :
  forallb (scorable qv) rows = true ->
  score_rows qv rows = Ok (map (scored_of qv) rows).
Proof.
  induction rows as [|r rows IH]; [reflexivity|].
  cbn [forallb]. intros Hall. apply andb_true_iff in Hall. destruct Hall as [Hr Hall].
  unfold scorable in Hr. apply andb_true_iff in Hr. destruct Hr as [Hdec Hlen].
  cbn [score_rows map]. rewrite frombuffer_decoded, Hdec. cbn [bind].
  unfold dot1. rewrite Hlen. cbn [bind]. rewrite (IH Hall). reflexivity.
Qed.

Lemma score_rows_fails (qv : vec) (rows : list Db.Row) :
  forallb (scorable qv) rows = false -> score_rows qv rows = Err ValueError.
Proof.
  induction rows as [|r rows IH]; [discriminate|].
  cbn [forallb score_rows]. rewrite frombuffer_decoded. unfold scorable, dot1.
  destruct (decodable r); cbn [andb bind]; [|reflexivity].
  destruct (length qv =? length (decoded r)); cbn [andb bind]; [|reflexivity].
  intros Hall. now rewrite (IH Hall).
Qed.

(** X20.  The query script on a table.  When the blob of every row holds
    [dim] items and [dim] is the length of the query vector, the script
    runs through and shows the first [topk] of the rows' entries sorted
    by descending score, entries of equal score in table order; each
    entry is scored against the stored embedding as it is, not
    re-normalized.  Otherwise it ends in a [ValueError]. *)
Theorem cli_main_outcome (qv : vec) (topk : Z) (t : Db.Table) :
  (0 <= topk)%Z ->
  (forallb (scorable qv) (Db.rows t) = true ->
   exists sorted,
     Cli.main qv topk (Db.Present t)
       = (Db.Present t, Ok (firstn (Z.to_nat topk) sorted)) /\
     Permutation sorted (map (scored_of qv) (Db.rows t)) /\
     descending (map s_score sorted) /\
     forall s, of_score s sorted = of_score s (map (scored_of qv) (Db.rows t))) /\
  (forallb (scorable qv) (Db.rows t) = false ->
   Cli.main qv topk (Db.Present t) = (Db.Present t, Err ValueError)).
Proof.
  intros Hk. unfold Cli.main. cbn [Db._db_connect]. split.
  - intros Hall. rewrite (score_rows_all qv _ Hall). cbn [bind].
    exists (sort_desc (map (scored_of qv) (Db.rows t))).
    unfold Py.slice_to. destruct (Z.ltb_spec topk 0); [lia|].
    split; [reflexivity|]. split; [apply sort_desc_perm|].
    split; [apply sort_desc_sorted | intros s; apply sort_desc_stable].
  - intros Hbad. now rewrite (score_rows_fails qv _ Hbad).
Qed.

End CliQuery.

(** X20 on the example store, for the two best of three rows. *)
Lemma cli_main_outcome_witness :
  exists sorted,
    Cli.main [1%R; 0%R] 2 (Db.Present Example.table)
      = (Db.Present Example.table, Ok (firstn 2 sorted)) /\
    Permutation sorted (map (Cli.scored_of [1%R; 0%R]) (Db.rows Example.table)) /\
    Snapshot.descending (map Cli.s_score sorted).
Proof.
  destruct (cli_main_outcome [1%R; 0%R] 2 Example.table) as [Hok _]; [lia|].
  destruct (Hok eq_refl) as (sorted & Hmain & Hperm & Hdesc & _).
  exists sorted. auto.
Defined.

(** * [normalize] *)

Section Normalize.
Import Ingest.

Lemma runs_below_mono (p : ascii -> bool) (k : nat) (l : list ascii) (cur cur' : nat) :
  cur' <= cur -> runs_below p k cur l = true -> runs_below p k cur' l = true.
Proof.
  revert cur cur'. induction l as [|c l IH]; intros cur cur' Hle; cbn [runs_below]; auto.
  destruct (p c); auto. rewrite !andb_true_iff, !Nat.ltb_lt.
  intros [Hk Hr]. split; [lia|]. apply (IH (S cur)); auto. lia.
Qed.

Lemma runs_below_run (p : ascii -> bool) (k : nat) (run post : list ascii) (cur : nat) :
  runs_below p k cur (run ++ post) = true -> Forall (fun c => p c = true) run ->
  run <> [] -> cur + length run < k.
Proof.
  revert cur. induction run as [|c run IH]; intros cur Hr Hall Hne; [congruence|].
  inversion Hall as [|? ? Hc Hall']; subst. cbn [app runs_below] in Hr. rewrite Hc in Hr.
  apply andb_true_iff in Hr. destruct Hr as [Hk Hr]. apply Nat.ltb_lt in Hk.
  destruct run as [|c' run]; [cbn; lia|].
  specialize (IH (S cur) Hr Hall' ltac:(discriminate)). cbn in *. lia.
Qed.

(** In a list without a run of length [k], no stretch of [k] characters
    of the class is found anywhere. *)
Lemma runs_below_infix (p : ascii -> bool) (k : nat) (pre run post : list ascii) (cur : nat) :
  runs_below p k cur (pre ++ run ++ post) = true ->
  Forall (fun c => p c = true) run -> run <> [] -> length run < k.
Proof.
  revert cur. induction pre as [|c pre IH]; intros cur Hr Hall Hne.
  - cbn [app] in Hr. pose proof (runs_below_run p k run post cur Hr Hall Hne). lia.
  - cbn [app runs_below] in Hr. destruct (p c).
    + apply andb_true_iff in Hr. destruct Hr as [_ Hr]. now apply (IH (S cur)).
    + now apply (IH 0).
Qed.

Lemma collapse_blanks_spaces (l : list ascii) (b : bool) :
  runs_below is_sp 2 (if b then 1 else 0) (collapse_blanks b l) = true.
Proof.
  revert b. induction l as [|c l IH]; intros b; [reflexivity|].
  cbn [collapse_blanks]. destruct (is_blank c) eqn:Hc.
  - destruct b; [apply (IH true)|]. cbn. apply (IH true).
  - cbn [runs_below].
    assert (Hs : is_sp c = false).
    { unfold is_blank in Hc. apply orb_false_iff in Hc. now destruct Hc. }
    rewrite Hs. apply (IH false).
Qed.

Lemma collapse_blanks_no_tab (l : list ascii) (b : bool) :
  ~ In TAB (collapse_blanks b l).
Proof.
  revert b. induction l as [|c l IH]; intros b; cbn [collapse_blanks]; [tauto|].
  destruct (is_blank c) eqn:Hc.
  - destruct b; [apply IH|]. intros [Hx|Hx]; [discriminate | now apply (IH true)].
  - intros [Hx|Hx]; [|now apply (IH false)].
    subst c. unfold is_blank in Hc. rewrite Ascii.eqb_refl, orb_true_r in Hc. discriminate.
Qed.

Lemma collapse_newlines_incl (l : list ascii) (seen : nat) (c : ascii) :
  In c (collapse_newlines seen l) -> In c l.
Proof.
  revert seen. induction l as [|x l IH]; intros seen; cbn [collapse_newlines]; auto.
  destruct (Ascii.eqb_spec x LF) as [->|Hx].
  - destruct (seen <? 2); [intros [<-|Hin]|intros Hin]; [now left| |]; right; eauto.
  - intros [<-|Hin]; [now left | right; eauto].
Qed.

Lemma collapse_newlines_spaces (l : list ascii) (seen cur : nat) :
  (0 < seen -> cur = 0) ->
  runs_below is_sp 2 cur l = true ->
  runs_below is_sp 2 cur (collapse_newlines seen l) = true.
Proof.
  revert seen cur. induction l as [|c l IH]; intros seen cur Hseen; [reflexivity|].
  cbn [collapse_newlines runs_below].
  destruct (Ascii.eqb_spec c LF) as [->|Hc].
  - change (is_sp LF) with false. cbn iota. intros Hr.
    destruct (seen <? 2) eqn:Hs.
    + cbn [runs_below]. change (is_sp LF) with false. cbn iota.
      apply IH; auto.
    + apply Nat.ltb_ge in Hs. rewrite (Hseen ltac:(lia)). apply IH; auto.
  - cbn [runs_below]. destruct (is_sp c).
    + rewrite !andb_true_iff. intros [Hk Hr]. split; auto. apply IH; auto. lia.
    + apply IH. lia.
Qed.

Lemma collapse_newlines_runs (l : list ascii) (seen : nat) :
  runs_below is_lf 3 (Nat.min seen 2) (collapse_newlines seen l) = true.
Proof.
  revert seen. induction l as [|c l IH]; intros seen; [reflexivity|].
  cbn [collapse_newlines]. destruct (Ascii.eqb c LF) eqn:Hc.
  - destruct (Nat.ltb_spec seen 2) as [Hs|Hs].
    + cbn [runs_below]. unfold is_lf at 1. rewrite Ascii.eqb_refl.
      rewrite Nat.min_l by lia. apply andb_true_iff. split; [apply Nat.ltb_lt; lia|].
      specialize (IH (S seen)). rewrite Nat.min_l in IH by lia. exact IH.
    + specialize (IH (S seen)). rewrite Nat.min_r in * by lia. exact IH.
  - cbn [runs_below]. unfold is_lf at 1. rewrite Hc. apply (IH 0).
Qed.

Lemma length_replace_crlf (l : list ascii) : length (replace_crlf l) <= length l.
Proof.
  assert (H : forall n l, length l <= n -> length (replace_crlf l) <= length l).
  { induction n as [|n IH]; intros l0 Hn.
    - destruct l0; [cbn; lia | cbn in Hn; lia].
    - destruct l0 as [|c1 [|c2 l'']]; [cbn; lia | cbn; lia |].
      change (replace_crlf (c1 :: c2 :: l''))
        with (if Ascii.eqb c1 CR && Ascii.eqb c2 LF then LF :: replace_crlf l''
              else c1 :: replace_crlf (c2 :: l'')).
      destruct (Ascii.eqb c1 CR && Ascii.eqb c2 LF).
      + cbn [length] in *. specialize (IH l'' ltac:(lia)). lia.
      + cbn [length] in *. specialize (IH (c2 :: l'') ltac:(cbn [length]; lia)). cbn [length] in IH. lia. }
  now apply (H (length l)).
Qed.

Lemma length_collapse_blanks (l : list ascii) (b : bool) :
  length (collapse_blanks b l) <= length l.
Proof.
  revert b. induction l as [|c l IH]; intros b; cbn [collapse_blanks]; auto.
  pose proof (IH true). pose proof (IH false).
  destruct (is_blank c); [destruct b|]; cbn [length]; lia.
Qed.

Lemma length_collapse_newlines (l : list ascii) (seen : nat) :
  length (collapse_newlines seen l) <= length l.
Proof.
  revert seen. induction l as [|c l IH]; intros seen; cbn [collapse_newlines]; auto.
  pose proof (IH (S seen)). pose proof (IH 0).
  destruct (Ascii.eqb c LF); [destruct (seen <? 2)|]; cbn [length]; lia.
Qed.

(** [lstrip] takes a stretch of white space off the front. *)
Lemma lstrip_chars_spec (l : list ascii) :
  exists ws, l = ws ++ Py.lstrip_chars l /\
             (forall c, hd_error (Py.lstrip_chars l) = Some c -> Py.isspace c = false).
Proof.
  induction l as [|c l (ws & Hws & Hhd)]; cbn [Py.lstrip_chars].
  - exists []. split; auto. discriminate.
  - destruct (Py.isspace c) eqn:Hc.
    + exists (c :: ws). split; auto. cbn. now f_equal.
    + exists []. split; auto. cbn. intros c' Hx. now inversion Hx; subst.
Qed.

(** What [strip] leaves of a list of characters. *)
Lemma strip_spec (l : list ascii) :
  let out := rev (Py.lstrip_chars (rev (Py.lstrip_chars l))) in
  (exists pre post, l = pre ++ out ++ post) /\
  (forall c, hd_error out = Some c -> Py.isspace c = false) /\
  (forall c, hd_error (rev out) = Some c -> Py.isspace c = false).
Proof.
  intros out.
  destruct (lstrip_chars_spec l) as (ws1 & H1 & Hhd1).
  destruct (lstrip_chars_spec (rev (Py.lstrip_chars l))) as (ws2 & H2 & Hhd2).
  assert (Hy : Py.lstrip_chars l = out ++ rev ws2).
  { apply (f_equal (@rev ascii)) in H2. rewrite rev_involutive, rev_app_distr in H2.
    exact H2. }
  split; [|split].
  - exists ws1, (rev ws2). now rewrite <- Hy.
  - intros c Hc. apply Hhd1. rewrite Hy. destruct out; [discriminate | exact Hc].
  - unfold out. rewrite rev_involutive. exact Hhd2.
Qed.

Lemma normalize_chars (t : string) :
  list_ascii_of_string (normalize t) =
  rev (Py.lstrip_chars (rev (Py.lstrip_chars
    (collapse_newlines 0
       (collapse_blanks false (replace_crlf (list_ascii_of_string t))))))).
Proof.
  unfold normalize, Py.strip. now rewrite !list_ascii_of_string_of_list_ascii.
Qed.

(** X21.  What [normalize] returns: it holds no tab, no two spaces in a
    row and no three newlines in a row, it neither starts nor ends with
    white space, and it is not longer than the text. *)
Theorem normalize_spec (t : string) :
  let out := list_ascii_of_string (normalize t) in
  ~ In TAB out /\
  (forall pre post, out <> pre ++ [SP; SP] ++ post) /\
  (forall pre post, out <> pre ++ [LF; LF; LF] ++ post) /\
  (forall c, hd_error out = Some c -> Py.isspace c = false) /\
  (forall c, hd_error (rev out) = Some c -> Py.isspace c = false) /\
  length out <= String.length t.
Proof.
  cbv zeta. rewrite normalize_chars.
  set (l0 := list_ascii_of_string t).
  set (l2 := collapse_newlines 0 (collapse_blanks false (replace_crlf l0))).
  pose proof (strip_spec l2) as Hs. cbv zeta in Hs.
  set (out := rev (Py.lstrip_chars (rev (Py.lstrip_chars l2)))) in *.
  destruct Hs as ((pre0 & post0 & Hin) & Hhd & Hlast).
  assert (Hsp : runs_below is_sp 2 0 l2 = true).
  { apply collapse_newlines_spaces; [lia|]. apply (collapse_blanks_spaces _ false). }
  assert (Hlf : runs_below is_lf 3 0 l2 = true) by apply (collapse_newlines_runs _ 0).
  split; [|split; [|split; [|split; [|split]]]]; auto.
  - intros Hx. apply (collapse_blanks_no_tab (replace_crlf l0) false).
    apply (collapse_newlines_incl _ 0). fold l2. rewrite Hin.
    apply in_or_app. right. apply in_or_app. now left.
  - intros pre post Hout. rewrite Hin, Hout, <- !app_assoc in Hsp.
    rewrite (app_assoc pre0 pre) in Hsp.
    apply (runs_below_infix is_sp 2 (pre0 ++ pre) [SP; SP]) in Hsp.
    + cbn in Hsp. lia.
    + repeat constructor.
    + discriminate.
  - intros pre post Hout. rewrite Hin, Hout, <- !app_assoc in Hlf.
    rewrite (app_assoc pre0 pre) in Hlf.
    apply (runs_below_infix is_lf 3 (pre0 ++ pre) [LF; LF; LF]) in Hlf.
    + cbn in Hlf. lia.
    + repeat constructor.
    + discriminate.
  - assert (Hl2 : length l2 <= length l0).
    { unfold l2. rewrite length_collapse_newlines, length_collapse_blanks.
      apply length_replace_crlf. }
    assert (Hl0 : length l0 = String.length t).
    { unfold l0. clear. induction t; cbn; auto. }
    rewrite <- Hl0. rewrite Hin, !length_app in Hl2. lia.
Qed.

End Normalize.
